(** * Analytic acquisition functions of botorch (botorch/acquisition/analytic.py)

    A shallow embedding of the analytic acquisition functions
    (Expected Improvement, Posterior Mean, Probability of Improvement,
    Upper Confidence Bound, Constrained Expected Improvement and the
    fantasy-based Noisy Expected Improvement) together with the part of
    torch they are written against.

    Conventions of the embedding.
    - Tensor entries are real numbers: the arithmetic of the source is read
      as exact arithmetic (no rounding, no NaN, no infinities).  [sqrt] is
      the real square root; it agrees with [torch.sqrt] on non-negative
      arguments only, so the results on code that takes the square root
      of a raw variance are meant for non-negative variances (the theorems
      of the claims assume it where it matters).
    - Output indices and dimensions are natural numbers: Python's negative
      indices are left out.
    - A tensor is its shape together with its entries in row-major order,
      as a contiguous torch tensor stores them.
    - Code that raises returns [Err] with the class of the exception.
    - Conversions to the device and dtype of the candidate tensor
      ([Tensor.to], [convert_to_target_pre_hook]), [register_buffer] and
      [torch.no_grad] are omitted.  The one narrowing the source writes
      out, [dtype=torch.float] for the constraint bounds, is kept: see
      [ConstrainedExpectedImprovement.__init__].
    - Exact arithmetic decides neither the sign nor the order of values
      the source obtains by cancellation (for instance [updf + u * ucdf]
      far in the tail): the theorems state which value is computed, and an
      inequality only where rounding cannot reverse it. *)

From Stdlib Require Import Reals Lra Lia List Arith Bool ZArith Epsilon.
Import ListNotations.

(** * The standard normal distribution *)

Module Gaussian.

Open Scope R_scope.

(** Density of N(0,1): what [torch.exp(Normal(0,1).log_prob(t))] denotes. *)
Definition std_normal_pdf (t : R) : R := exp (- (t * t) / 2) / sqrt (2 * PI).

(** [F a] tends to [l] as [a] tends to minus infinity. *)
Definition tends_at_minus_infinity (F : R -> R) (l : R) : Prop :=
  forall eps, 0 < eps -> exists M, forall a, a < M -> Rabs (F a - l) < eps.

(** The limit at minus infinity, when there is one. *)
Definition lim_minus_infinity (F : R -> R) : R :=
  epsilon (inhabits 0) (tends_at_minus_infinity F).

Lemma sqrt_2PI_pos : 0 < sqrt (2 * PI).
Proof. apply sqrt_lt_R0. generalize PI_RGT_0; lra. Qed.

Lemma std_normal_pdf_pos t : 0 < std_normal_pdf t.
Proof.
  unfold std_normal_pdf. apply Rdiv_lt_0_compat; [apply exp_pos | apply sqrt_2PI_pos].
Qed.

Lemma std_normal_pdf_deriv t :
  derivable_pt_lim std_normal_pdf t (- t * std_normal_pdf t).
Proof.
  unfold std_normal_pdf.
  assert (H : derivable_pt_lim (fun x => - (x * x) / 2) t (- t)).
  { replace (- t) with (- (1 * t + t * 1) * / 2) by lra.
    apply (derivable_pt_lim_scal_right (fun x => - (x * x)) t _ (/ 2)).
    apply (derivable_pt_lim_opp (fun x => x * x)).
    apply (derivable_pt_lim_mult id id); apply derivable_pt_lim_id. }
  pose proof (derivable_pt_lim_comp _ exp t _ _ H (derivable_pt_lim_exp _)) as Hc.
  replace (- t * (exp (- (t * t) / 2) / sqrt (2 * PI)))
    with (exp (- (t * t) / 2) * - t * / sqrt (2 * PI)) by (unfold Rdiv; ring).
  exact (derivable_pt_lim_scal_right _ t _ (/ sqrt (2 * PI)) Hc).
Qed.

Lemma std_normal_pdf_continuity : continuity std_normal_pdf.
Proof.
  intro t. apply derivable_continuous_pt.
  exists (- t * std_normal_pdf t). apply std_normal_pdf_deriv.
Qed.

Lemma pdf_integrable (a b : R) : Riemann_integrable std_normal_pdf a b.
Proof.
  destruct (Rle_dec a b) as [Hab | Hab].
  - apply continuity_implies_RiemannInt; [exact Hab|].
    intros; apply std_normal_pdf_continuity.
  - apply RiemannInt_P1, continuity_implies_RiemannInt; [lra|].
    intros; apply std_normal_pdf_continuity.
Qed.

(** The integral of the density from [a] to [b]. *)
Definition pdf_integral (a b : R) : R := RiemannInt (pdf_integrable a b).

(** Distribution function of N(0,1): the integral of the density over
    (-infinity, u].  This is what [Normal(0,1).cdf(u)] denotes; torch
    evaluates it through the error function of the C library. *)
Definition std_normal_cdf (u : R) : R :=
  lim_minus_infinity (fun a => pdf_integral a u).

Lemma pdf_integral_chasles a b c :
  pdf_integral a b + pdf_integral b c = pdf_integral a c.
Proof. unfold pdf_integral. apply RiemannInt_P26. Qed.

Lemma pdf_integral_same a : pdf_integral a a = 0.
Proof. unfold pdf_integral. apply RiemannInt_P9. Qed.

(** The primitive of the density that vanishes at 0. *)
Definition pdf_primitive (y : R) : R := pdf_integral 0 y.

Lemma pdf_primitive_deriv x :
  derivable_pt_lim pdf_primitive x (std_normal_pdf x).
Proof.
  assert (h : x - 1 <= x + 1) by lra.
  assert (C0 : forall y, x - 1 <= y <= x + 1 -> continuity_pt std_normal_pdf y)
    by (intros; apply std_normal_pdf_continuity).
  pose proof (RiemannInt_P27 (x := x) h C0 ltac:(lra)) as HP.
  apply (derivable_pt_lim_locally_ext
           (fun y => primitive h (FTC_P1 h C0) y - pdf_integral (x - 1) 0)
           pdf_primitive x (x - 1) (x + 1)); [lra | |].
  - intros z Hz. unfold primitive.
    destruct (Rle_dec (x - 1) z) as [H1 | H1]; [|lra].
    destruct (Rle_dec z (x + 1)) as [H2 | H2]; [|lra].
    rewrite (RiemannInt_P5 _ (pdf_integrable (x - 1) z)).
    fold (pdf_integral (x - 1) z). unfold pdf_primitive.
    rewrite <- (pdf_integral_chasles (x - 1) 0 z). ring.
  - replace (std_normal_pdf x) with (std_normal_pdf x - 0) by ring.
    apply (derivable_pt_lim_minus _ (fct_cte (pdf_integral (x - 1) 0))).
    + exact HP.
    + apply derivable_pt_lim_const.
Qed.

Lemma pdf_primitive_derivable : derivable pdf_primitive.
Proof. intro x. exists (std_normal_pdf x). apply pdf_primitive_deriv. Qed.

Lemma pdf_primitive_increasing a b :
  a <= b -> pdf_primitive a <= pdf_primitive b.
Proof.
  apply (nonneg_derivative_1 pdf_primitive pdf_primitive_derivable).
  intro x. rewrite (derive_pt_eq_0 _ _ _ _ (pdf_primitive_deriv x)).
  left; apply std_normal_pdf_pos.
Qed.

(** The density is dominated by [tail_const * exp t], which bounds the
    lower tail of the distribution function. *)
Definition tail_const : R := exp (1 / 2) / sqrt (2 * PI).

Lemma tail_const_pos : 0 < tail_const.
Proof. apply Rdiv_lt_0_compat; [apply exp_pos | apply sqrt_2PI_pos]. Qed.

Lemma std_normal_pdf_le_exp t : std_normal_pdf t <= tail_const * exp t.
Proof.
  unfold std_normal_pdf, tail_const.
  replace (exp (1 / 2) / sqrt (2 * PI) * exp t)
    with (exp (1 / 2 + t) / sqrt (2 * PI)) by (rewrite exp_plus; field; apply Rgt_not_eq, sqrt_2PI_pos).
  apply Rmult_le_compat_r; [left; apply Rinv_0_lt_compat, sqrt_2PI_pos|].
  assert (Hle : - (t * t) / 2 <= 1 / 2 + t).
  { pose proof (Rle_0_sqr (t + 1)) as Hs. unfold Rsqr in Hs. lra. }
  destruct Hle as [H | H].
  - left; apply exp_increasing; exact H.
  - rewrite H; right; reflexivity.
Qed.

Lemma pdf_integral_le_exp a b :
  a <= b -> pdf_primitive b - pdf_primitive a <= tail_const * (exp b - exp a).
Proof.
  intro Hab.
  pose (D := fun y => tail_const * exp y - pdf_primitive y).
  assert (HD : forall x, derivable_pt_lim D x (tail_const * exp x - std_normal_pdf x)).
  { intro x. apply (derivable_pt_lim_minus (fun y => tail_const * exp y) pdf_primitive).
    - apply (derivable_pt_lim_scal exp tail_const), derivable_pt_lim_exp.
    - apply pdf_primitive_deriv. }
  assert (Dd : derivable D) by (intro x; eexists; apply HD).
  assert (Hinc : D a <= D b).
  { apply (nonneg_derivative_1 D Dd); [|exact Hab].
    intro x. rewrite (derive_pt_eq_0 _ _ _ _ (HD x)).
    generalize (std_normal_pdf_le_exp x); lra. }
  unfold D in Hinc. lra.
Qed.

Lemma pdf_primitive_0 : pdf_primitive 0 = 0.
Proof. apply pdf_integral_same. Qed.

Lemma pdf_primitive_lower_bound a : - tail_const <= pdf_primitive a.
Proof.
  destruct (Rle_dec a 0) as [H | H].
  - pose proof (pdf_integral_le_exp a 0 H) as Hb.
    rewrite pdf_primitive_0, exp_0 in Hb.
    pose proof (exp_pos a). pose proof tail_const_pos. nra.
  - pose proof (pdf_primitive_increasing 0 a ltac:(lra)) as Hb.
    rewrite pdf_primitive_0 in Hb. pose proof tail_const_pos. lra.
Qed.

Lemma tends_unique F l1 l2 :
  tends_at_minus_infinity F l1 -> tends_at_minus_infinity F l2 -> l1 = l2.
Proof.
  intros H1 H2.
  destruct (Req_dec l1 l2) as [E | N]; [exact E | exfalso].
  assert (Hpos : 0 < Rabs (l1 - l2) / 2).
  { apply Rdiv_lt_0_compat; [apply Rabs_pos_lt; lra | lra]. }
  destruct (H1 _ Hpos) as [M1 HM1]. destruct (H2 _ Hpos) as [M2 HM2].
  specialize (HM1 (Rmin M1 M2 - 1)). specialize (HM2 (Rmin M1 M2 - 1)).
  pose proof (Rmin_l M1 M2). pose proof (Rmin_r M1 M2).
  specialize (HM1 ltac:(lra)). specialize (HM2 ltac:(lra)).
  revert HM1 HM2 Hpos. unfold Rabs.
  repeat destruct Rcase_abs; lra.
Qed.

Lemma tends_le F l c a0 :
  tends_at_minus_infinity F l -> (forall a, a <= a0 -> F a <= c) -> l <= c.
Proof.
  intros HF Hle.
  destruct (Rle_dec l c) as [H | H]; [exact H | exfalso].
  destruct (HF ((l - c) / 2) ltac:(lra)) as [M HM].
  specialize (HM (Rmin M a0 - 1)). specialize (Hle (Rmin M a0 - 1)).
  pose proof (Rmin_l M a0). pose proof (Rmin_r M a0).
  specialize (HM ltac:(lra)). specialize (Hle ltac:(lra)).
  revert HM. unfold Rabs. destruct Rcase_abs; lra.
Qed.

Lemma tends_ge F l c a0 :
  tends_at_minus_infinity F l -> (forall a, a <= a0 -> c <= F a) -> c <= l.
Proof.
  intros HF Hle.
  destruct (Rle_dec c l) as [H | H]; [exact H | exfalso].
  destruct (HF ((c - l) / 2) ltac:(lra)) as [M HM].
  specialize (HM (Rmin M a0 - 1)). specialize (Hle (Rmin M a0 - 1)).
  pose proof (Rmin_l M a0). pose proof (Rmin_r M a0).
  specialize (HM ltac:(lra)). specialize (Hle ltac:(lra)).
  revert HM. unfold Rabs. destruct Rcase_abs; lra.
Qed.

Lemma pdf_primitive_has_limit :
  exists m, tends_at_minus_infinity pdf_primitive m.
Proof.
  pose (E := fun y => exists a, y = - pdf_primitive a).
  assert (Hb : bound E).
  { exists tail_const. intros y [a ->]. generalize (pdf_primitive_lower_bound a); lra. }
  assert (Hne : exists y, E y) by (exists (- pdf_primitive 0), 0; reflexivity).
  destruct (completeness E Hb Hne) as [s [Hub Hleast]].
  exists (- s). intros eps Heps.
  assert (Hex : exists a0, s - eps < - pdf_primitive a0).
  { destruct (Classical_Prop.classic (exists a0, s - eps < - pdf_primitive a0)) as [H | H];
      [exact H | exfalso].
    assert (Hub' : is_upper_bound E (s - eps)).
    { intros y [a ->]. destruct (Rle_dec (- pdf_primitive a) (s - eps)) as [L | L]; [exact L|].
      exfalso; apply H; exists a; lra. }
    specialize (Hleast _ Hub'). lra. }
  destruct Hex as [a0 Ha0]. exists a0. intros a Ha.
  assert (H1 : - pdf_primitive a <= s) by (apply Hub; exists a; reflexivity).
  pose proof (pdf_primitive_increasing a a0 ltac:(lra)) as H2.
  unfold Rabs. destruct Rcase_abs; lra.
Qed.

Lemma pdf_primitive_tends :
  tends_at_minus_infinity pdf_primitive (lim_minus_infinity pdf_primitive).
Proof.
  unfold lim_minus_infinity. apply epsilon_spec. exact pdf_primitive_has_limit.
Qed.

Lemma std_normal_cdf_primitive u :
  std_normal_cdf u = pdf_primitive u - lim_minus_infinity pdf_primitive.
Proof.
  assert (HT : tends_at_minus_infinity (fun a => pdf_integral a u)
                 (pdf_primitive u - lim_minus_infinity pdf_primitive)).
  { intros eps Heps. destruct (pdf_primitive_tends eps Heps) as [M HM].
    exists M. intros a Ha. specialize (HM a Ha).
    replace (pdf_integral a u) with (pdf_primitive u - pdf_primitive a).
    - replace (pdf_primitive u - pdf_primitive a -
               (pdf_primitive u - lim_minus_infinity pdf_primitive))
        with (- (pdf_primitive a - lim_minus_infinity pdf_primitive)) by ring.
      rewrite Rabs_Ropp. exact HM.
    - unfold pdf_primitive.
      rewrite <- (pdf_integral_chasles 0 a u).
      pose proof (pdf_integral_chasles 0 a 0) as Hc.
      rewrite pdf_integral_same in Hc.
      pose proof (pdf_integral_chasles a 0 u) as Hd.
      pose proof (pdf_integral_chasles 0 a u) as He. lra. }
  apply (tends_unique (fun a => pdf_integral a u)); [|exact HT].
  unfold std_normal_cdf, lim_minus_infinity. apply epsilon_spec.
  eexists; exact HT.
Qed.

Lemma std_normal_cdf_deriv u :
  derivable_pt_lim std_normal_cdf u (std_normal_pdf u).
Proof.
  apply (derivable_pt_lim_ext
           (fun y => pdf_primitive y - lim_minus_infinity pdf_primitive)).
  - intro z; symmetry; apply std_normal_cdf_primitive.
  - replace (std_normal_pdf u) with (std_normal_pdf u - 0) by ring.
    apply (derivable_pt_lim_minus _ (fct_cte (lim_minus_infinity pdf_primitive))).
    + apply pdf_primitive_deriv.
    + apply derivable_pt_lim_const.
Qed.

Lemma std_normal_cdf_nonneg u : 0 <= std_normal_cdf u.
Proof.
  rewrite std_normal_cdf_primitive.
  pose proof (tends_le pdf_primitive _ (pdf_primitive u) u pdf_primitive_tends
                (fun a Ha => pdf_primitive_increasing a u Ha)).
  lra.
Qed.

Lemma std_normal_cdf_le_exp u : std_normal_cdf u <= tail_const * exp u.
Proof.
  rewrite std_normal_cdf_primitive.
  assert (H : pdf_primitive u - tail_const * exp u <= lim_minus_infinity pdf_primitive).
  { apply (tends_ge pdf_primitive _ _ u pdf_primitive_tends).
    intros a Ha. pose proof (pdf_integral_le_exp a u Ha).
    pose proof (exp_pos a). pose proof tail_const_pos. nra. }
  lra.
Qed.

(** [pdf u + u * cdf u], the factor of Expected Improvement.  Its
    derivative is [cdf u >= 0] and it tends to 0 at minus infinity, hence
    it is non-negative. *)
Definition ei_kernel (u : R) : R := std_normal_pdf u + u * std_normal_cdf u.

Lemma ei_kernel_deriv u : derivable_pt_lim ei_kernel u (std_normal_cdf u).
Proof.
  unfold ei_kernel.
  replace (std_normal_cdf u)
    with (- u * std_normal_pdf u + (1 * std_normal_cdf u + u * std_normal_pdf u)) by ring.
  apply (derivable_pt_lim_plus std_normal_pdf (fun y => y * std_normal_cdf y)).
  - apply std_normal_pdf_deriv.
  - apply (derivable_pt_lim_mult id std_normal_cdf).
    + apply derivable_pt_lim_id.
    + apply std_normal_cdf_deriv.
Qed.

Lemma ei_kernel_increasing a b : a <= b -> ei_kernel a <= ei_kernel b.
Proof.
  assert (Hd : derivable ei_kernel) by (intro x; eexists; apply ei_kernel_deriv).
  apply (nonneg_derivative_1 ei_kernel Hd).
  intro x. rewrite (derive_pt_eq_0 _ _ _ _ (ei_kernel_deriv x)).
  apply std_normal_cdf_nonneg.
Qed.

Lemma exp_square_bound y : 0 < y -> y * y / 4 <= exp y.
Proof.
  intro Hy.
  replace y with (y / 2 + y / 2) at 3 by lra. rewrite exp_plus.
  pose proof (exp_ineq1_le (y / 2)) as H. nra.
Qed.

Lemma ei_kernel_tail y : 0 < y -> - (4 * tail_const / y) <= ei_kernel (- y).
Proof.
  intro Hy. unfold ei_kernel.
  pose proof (std_normal_pdf_pos (- y)) as Hp.
  pose proof (std_normal_cdf_le_exp (- y)) as Hc.
  pose proof (std_normal_cdf_nonneg (- y)) as Hn.
  pose proof tail_const_pos as HK.
  pose proof (exp_square_bound y Hy) as He.
  assert (Hexp : exp (- y) <= 4 / (y * y)).
  { rewrite exp_Ropp.
    replace (4 / (y * y)) with (/ (y * y / 4)) by (field; lra).
    apply Rinv_le_contravar; [nra | exact He]. }
  assert (Hyc : y * std_normal_cdf (- y) <= 4 * tail_const / y).
  { apply Rle_trans with (y * (tail_const * (4 / (y * y)))).
    - apply Rmult_le_compat_l; [lra|].
      apply Rle_trans with (1 := Hc). apply Rmult_le_compat_l; lra.
    - right; field; lra. }
  lra.
Qed.

Lemma ei_kernel_nonneg u : 0 <= ei_kernel u.
Proof.
  destruct (Rle_dec 0 (ei_kernel u)) as [H | H]; [exact H | exfalso].
  assert (Hneg : ei_kernel u < 0) by lra.
  pose proof tail_const_pos as HK.
  pose (y := Rmax (Rabs u + 1) (4 * tail_const / - ei_kernel u + 1)).
  assert (Hy1 : Rabs u + 1 <= y) by apply Rmax_l.
  assert (Hy2 : 4 * tail_const / - ei_kernel u + 1 <= y) by apply Rmax_r.
  assert (Hy : 0 < y) by (generalize (Rabs_pos u); lra).
  assert (Hle : - y <= u).
  { generalize (Rle_abs (- u)). rewrite Rabs_Ropp. lra. }
  pose proof (ei_kernel_increasing _ _ Hle) as Hinc.
  pose proof (ei_kernel_tail y Hy) as Ht.
  assert (Hq : 4 * tail_const / y < - ei_kernel u).
  { assert (Hpos : 0 < 4 * tail_const / - ei_kernel u).
    { apply Rdiv_lt_0_compat; lra. }
    apply Rmult_lt_reg_r with y; [exact Hy|].
    replace (4 * tail_const / y * y) with (4 * tail_const) by (field; lra).
    assert (Hz : 4 * tail_const = (4 * tail_const / - ei_kernel u) * - ei_kernel u)
      by (field; lra).
    set (q := 4 * tail_const / - ei_kernel u) in *.
    assert (Hng : 0 < - ei_kernel u) by lra.
    nra. }
  lra.
Qed.

End Gaussian.

(** * Exceptions *)

(** The exception classes the code raises.  [ShapeError] is the class the
    specification gives to a violated [q = 1] requirement; [RuntimeError]
    and [IndexError] are what torch raises on shapes that do not fit. *)
Inductive error : Set :=
  | ValueError | UnsupportedError | ShapeError | RuntimeError | IndexError
  | KeyError.

Inductive result (A : Type) : Type :=
  | Ok (a : A)
  | Err (e : error).
Arguments Ok {A} a.
Arguments Err {A} e.

Definition bind {A B : Type} (r : result A) (k : A -> result B) : result B :=
  match r with
  | Ok a => k a
  | Err e => Err e
  end.

Notation "x <- r ;; k" := (bind r (fun x => k))
  (at level 61, r at next level, right associativity).

Module Torch.

Open Scope nat_scope.

Record Tensor : Type := mkTensor { shape : list nat; data : list R }.

Definition numel (s : list nat) : nat := fold_right Nat.mul 1 s.

Definition dim (t : Tensor) : nat := length (shape t).

Fixpoint ravel (s I : list nat) : nat :=
  match s, I with
  | _ :: s', i :: I' => i * numel s' + ravel s' I'
  | _, _ => 0
  end.

Fixpoint unravel (s : list nat) (k : nat) : list nat :=
  match s with
  | [] => []
  | _ :: s' => (k / numel s') :: unravel s' (k mod numel s')
  end.

Definition in_range (I s : list nat) : Prop := Forall2 lt I s.

Definition get (t : Tensor) (I : list nat) : R :=
  nth (ravel (shape t) I) (data t) 0%R.

Definition tabulate (s : list nat) (f : list nat -> R) : Tensor :=
  mkTensor s (map (fun k => f (unravel s k)) (seq 0 (numel s))).

Definition tmap (f : R -> R) (t : Tensor) : Tensor :=
  mkTensor (shape t) (map f (data t)).

Definition full (s : list nat) (c : R) : Tensor := tabulate s (fun _ => c).
Definition ones (s : list nat) : Tensor := full s 1%R.
Definition zeros (s : list nat) : Tensor := full s 0%R.
Definition scalar (c : R) : Tensor := mkTensor [] [c].

(* broadcasting *)
Definition bdim (d1 d2 : nat) : option nat :=
  if d1 =? d2 then Some d1
  else if d1 =? 1 then Some d2
  else if d2 =? 1 then Some d1
  else None.

Fixpoint broadcast_rev (r1 r2 : list nat) : option (list nat) :=
  match r1, r2 with
  | [], _ => Some r2
  | _, [] => Some r1
  | d1 :: r1', d2 :: r2' =>
      match bdim d1 d2, broadcast_rev r1' r2' with
      | Some d, Some r => Some (d :: r)
      | _, _ => None
      end
  end.

Definition broadcast_shapes (s1 s2 : list nat) : option (list nat) :=
  option_map (@rev nat) (broadcast_rev (rev s1) (rev s2)).

Fixpoint bidx_rev (r J : list nat) : list nat :=
  match r, J with
  | d :: r', j :: J' => (if d =? 1 then 0 else j) :: bidx_rev r' J'
  | _, _ => []
  end.

Definition bidx (s I : list nat) : list nat := rev (bidx_rev (rev s) (rev I)).

Definition bop (f : R -> R -> R) (a b : Tensor) : result Tensor :=
  match broadcast_shapes (shape a) (shape b) with
  | Some s =>
      Ok (tabulate s (fun I => f (get a (bidx (shape a) I)) (get b (bidx (shape b) I))))
  | None => Err RuntimeError
  end.

Definition expand (a : Tensor) (s : list nat) : result Tensor :=
  match broadcast_shapes (shape a) s with
  | Some s' =>
      if list_eq_dec Nat.eq_dec s' s
      then Ok (tabulate s (fun I => get a (bidx (shape a) I)))
      else Err RuntimeError
  | None => Err RuntimeError
  end.

Definition expand_as (a b : Tensor) : result Tensor := expand a (shape b).

Definition view (t : Tensor) (s : list nat) : result Tensor :=
  if numel s =? numel (shape t) then Ok (mkTensor s (data t)) else Err RuntimeError.

(* s[:-k] *)
Definition drop_last (k : nat) (s : list nat) : list nat := firstn (length s - k) s.
(* s[-k:] *)
Definition take_last (k : nat) (s : list nat) : list nat := skipn (length s - k) s.

(* squeeze(dim=-k), k >= 1 *)
Definition squeeze (k : nat) (t : Tensor) : result Tensor :=
  let s := shape t in
  if (k =? 0) || (length s <? k) then Err IndexError
  else match take_last k s with
       | 1 :: rest => Ok (mkTensor (drop_last k s ++ rest) (data t))
       | _ => Ok t
       end.

(* unsqueeze(-k), k >= 1 *)
Definition unsqueeze (k : nat) (t : Tensor) : result Tensor :=
  let s := shape t in
  if (k =? 0) || (length s + 1 <? k) then Err IndexError
  else Ok (mkTensor (drop_last (k - 1) s ++ 1 :: take_last (k - 1) s) (data t)).

(* t[..., inds] *)
Definition index_last (t : Tensor) (inds : list nat) : result Tensor :=
  match rev (shape t) with
  | [] => Err IndexError
  | k :: rb =>
      if forallb (fun i => i <? k) inds
      then Ok (tabulate (rev rb ++ [length inds])
                 (fun I => get t (removelast I ++ [nth (last I 0) inds 0])))
      else Err IndexError
  end.

(* t[..., c] *)
Definition select_last (t : Tensor) (c : nat) : result Tensor :=
  match rev (shape t) with
  | [] => Err IndexError
  | k :: rb =>
      if c <? k
      then Ok (tabulate (rev rb) (fun I => get t (I ++ [c])))
      else Err IndexError
  end.

Definition row (t : Tensor) (I : list nat) (k : nat) : list R :=
  map (fun c => get t (I ++ [c])) (seq 0 k).

Definition reduce_last (f : list R -> R) (keepdim : bool) (t : Tensor) : result Tensor :=
  match rev (shape t) with
  | [] => Err IndexError
  | k :: rb =>
      let s' := rev rb in
      Ok (tabulate (if keepdim then s' ++ [1] else s')
            (fun I => f (row t (firstn (length s') I) k)))
  end.

Definition Rprod (l : list R) : R := fold_right Rmult 1%R l.
Definition Rsum (l : list R) : R := fold_right Rplus 0%R l.
Definition Rmean (l : list R) : R := (Rsum l / INR (length l))%R.
Definition Rmaximum (l : list R) : R :=
  match l with [] => 0%R | x :: l' => fold_left Rmax l' x end.
Definition Rminimum (l : list R) : R :=
  match l with [] => 0%R | x :: l' => fold_left Rmin l' x end.

Definition prod_last (keepdim : bool) (t : Tensor) := reduce_last Rprod keepdim t.
Definition mean_last (t : Tensor) := reduce_last Rmean false t.

Definition extremum_last (f : list R -> R) (t : Tensor) : result Tensor :=
  match rev (shape t) with
  | 0 :: _ => Err RuntimeError
  | _ => reduce_last f false t
  end.
Definition max_last := extremum_last Rmaximum.
Definition min_last := extremum_last Rminimum.

(* torch.tensor(l) for a list of floats, and for a list of pairs *)
Definition tensor_of_list (l : list R) : Tensor := mkTensor [length l] l.

Definition tensor_of_pairs (l : list (R * R)) : Tensor :=
  match l with
  | [] => mkTensor [0] []
  | _ => mkTensor [length l; 2] (flat_map (fun p => [fst p; snd p]) l)
  end.

(* s[-1] = v on a Python list *)
Definition set_last (s : list nat) (v : nat) : result (list nat) :=
  match rev s with
  | [] => Err IndexError
  | _ :: r => Ok (rev r ++ [v])
  end.

Definition well_formed (t : Tensor) : Prop := length (data t) = numel (shape t).

(* ---------- index arithmetic ---------- *)

Lemma numel_app s1 s2 : numel (s1 ++ s2) = numel s1 * numel s2.
Proof. induction s1 as [|d s1 IH]; simpl; [lia | rewrite IH; lia]. Qed.

Lemma in_range_length I s : in_range I s -> length I = length s.
Proof. induction 1; simpl; congruence. Qed.

Lemma ravel_lt I s : in_range I s -> ravel s I < numel s.
Proof.
  induction 1 as [|i d I s Hid _ IH]; simpl; [lia | nia].
Qed.

Lemma unravel_ravel I s : in_range I s -> unravel s (ravel s I) = I.
Proof.
  induction 1 as [|i d I s Hid HI IH]; simpl; [reflexivity|].
  pose proof (ravel_lt _ _ HI) as Hlt.
  assert (Hn : numel s <> 0) by lia.
  rewrite Nat.div_add_l by exact Hn.
  rewrite (Nat.div_small _ _ Hlt), Nat.add_0_r.
  rewrite Nat.add_comm, Nat.Div0.mod_add, (Nat.mod_small _ _ Hlt), IH.
  reflexivity.
Qed.

Lemma unravel_in_range s k : k < numel s -> in_range (unravel s k) s.
Proof.
  revert k; induction s as [|d s IH]; intros k Hk; simpl in *; [constructor|].
  assert (Hn : numel s <> 0) by (intro E; rewrite E in Hk; lia).
  constructor.
  - apply Nat.Div0.div_lt_upper_bound. lia.
  - apply IH, Nat.mod_upper_bound, Hn.
Qed.

Lemma ravel_unravel s k : k < numel s -> ravel s (unravel s k) = k.
Proof.
  revert k; induction s as [|d s IH]; intros k Hk; simpl in *; [lia|].
  assert (Hn : numel s <> 0) by (intro E; rewrite E in Hk; lia).
  rewrite IH by (apply Nat.mod_upper_bound, Hn).
  pose proof (Nat.div_mod_eq k (numel s)). lia.
Qed.

Lemma ravel_app s1 s2 I1 I2 :
  length I1 = length s1 ->
  ravel (s1 ++ s2) (I1 ++ I2) = ravel s1 I1 * numel s2 + ravel s2 I2.
Proof.
  revert I1; induction s1 as [|d s1 IH]; intros [|i I1] H; simpl in *; try discriminate.
  - reflexivity.
  - rewrite IH by congruence. rewrite numel_app. lia.
Qed.

Lemma in_range_app I1 s1 I2 s2 :
  in_range I1 s1 -> in_range I2 s2 -> in_range (I1 ++ I2) (s1 ++ s2).
Proof. apply Forall2_app. Qed.

Lemma in_range_app_inv I s1 s2 :
  in_range I (s1 ++ s2) ->
  exists I1 I2, I = I1 ++ I2 /\ in_range I1 s1 /\ in_range I2 s2.
Proof.
  intro H. apply Forall2_app_inv_r in H as (I1 & I2 & H1 & H2 & ->).
  exists I1, I2; auto.
Qed.

Lemma in_range_rev I s : in_range I s -> in_range (rev I) (rev s).
Proof.
  induction 1; simpl; [constructor|].
  apply Forall2_app; [assumption | repeat constructor; assumption].
Qed.

Lemma in_range_rev_inv I s : in_range (rev I) (rev s) -> in_range I s.
Proof.
  intro H. apply in_range_rev in H. rewrite !rev_involutive in H. exact H.
Qed.

(* ---------- tabulate and get ---------- *)

Lemma tabulate_well_formed s f : well_formed (tabulate s f).
Proof. unfold well_formed; simpl. rewrite length_map, length_seq. reflexivity. Qed.

Lemma get_tabulate s f I : in_range I s -> get (tabulate s f) I = f I.
Proof.
  intro H. unfold get; simpl.
  pose proof (ravel_lt _ _ H) as Hlt.
  rewrite (nth_indep _ 0%R (f (unravel s 0))) by (rewrite length_map, length_seq; exact Hlt).
  rewrite (map_nth (fun k => f (unravel s k))).
  rewrite seq_nth by exact Hlt. simpl. rewrite unravel_ravel by exact H. reflexivity.
Qed.

Lemma get_tmap f t I :
  well_formed t -> in_range I (shape t) -> get (tmap f t) I = f (get t I).
Proof.
  intros Hw H. unfold get; simpl.
  pose proof (ravel_lt _ _ H) as Hlt.
  rewrite (nth_indep _ 0%R (f 0%R)) by (rewrite length_map, Hw; exact Hlt).
  apply map_nth.
Qed.


(* ---------- broadcasting ---------- *)

Lemma bdim_same d : bdim d d = Some d.
Proof. unfold bdim. rewrite Nat.eqb_refl. reflexivity. Qed.

Lemma bdim_cases d1 d2 d :
  bdim d1 d2 = Some d ->
  (d1 = d \/ d1 = 1) /\ (d2 = d \/ d2 = 1) /\ (d = d1 \/ d = d2).
Proof.
  unfold bdim.
  destruct (Nat.eqb_spec d1 d2); [intros [= <-]; subst; auto|].
  destruct (Nat.eqb_spec d1 1); [intros [= <-]; subst; auto|].
  destruct (Nat.eqb_spec d2 1); [intros [= <-]; subst; auto|].
  discriminate.
Qed.

Lemma bdim_absorb d1 d2 d : bdim d1 d2 = Some d -> bdim d d2 = Some d.
Proof.
  unfold bdim.
  destruct (Nat.eqb_spec d1 d2); [intros [= <-]; subst; rewrite Nat.eqb_refl; reflexivity|].
  destruct (Nat.eqb_spec d1 1); [intros [= <-]; subst; rewrite Nat.eqb_refl; reflexivity|].
  destruct (Nat.eqb_spec d2 1); [|discriminate].
  intros [= <-]. subst d2.
  destruct (Nat.eqb_spec d1 1); [contradiction|]. reflexivity.
Qed.

Lemma broadcast_rev_nil_r r : broadcast_rev r [] = Some r.
Proof. destruct r; reflexivity. Qed.

Lemma broadcast_rev_same r : broadcast_rev r r = Some r.
Proof. induction r as [|d r IH]; simpl; [reflexivity | rewrite bdim_same, IH; reflexivity]. Qed.

Lemma broadcast_rev_absorb r1 r2 r :
  broadcast_rev r1 r2 = Some r -> broadcast_rev r r2 = Some r.
Proof.
  revert r2 r; induction r1 as [|d1 r1 IH]; intros r2 r H; simpl in H.
  - injection H as <-. apply broadcast_rev_same.
  - destruct r2 as [|d2 r2].
    + injection H as <-. reflexivity.
    + destruct (bdim d1 d2) as [d|] eqn:Hd; [|discriminate].
      destruct (broadcast_rev r1 r2) as [r'|] eqn:Hr; [|discriminate].
      injection H as <-. simpl.
      rewrite (bdim_absorb _ _ _ Hd), (IH _ _ Hr). reflexivity.
Qed.

Lemma bidx_rev_same r J : Forall2 lt J r -> bidx_rev r J = J.
Proof.
  induction 1 as [|j d J r Hjd _ IH]; simpl; [reflexivity|].
  rewrite IH. destruct (Nat.eqb_spec d 1); [f_equal; lia | reflexivity].
Qed.

Lemma bidx_rev_in_range r1 r2 r J :
  broadcast_rev r1 r2 = Some r -> Forall2 lt J r ->
  Forall2 lt (bidx_rev r1 J) r1 /\ Forall2 lt (bidx_rev r2 J) r2.
Proof.
  revert r2 r J; induction r1 as [|d1 r1 IH]; intros r2 r J H HJ; simpl in H.
  - injection H as <-. split; [destruct J; constructor|].
    rewrite bidx_rev_same by exact HJ. exact HJ.
  - destruct r2 as [|d2 r2].
    + injection H as <-. split; [|destruct J; constructor].
      rewrite bidx_rev_same by exact HJ. exact HJ.
    + destruct (bdim d1 d2) as [d|] eqn:Hd; [|discriminate].
      destruct (broadcast_rev r1 r2) as [r'|] eqn:Hr; [|discriminate].
      injection H as <-. inversion HJ as [|j d' J' r'' Hj HJ']; subst. simpl.
      destruct (IH _ _ _ Hr HJ') as [H1 H2].
      apply bdim_cases in Hd as (Ha & Hb & _).
      split; constructor; auto.
      * destruct (Nat.eqb_spec d1 1); lia.
      * destruct (Nat.eqb_spec d2 1); lia.
Qed.

Lemma broadcast_shapes_same s : broadcast_shapes s s = Some s.
Proof.
  unfold broadcast_shapes. rewrite broadcast_rev_same. simpl.
  rewrite rev_involutive. reflexivity.
Qed.

Lemma broadcast_shapes_nil_l s : broadcast_shapes [] s = Some s.
Proof. unfold broadcast_shapes. simpl. rewrite rev_involutive. reflexivity. Qed.

Lemma broadcast_shapes_absorb s1 s2 s :
  broadcast_shapes s1 s2 = Some s -> broadcast_shapes s s2 = Some s.
Proof.
  unfold broadcast_shapes.
  destruct (broadcast_rev (rev s1) (rev s2)) as [r|] eqn:H; [|discriminate].
  intros [= <-]. rewrite rev_involutive, (broadcast_rev_absorb _ _ _ H). reflexivity.
Qed.

Lemma bidx_same s I : in_range I s -> bidx s I = I.
Proof.
  intro H. unfold bidx. rewrite bidx_rev_same by (apply in_range_rev, H).
  apply rev_involutive.
Qed.

Lemma bidx_nil I : bidx [] I = [].
Proof. reflexivity. Qed.

Lemma bidx_in_range s1 s2 s I :
  broadcast_shapes s1 s2 = Some s -> in_range I s ->
  in_range (bidx s1 I) s1 /\ in_range (bidx s2 I) s2.
Proof.
  unfold broadcast_shapes.
  destruct (broadcast_rev (rev s1) (rev s2)) as [r|] eqn:H; [|discriminate].
  intros [= <-] HI. apply in_range_rev in HI. rewrite rev_involutive in HI.
  destruct (bidx_rev_in_range _ _ _ _ H HI) as [H1 H2].
  split; apply in_range_rev_inv; unfold bidx; rewrite rev_involutive; assumption.
Qed.

(* trailing dimensions *)
Lemma broadcast_shapes_suffix bs s :
  broadcast_shapes s (bs ++ s) = Some (bs ++ s).
Proof.
  unfold broadcast_shapes. rewrite rev_app_distr.
  assert (H : forall r r', broadcast_rev r (r ++ r') = Some (r ++ r')).
  { induction r as [|d r IH]; intro r'; simpl; [reflexivity|].
    rewrite bdim_same, IH. reflexivity. }
  rewrite H. simpl. rewrite <- rev_app_distr, rev_involutive. reflexivity.
Qed.

Lemma bidx_suffix s I J : in_range J s -> bidx s (I ++ J) = J.
Proof.
  intros HJ. unfold bidx. rewrite rev_app_distr.
  assert (H : forall r K K', Forall2 lt K r -> bidx_rev r (K ++ K') = K).
  { intros r K K' HK; induction HK as [|j d K r' Hjd _ IH]; simpl.
    - destruct K'; reflexivity.
    - rewrite IH. destruct (Nat.eqb_spec d 1); [f_equal; lia | reflexivity]. }
  rewrite H by (apply in_range_rev, HJ). apply rev_involutive.
Qed.

(* ---------- representation of a tensor by its entries ---------- *)

Definition represents (t : Tensor) (s : list nat) (f : list nat -> R) : Prop :=
  shape t = s /\ well_formed t /\ forall I, in_range I s -> get t I = f I.

Lemma represents_self t : well_formed t -> represents t (shape t) (get t).
Proof. intro H; repeat split; auto. Qed.

Lemma represents_ext t s f g :
  represents t s f -> (forall I, in_range I s -> f I = g I) -> represents t s g.
Proof.
  intros (Hs & Hw & Hg) Hfg. repeat split; auto.
  intros I HI. rewrite Hg by exact HI. apply Hfg, HI.
Qed.

Lemma represents_tabulate s f : represents (tabulate s f) s f.
Proof.
  repeat split; [apply tabulate_well_formed | intros; apply get_tabulate; assumption].
Qed.

Lemma represents_tmap g t s f :
  represents t s f -> represents (tmap g t) s (fun I => g (f I)).
Proof.
  intros (Hs & Hw & Hg). repeat split.
  - exact Hs.
  - unfold well_formed in *; simpl. rewrite length_map. exact Hw.
  - intros I HI. rewrite get_tmap by (rewrite ?Hs; assumption).
    rewrite Hg by exact HI. reflexivity.
Qed.

Lemma represents_scalar c : represents (scalar c) [] (fun _ => c).
Proof.
  repeat split.
Qed.

Lemma represents_bop g a b sa sb s fa fb :
  represents a sa fa -> represents b sb fb ->
  broadcast_shapes sa sb = Some s ->
  exists t, bop g a b = Ok t /\
            represents t s (fun I => g (fa (bidx sa I)) (fb (bidx sb I))).
Proof.
  intros (Hsa & Hwa & Hga) (Hsb & Hwb & Hgb) Hbs.
  unfold bop. rewrite Hsa, Hsb, Hbs. eexists; split; [reflexivity|].
  eapply represents_ext; [apply represents_tabulate|].
  intros I HI. destruct (bidx_in_range _ _ _ _ Hbs HI) as [H1 H2].
  rewrite Hga, Hgb by assumption. reflexivity.
Qed.

Lemma represents_bop_same g a b s fa fb :
  represents a s fa -> represents b s fb ->
  exists t, bop g a b = Ok t /\ represents t s (fun I => g (fa I) (fb I)).
Proof.
  intros Ha Hb.
  destruct (represents_bop g _ _ _ _ _ _ _ Ha Hb (broadcast_shapes_same s)) as (t & Ht & Hr).
  exists t; split; [exact Ht|].
  eapply represents_ext; [exact Hr|].
  intros I HI; simpl. rewrite (bidx_same _ _ HI). reflexivity.
Qed.

Lemma represents_expand a sa fa s :
  represents a sa fa -> broadcast_shapes sa s = Some s ->
  exists t, expand a s = Ok t /\ represents t s (fun I => fa (bidx sa I)).
Proof.
  intros (Hsa & Hwa & Hga) Hbs. unfold expand. rewrite Hsa, Hbs.
  destruct (list_eq_dec Nat.eq_dec s s) as [_ | N]; [|contradiction].
  eexists; split; [reflexivity|].
  eapply represents_ext; [apply represents_tabulate|].
  intros I HI. destruct (bidx_in_range _ _ _ _ Hbs HI) as [H1 _].
  apply Hga, H1.
Qed.

Lemma represents_view_drop2 t bs f :
  represents t (bs ++ [1; 1]) f ->
  exists t', view t bs = Ok t' /\ represents t' bs (fun I => f (I ++ [0; 0])).
Proof.
  intros (Hs & Hw & Hg). unfold view. rewrite Hs.
  replace (numel (bs ++ [1; 1])) with (numel bs) by (rewrite numel_app; simpl; lia).
  rewrite Nat.eqb_refl. eexists; split; [reflexivity|].
  repeat split.
  - unfold well_formed in *; simpl. rewrite Hw, Hs, numel_app; simpl; lia.
  - intros I HI. rewrite <- Hg.
    + unfold get; simpl. rewrite Hs.
      rewrite ravel_app by (apply in_range_length, HI). simpl.
      f_equal. lia.
    + apply in_range_app; [exact HI | repeat constructor].
Qed.

Lemma represents_squeeze1 t bs f :
  represents t (bs ++ [1]) f ->
  exists t', squeeze 1 t = Ok t' /\ represents t' bs (fun I => f (I ++ [0])).
Proof.
  intros (Hs & Hw & Hg). unfold squeeze, take_last, drop_last. rewrite Hs.
  rewrite length_app; simpl.
  replace (length bs + 1 - 1) with (length bs) by lia.
  destruct (Nat.ltb_spec (length bs + 1) 1); [lia|].
  rewrite skipn_app, Nat.sub_diag, skipn_all, firstn_app, Nat.sub_diag, firstn_all.
  simpl. rewrite !app_nil_r. eexists; split; [reflexivity|].
  repeat split.
  - unfold well_formed in *; simpl. rewrite Hw, Hs, numel_app; simpl; lia.
  - intros I HI. rewrite <- Hg.
    + unfold get; simpl. rewrite Hs.
      rewrite ravel_app by (apply in_range_length, HI). simpl.
      f_equal. lia.
    + apply in_range_app; [exact HI | repeat constructor].
Qed.

Lemma represents_squeeze2 t bs k f :
  represents t (bs ++ [1; k]) f ->
  exists t', squeeze 2 t = Ok t' /\
             represents t' (bs ++ [k]) (fun I => f (removelast I ++ [0; last I 0])).
Proof.
  intros (Hs & Hw & Hg). unfold squeeze, take_last, drop_last. rewrite Hs.
  rewrite length_app; simpl.
  replace (length bs + 2 - 2) with (length bs) by lia.
  destruct (Nat.ltb_spec (length bs + 2) 2); [lia|].
  rewrite skipn_app, Nat.sub_diag, skipn_all, firstn_app, Nat.sub_diag, firstn_all.
  simpl. rewrite !app_nil_r. eexists; split; [reflexivity|].
  repeat split.
  - unfold well_formed in *; simpl. rewrite Hw, Hs, !numel_app; simpl; lia.
  - intros I HI. apply in_range_app_inv in HI as (I1 & I2 & -> & H1 & H2).
    inversion H2 as [|c k' I2' s' Hc Hnil]; subst. inversion Hnil; subst.
    rewrite removelast_last, last_last. rewrite <- Hg.
    + unfold get; simpl. rewrite Hs.
      rewrite !ravel_app by (apply in_range_length, H1). simpl.
      f_equal. lia.
    + apply in_range_app; [exact H1 | repeat constructor; assumption].
Qed.

Lemma in_range_snoc_inv K bs k :
  in_range K (bs ++ [k]) ->
  exists I c, K = I ++ [c] /\ in_range I bs /\ c < k.
Proof.
  intro H. apply in_range_app_inv in H as (I & J & -> & HI & HJ).
  inversion HJ as [|c k' J' s' Hc Hnil]; subst. inversion Hnil; subst.
  exists I, c; auto.
Qed.

Lemma in_range_snoc I bs c k :
  in_range I bs -> c < k -> in_range (I ++ [c]) (bs ++ [k]).
Proof. intros; apply in_range_app; [assumption | repeat constructor; assumption]. Qed.

Lemma firstn_in_range_app I J bs : in_range I bs -> firstn (length bs) (I ++ J) = I.
Proof.
  intro H. rewrite <- (in_range_length _ _ H), firstn_app, Nat.sub_diag, firstn_all.
  simpl. apply app_nil_r.
Qed.

Lemma represents_index_last t bs k f inds :
  represents t (bs ++ [k]) f -> Forall (fun i => i < k) inds ->
  exists t', index_last t inds = Ok t' /\
             represents t' (bs ++ [length inds])
               (fun K => f (removelast K ++ [nth (last K 0) inds 0])).
Proof.
  intros (Hs & Hw & Hg) Hin. unfold index_last. rewrite Hs, rev_app_distr; simpl.
  assert (Hb : forallb (fun i => i <? k) inds = true).
  { apply forallb_forall. intros i Hi. apply Nat.ltb_lt.
    rewrite Forall_forall in Hin. apply Hin, Hi. }
  rewrite Hb, rev_involutive. eexists; split; [reflexivity|].
  eapply represents_ext; [apply represents_tabulate|].
  intros K HK. apply in_range_snoc_inv in HK as (I & c & -> & HI & Hc).
  rewrite removelast_last, last_last. apply Hg, in_range_snoc; [exact HI|].
  rewrite Forall_forall in Hin. apply Hin, nth_In, Hc.
Qed.

Lemma represents_select_last t bs k f c :
  represents t (bs ++ [k]) f -> c < k ->
  exists t', select_last t c = Ok t' /\ represents t' bs (fun I => f (I ++ [c])).
Proof.
  intros (Hs & Hw & Hg) Hc. unfold select_last. rewrite Hs, rev_app_distr; simpl.
  destruct (Nat.ltb_spec c k); [|lia].
  rewrite rev_involutive. eexists; split; [reflexivity|].
  eapply represents_ext; [apply represents_tabulate|].
  intros I HI. apply Hg, in_range_snoc; assumption.
Qed.

Lemma row_represents t bs k f I :
  represents t (bs ++ [k]) f -> in_range I bs ->
  row t I k = map (fun c => f (I ++ [c])) (seq 0 k).
Proof.
  intros (Hs & Hw & Hg) HI. unfold row. apply map_ext_in.
  intros c Hc. apply in_seq in Hc. apply Hg, in_range_snoc; [exact HI | lia].
Qed.

Lemma represents_reduce_last g keepdim t bs k f :
  represents t (bs ++ [k]) f ->
  exists t', reduce_last g keepdim t = Ok t' /\
             represents t' (if keepdim then bs ++ [1] else bs)
               (fun K => g (map (fun c => f (firstn (length bs) K ++ [c])) (seq 0 k))).
Proof.
  intros Hr. pose proof Hr as (Hs & Hw & Hg).
  unfold reduce_last. rewrite Hs, rev_app_distr; simpl.
  rewrite rev_involutive. eexists; split; [reflexivity|].
  eapply represents_ext; [apply represents_tabulate|].
  intros K HK. simpl. f_equal. apply (row_represents _ _ _ _ _ Hr).
  destruct keepdim.
  - apply in_range_snoc_inv in HK as (I & c & -> & HI & Hc).
    rewrite firstn_in_range_app by exact HI. exact HI.
  - rewrite <- (in_range_length _ _ HK), firstn_all. exact HK.
Qed.

Lemma represents_extremum_last g t bs k f :
  represents t (bs ++ [k]) f -> k <> 0 ->
  exists t', extremum_last g t = Ok t' /\
             represents t' bs
               (fun K => g (map (fun c => f (K ++ [c])) (seq 0 k))).
Proof.
  intros Hr Hk. pose proof Hr as (Hs & Hw & Hg).
  destruct (represents_reduce_last g false _ _ _ _ Hr) as (t' & Ht' & Hr').
  exists t'. split.
  - unfold extremum_last. rewrite Hs, rev_app_distr; simpl.
    destruct k; [contradiction | exact Ht'].
  - eapply represents_ext; [exact Hr'|].
    intros K HK; simpl. rewrite <- (in_range_length _ _ HK), firstn_all. reflexivity.
Qed.

(* ---------- more on shapes ---------- *)

Lemma take_last_app (l1 l2 : list nat) : take_last (length l2) (l1 ++ l2) = l2.
Proof.
  unfold take_last. rewrite length_app.
  replace (length l1 + length l2 - length l2) with (length l1) by lia.
  rewrite skipn_app, Nat.sub_diag, skipn_all. reflexivity.
Qed.

Lemma drop_last_app (l1 l2 : list nat) : drop_last (length l2) (l1 ++ l2) = l1.
Proof.
  unfold drop_last. rewrite length_app.
  replace (length l1 + length l2 - length l2) with (length l1) by lia.
  rewrite firstn_app, Nat.sub_diag, firstn_all. simpl. apply app_nil_r.
Qed.

Lemma take_last2_app (l : list nat) a b : take_last 2 (l ++ [a; b]) = [a; b].
Proof. exact (take_last_app l [a; b]). Qed.

Lemma drop_last2_app (l : list nat) a b : drop_last 2 (l ++ [a; b]) = l.
Proof. exact (drop_last_app l [a; b]). Qed.

Lemma represents_full s c : represents (full s c) s (fun _ => c).
Proof. apply represents_tabulate. Qed.


Lemma bdim_comm d1 d2 : bdim d1 d2 = bdim d2 d1.
Proof.
  unfold bdim.
  destruct (Nat.eqb_spec d1 d2), (Nat.eqb_spec d2 d1); try congruence;
  destruct (Nat.eqb_spec d1 1), (Nat.eqb_spec d2 1); congruence.
Qed.

Lemma broadcast_rev_comm r1 r2 : broadcast_rev r1 r2 = broadcast_rev r2 r1.
Proof.
  revert r2; induction r1 as [|d1 r1 IH]; intros [|d2 r2]; simpl; try reflexivity.
  rewrite bdim_comm, IH. reflexivity.
Qed.

Lemma broadcast_shapes_comm s1 s2 : broadcast_shapes s1 s2 = broadcast_shapes s2 s1.
Proof. unfold broadcast_shapes. rewrite broadcast_rev_comm. reflexivity. Qed.

Lemma broadcast_shapes_trailing_one s1 s2 s :
  broadcast_shapes (s1 ++ [1]) (s2 ++ [1]) = Some s ->
  exists s', s = s' ++ [1].
Proof.
  unfold broadcast_shapes. rewrite !rev_app_distr. simpl.
  destruct (broadcast_rev (rev s1) (rev s2)) as [r|]; [|discriminate].
  simpl. intros [= <-]. exists (rev r). reflexivity.
Qed.

Lemma represents_tensor_of_list l :
  represents (tensor_of_list l) [length l] (fun I => nth (hd 0 I) l 0%R).
Proof.
  split; [reflexivity | split].
  - unfold well_formed; simpl. lia.
  - intros I HI. inversion HI as [|c k I' s' Hc Hnil]; subst. inversion Hnil; subst.
    unfold get; simpl. f_equal. lia.
Qed.

Lemma nth_flat_pairs (l : list (R * R)) i :
  nth (i * 2) (flat_map (fun p => [fst p; snd p]) l) 0%R = fst (nth i l (0%R, 0%R)) /\
  nth (i * 2 + 1) (flat_map (fun p => [fst p; snd p]) l) 0%R = snd (nth i l (0%R, 0%R)).
Proof.
  revert i; induction l as [|p l IH]; intros [|i]; simpl; auto.
Qed.

Lemma represents_tensor_of_pairs l :
  l <> [] ->
  represents (tensor_of_pairs l) [length l; 2]
    (fun I => match I with
              | [i; 0] => fst (nth i l (0%R, 0%R))
              | [i; _] => snd (nth i l (0%R, 0%R))
              | _ => 0%R
              end).
Proof.
  intro Hne. destruct l as [|p0 l0]; [contradiction|].
  change (tensor_of_pairs (p0 :: l0))
    with (mkTensor [length (p0 :: l0); 2]
            (flat_map (fun p => [fst p; snd p]) (p0 :: l0))).
  clear Hne. generalize (p0 :: l0) as l. clear p0 l0. intro l.
  split; [reflexivity | split].
  - unfold well_formed; simpl.
    assert (H : forall l' : list (R * R),
               length (flat_map (fun p => [fst p; snd p]) l') = length l' * 2).
    { induction l' as [|q l' IH]; simpl; [reflexivity | rewrite IH; lia]. }
    rewrite H. lia.
  - intros I HI. inversion HI as [|i k I' s' Hi HI']; subst.
    inversion HI' as [|c k I'' s'' Hc Hnil]; subst. inversion Hnil; subst.
    unfold get. cbn [shape data ravel numel fold_right].
    destruct (nth_flat_pairs l i) as [H0 H1].
    destruct c as [|[|c]]; [| |lia].
    + replace (i * (2 * 1) + (0 * 1 + 0)) with (i * 2) by lia. exact H0.
    + replace (i * (2 * 1) + (1 * 1 + 0)) with (i * 2 + 1) by lia. exact H1.
Qed.

Lemma map_seq_nth {A B : Type} (g : A -> B) (l : list A) (d : A) :
  map (fun c => g (nth c l d)) (seq 0 (length l)) = map g l.
Proof.
  induction l as [|a l IH]; simpl; [reflexivity|].
  rewrite <- seq_shift, map_map. simpl. rewrite IH. reflexivity.
Qed.


(* a one-dimensional batch: (n, 1, 1) against (n, 1) *)
Lemma broadcast_batch_1d n :
  broadcast_shapes ([n] ++ [1; 1]) ([n] ++ [1]) = Some [n; n; 1].
Proof.
  assert (H : bdim 1 n = Some n).
  { unfold bdim. destruct (Nat.eqb_spec 1 n) as [<- | _]; reflexivity. }
  unfold broadcast_shapes; simpl. rewrite H. reflexivity.
Qed.

Lemma set_last_snoc (s : list nat) (a v : nat) :
  set_last (s ++ [a]) v = Ok (s ++ [v]).
Proof.
  unfold set_last. rewrite rev_app_distr. simpl. rewrite rev_involutive. reflexivity.
Qed.




End Torch.

Import Torch.
Import Gaussian.

(** * torch.distributions.Normal *)

Module Normal.

Open Scope R_scope.

Record t : Type := mk { loc : Tensor; scale : Tensor }.

(** [cdf]: torch evaluates
    [0.5 * (1 + erf((value - loc) * scale.reciprocal() / sqrt 2))], the
    distribution function of N(0,1) at the standardised value. *)
Definition cdf (N : t) (value : Tensor) : result Tensor :=
  d <- bop Rminus value (loc N) ;;
  z <- bop Rdiv d (scale N) ;;
  Ok (tmap std_normal_cdf z).

(** [log_prob]:
    [-((value - loc) ** 2) / (2 * scale ** 2) - scale.log() - log(sqrt(2 * pi))]. *)
Definition log_prob (N : t) (value : Tensor) : result Tensor :=
  d <- bop Rminus value (loc N) ;;
  q <- bop Rdiv (tmap (fun x => - (x * x)) d) (tmap (fun s => 2 * (s * s)) (scale N)) ;;
  r <- bop Rminus q (tmap ln (scale N)) ;;
  Ok (tmap (fun x => x - ln (sqrt (2 * PI))) r).

End Normal.

(** * Posteriors and models *)

(** A posterior exposes [mean] and [variance]; its [event_shape] is the
    shape of the mean (batch x q x t). *)
Record Posterior : Type := mkPosterior { mean : Tensor; variance : Tensor }.

Definition event_shape (p : Posterior) : list nat := shape (mean p).

(** The surrogate model is a black box: [posterior(X)]. *)
Record Model : Type := mkModel { posterior : Tensor -> Posterior }.

(** A [ScalarizedObjective] maps a posterior to a posterior. *)
Definition ScalarizedObjective : Type := Posterior -> Posterior.

Definition clamp_min (c : R) (t : Tensor) : Tensor := tmap (fun x => Rmax x c) t.
Definition tsqrt (t : Tensor) : Tensor := tmap sqrt t.
Definition texp (t : Tensor) : Tensor := tmap exp t.
Definition tneg (t : Tensor) : Tensor := tmap Ropp t.
Definition zeros_like (t : Tensor) : Tensor := zeros (shape t).
Definition ones_like (t : Tensor) : Tensor := ones (shape t).
Definition full_like (t : Tensor) (c : R) : Tensor := full (shape t) c.

(** Modelled from the spec: the decorator [t_batch_mode_transform] of
    botorch/utils/transforms.py is not among the sources.  The
    specification fixes what it enforces: the candidate tensor is
    [batch x q x d] and a [q] other than the expected one is a shape error
    raised before the method runs; [X] reaches the method as it is. *)
Definition t_batch_mode_transform (expected_q : nat)
    (method : Tensor -> result Tensor) (X : Tensor) : result Tensor :=
  match take_last 2 (shape X) with
  | [q; _] => if (q =? expected_q)%nat then method X else Err ShapeError
  | _ => Err ShapeError
  end.

(** * AnalyticAcquisitionFunction *)

Module AnalyticAcquisitionFunction.

(** [_get_posterior]: the model's posterior at [X], transformed by the
    objective if there is one; with [check_single_output] a trailing output
    dimension other than 1 is refused. *)
Definition _get_posterior (model : Model) (objective : option ScalarizedObjective)
    (X : Tensor) (check_single_output : bool) : result Posterior :=
  let posterior := posterior model X in
  let posterior :=
    match objective with
    | Some obj => obj posterior
    | None => posterior
    end in
  if check_single_output then
    match rev (event_shape posterior) with
    | [] => Err IndexError
    | t :: _ => if (t =? 1)%nat then Ok posterior else Err UnsupportedError
    end
  else Ok posterior.

(** [set_X_pending] always raises. *)
Definition set_X_pending (X_pending : option Tensor) : result unit :=
  Err UnsupportedError.

End AnalyticAcquisitionFunction.

Import AnalyticAcquisitionFunction.

(** * ExpectedImprovement *)

Module ExpectedImprovement.

Record t : Type := mk {
  model : Model;
  objective : option ScalarizedObjective;
  maximize : bool;
  best_f : Tensor
}.

Definition __init__ (model : Model) (best_f : Tensor)
    (objective : option ScalarizedObjective) (maximize : bool) : result t :=
  Ok (mk model objective maximize best_f).

Definition forward (self : t) : Tensor -> result Tensor :=
  t_batch_mode_transform 1 (fun X =>
    posterior <- _get_posterior (model self) (objective self) X true ;;
    let mean := mean posterior in
    let view_shape :=
      if (dim X <=? dim mean)%nat then drop_last 2 (shape mean)
      else drop_last 2 (shape X) in
    mean <- view mean view_shape ;;
    sigma <- view (tsqrt (clamp_min 1e-9 (variance posterior))) view_shape ;;
    bf <- expand_as (best_f self) mean ;;
    d <- bop Rminus mean bf ;;
    u <- bop Rdiv d sigma ;;
    let u := if negb (maximize self) then tneg u else u in
    let normal := Normal.mk (zeros_like u) (ones_like u) in
    ucdf <- Normal.cdf normal u ;;
    lp <- Normal.log_prob normal u ;;
    let updf := texp lp in
    uc <- bop Rmult u ucdf ;;
    s <- bop Rplus updf uc ;;
    bop Rmult sigma s).

End ExpectedImprovement.

(** * PosteriorMean *)

Module PosteriorMean.

Record t : Type := mk {
  model : Model;
  objective : option ScalarizedObjective
}.

Definition forward (self : t) : Tensor -> result Tensor :=
  t_batch_mode_transform 1 (fun X =>
    posterior <- _get_posterior (model self) (objective self) X true ;;
    view (mean posterior) (drop_last 2 (shape X))).

End PosteriorMean.

(** * ProbabilityOfImprovement *)

Module ProbabilityOfImprovement.

Record t : Type := mk {
  model : Model;
  objective : option ScalarizedObjective;
  maximize : bool;
  best_f : Tensor
}.

Definition forward (self : t) : Tensor -> result Tensor :=
  t_batch_mode_transform 1 (fun X =>
    posterior <- _get_posterior (model self) (objective self) X true ;;
    let batch_shape := drop_last 2 (shape X) in
    mean <- view (mean posterior) batch_shape ;;
    sigma <- view (clamp_min 1e-9 (tsqrt (variance posterior))) batch_shape ;;
    bf <- expand_as (best_f self) mean ;;
    d <- bop Rminus mean bf ;;
    u <- bop Rdiv d sigma ;;
    let u := if negb (maximize self) then tneg u else u in
    let normal := Normal.mk (zeros_like u) (ones_like u) in
    Normal.cdf normal u).

End ProbabilityOfImprovement.

(** * UpperConfidenceBound *)

Module UpperConfidenceBound.

Record t : Type := mk {
  model : Model;
  objective : option ScalarizedObjective;
  maximize : bool;
  beta : Tensor
}.

Definition forward (self : t) : Tensor -> result Tensor :=
  t_batch_mode_transform 1 (fun X =>
    posterior <- _get_posterior (model self) (objective self) X true ;;
    let batch_shape := drop_last 2 (shape X) in
    mean <- view (mean posterior) batch_shape ;;
    variance <- view (variance posterior) batch_shape ;;
    b <- expand_as (beta self) mean ;;
    bv <- bop Rmult b variance ;;
    let delta := tsqrt bv in
    if maximize self then bop Rplus mean delta
    else bop Rminus mean delta).

End UpperConfidenceBound.

(** * ConstrainedExpectedImprovement *)

Module ConstrainedExpectedImprovement.

(** The [constraints] dictionary, in insertion order: output index to
    (lower, upper), [None] standing for an absent bound.  Output indices
    are positions, hence natural numbers. *)
Definition Constraints : Type := list (nat * (option R * option R)).

Definition keys (constraints : Constraints) : list nat := map fst constraints.

Fixpoint dict_get (constraints : Constraints) (k : nat)
    : option (option R * option R) :=
  match constraints with
  | [] => None
  | (k', v) :: rest => if (k' =? k)%nat then Some v else dict_get rest k
  end.

(** What [_preprocess_constraint_bounds] collects before it registers the
    three buffers. *)
Record Bounds : Type := mkBounds {
  both_inds : list nat;  both : list (R * R);
  lower_inds : list nat; lower : list R;
  upper_inds : list nat; upper : list R
}.

Definition no_bounds : Bounds := mkBounds [] [] [] [] [] [].

(** The [for k in constraint_indices] loop. *)
Fixpoint collect_bounds (constraints : Constraints) (ks : list nat) (b : Bounds)
    : result Bounds :=
  match ks with
  | [] => Ok b
  | k :: ks' =>
      match dict_get constraints k with
      | None => Err KeyError
      | Some (Some lo, Some up) =>
          if Rle_dec up lo then Err ValueError
          else collect_bounds constraints ks'
                 (mkBounds (both_inds b ++ [k]) (both b ++ [(lo, up)])
                    (lower_inds b) (lower b) (upper_inds b) (upper b))
      | Some (Some lo, None) =>
          collect_bounds constraints ks'
            (mkBounds (both_inds b) (both b)
               (lower_inds b ++ [k]) (lower b ++ [lo]) (upper_inds b) (upper b))
      | Some (None, Some up) =>
          collect_bounds constraints ks'
            (mkBounds (both_inds b) (both b)
               (lower_inds b) (lower b) (upper_inds b ++ [k]) (upper b ++ [up]))
      | Some (None, None) => collect_bounds constraints ks' b
      end
  end.

Definition _preprocess_constraint_bounds (objective_index : nat)
    (constraints : Constraints) : result Bounds :=
  let constraint_indices := keys constraints in
  if (length constraint_indices =? 0)%nat then Err ValueError
  else if existsb (Nat.eqb objective_index) constraint_indices then Err ValueError
  else collect_bounds constraints constraint_indices no_bounds.

Record t : Type := mk {
  model : Model;
  maximize : bool;
  objective_index : nat;
  constraints : Constraints;
  best_f : Tensor;
  constraint_lower_inds : list nat;
  constraint_upper_inds : list nat;
  constraint_both_inds : list nat;
  constraint_both : Tensor;
  constraint_lower : Tensor;
  constraint_upper : Tensor
}.

(** [torch.tensor(bounds, dtype=torch.float)]: the three buffers are
    single-precision tensors whatever the precision of the bounds in the
    dictionary, so every bound is stored rounded to single precision.  The
    rounding is torch's; [float32] stands for it. *)
Definition float_tensor (float32 : R -> R) (l : list R) : Tensor :=
  tensor_of_list (map float32 l).

Definition float_tensor_of_pairs (float32 : R -> R) (l : list (R * R)) : Tensor :=
  tensor_of_pairs (map (fun p => (float32 (fst p), float32 (snd p))) l).

Definition __init__ (float32 : R -> R) (model : Model) (best_f : Tensor)
    (objective_index : nat) (constraints : Constraints) (maximize : bool)
    : result t :=
  b <- _preprocess_constraint_bounds objective_index constraints ;;
  Ok (mk model maximize objective_index constraints best_f
        (lower_inds b) (upper_inds b) (both_inds b)
        (float_tensor_of_pairs float32 (both b))
        (float_tensor float32 (lower b))
        (float_tensor float32 (upper b))).

Definition _construct_dist (means sigmas : Tensor) (inds : list nat)
    : result Normal.t :=
  mean <- index_last means inds ;;
  sigma <- index_last sigmas inds ;;
  Ok (Normal.mk mean sigma).

Definition _compute_prob_feas (self : t) (X means sigmas : Tensor)
    : result Tensor :=
  output_shape <- set_last (shape X) 1 ;;
  let prob_feas := ones output_shape in
  prob_feas <-
    (if (0 <? length (constraint_lower_inds self))%nat then
       normal_lower <- _construct_dist means sigmas (constraint_lower_inds self) ;;
       c <- Normal.cdf normal_lower (constraint_lower self) ;;
       let prob_l := tmap (fun x => (1 - x)%R) c in
       p <- prod_last true prob_l ;;
       bop Rmult prob_feas p
     else Ok prob_feas) ;;
  prob_feas <-
    (if (0 <? length (constraint_upper_inds self))%nat then
       normal_upper <- _construct_dist means sigmas (constraint_upper_inds self) ;;
       prob_u <- Normal.cdf normal_upper (constraint_upper self) ;;
       p <- prod_last true prob_u ;;
       bop Rmult prob_feas p
     else Ok prob_feas) ;;
  (if (0 <? length (constraint_both_inds self))%nat then
     normal_both <- _construct_dist means sigmas (constraint_both_inds self) ;;
     up <- select_last (constraint_both self) 1 ;;
     prob_u <- Normal.cdf normal_both up ;;
     lo <- select_last (constraint_both self) 0 ;;
     prob_l <- Normal.cdf normal_both lo ;;
     diff <- bop Rminus prob_u prob_l ;;
     p <- prod_last true diff ;;
     bop Rmult prob_feas p
   else Ok prob_feas).

(** Lines 367-378 of [forward]: the Expected Improvement of the objective
    marginal, kept as [batch x 1]. *)
Definition objective_ei (self : t) (means sigmas : Tensor) : result Tensor :=
  mean_obj <- index_last means [objective_index self] ;;
  sigma_obj <- index_last sigmas [objective_index self] ;;
  bf <- expand_as (best_f self) mean_obj ;;
  d <- bop Rminus mean_obj bf ;;
  u <- bop Rdiv d sigma_obj ;;
  let u := if negb (maximize self) then tneg u else u in
  let normal := Normal.mk (zeros [1%nat]) (ones [1%nat]) in
  lp <- Normal.log_prob normal u ;;
  let ei_pdf := texp lp in
  ei_cdf <- Normal.cdf normal u ;;
  uc <- bop Rmult u ei_cdf ;;
  s <- bop Rplus ei_pdf uc ;;
  bop Rmult sigma_obj s.

Definition forward (self : t) : Tensor -> result Tensor :=
  t_batch_mode_transform 1 (fun X =>
    posterior <- _get_posterior (model self) None X false ;;
    means <- squeeze 2 (mean posterior) ;;
    v <- squeeze 2 (variance posterior) ;;
    let sigmas := clamp_min 1e-9 (tsqrt v) in
    ei <- objective_ei self means sigmas ;;
    prob_feas <- _compute_prob_feas self X means sigmas ;;
    ei <- bop Rmult ei prob_feas ;;
    squeeze 1 ei).

End ConstrainedExpectedImprovement.

(** * NoisyExpectedImprovement *)

Module NoisyExpectedImprovement.

Section Surrogate.

(** The Gaussian-process surrogate is outside the sources.  [Hyper] is the
    hyperparameter state ([state_dict]); a [FixedNoiseGP] is its training
    inputs, training targets, fixed observation noise and hyperparameters;
    [gp_posterior] is the regression it performs; [default_hyper] is the
    state of a freshly constructed model; [draw n p] are the [n]
    quasi-random samples the sampling engine draws from the posterior [p]. *)
Variable Hyper : Type.

Record FixedNoiseGP : Type := mkGP {
  train_inputs : Tensor;
  train_targets : Tensor;
  noise : Tensor;
  state_dict : Hyper
}.

Variable gp_posterior : FixedNoiseGP -> Tensor -> Posterior.
Variable default_hyper : Hyper.
Variable draw : nat -> Posterior -> Tensor.

(** Modelled from the spec: [SobolQMCNormalSampler] of botorch/sampling is
    not among the sources.  The specification treats the sampling engine
    as a black box producing [num_samples] quasi-random normal samples from
    a posterior, and a fantasy count of 0 or less as rejected; the
    constructor of [NoisyExpectedImprovement] has no check of its own, so
    the rejection is the engine's ([ValueError]). *)
Definition SobolQMCNormalSampler (num_samples : Z) (posterior : Posterior)
    : result Tensor :=
  if (num_samples <=? 0)%Z then Err ValueError
  else Ok (draw (Z.to_nat num_samples) posterior).

(** The [model] argument: a [FixedNoiseGP] or some other model. *)
Inductive GPyTorchModel : Type :=
  | IsFixedNoiseGP (g : FixedNoiseGP)
  | OtherModel (m : Model).

Definition set_train_data (g : FixedNoiseGP) (inputs targets : Tensor)
    : FixedNoiseGP :=
  mkGP inputs targets (noise g) (state_dict g).

Definition set_noise (g : FixedNoiseGP) (n : Tensor) : FixedNoiseGP :=
  mkGP (train_inputs g) (train_targets g) n (state_dict g).

Definition load_state_dict (g : FixedNoiseGP) (h : Hyper) : FixedNoiseGP :=
  mkGP (train_inputs g) (train_targets g) (noise g) h.

Definition _get_noiseless_fantasy_model (model : FixedNoiseGP)
    (batch_X_observed Y_fantasized : Tensor) : FixedNoiseGP :=
  let fantasy_model :=
    mkGP (train_inputs model) (train_targets model) (noise model) default_hyper in
  let fantasy_model := set_train_data fantasy_model batch_X_observed Y_fantasized in
  let fantasy_model := set_noise fantasy_model (full_like Y_fantasized 1e-7) in
  load_state_dict fantasy_model (state_dict model).

Definition as_model (g : FixedNoiseGP) : Model := mkModel (gp_posterior g).

(** [X.expand(n, *X.shape)]: a negative size for a new leading dimension is
    refused by torch. *)
Definition expand_leading (n : Z) (X : Tensor) : result Tensor :=
  if (n <? 0)%Z then Err RuntimeError
  else expand X (Z.to_nat n :: shape X).

Definition __init__ (model : GPyTorchModel) (X_observed : Tensor)
    (num_fantasies : Z) (maximize : bool) : result ExpectedImprovement.t :=
  match model with
  | OtherModel _ => Err UnsupportedError
  | IsFixedNoiseGP model =>
      let posterior := gp_posterior model X_observed in
      samples <- SobolQMCNormalSampler num_fantasies posterior ;;
      Y_fantasized <- squeeze 1 samples ;;
      batch_X_observed <- expand_leading num_fantasies X_observed ;;
      let fantasy_model :=
        _get_noiseless_fantasy_model model batch_X_observed Y_fantasized in
      best_f <- (if maximize then max_last Y_fantasized
                 else min_last Y_fantasized) ;;
      ExpectedImprovement.__init__ (as_model fantasy_model) best_f None maximize
  end.

Definition forward (self : ExpectedImprovement.t) (X : Tensor) : result Tensor :=
  X' <- unsqueeze 3 X ;;
  ei <- ExpectedImprovement.forward self X' ;;
  mean_last ei.

End Surrogate.

End NoisyExpectedImprovement.

(** * Specifications of the tensor programs *)

Open Scope R_scope.

(** Normal(0, 1) built from tensors of zeros and ones of a shape that
    broadcasts against the value. *)
Lemma std_cdf_represents u s fu sl :
  represents u s fu -> broadcast_shapes s sl = Some s ->
  exists c, Normal.cdf (Normal.mk (zeros sl) (ones sl)) u = Ok c /\
            represents c s (fun I => std_normal_cdf (fu I)).
Proof.
  intros Hu Hb. unfold Normal.cdf, zeros, ones; simpl.
  destruct (represents_bop Rminus _ _ _ _ _ _ _ Hu (represents_full sl 0) Hb)
    as (d & Ed & Rd).
  destruct (represents_bop Rdiv _ _ _ _ _ _ _ Rd (represents_full sl 1) Hb)
    as (z & Ez & Rz).
  rewrite Ed; cbn [bind]. rewrite Ez; cbn [bind].
  eexists; split; [reflexivity|].
  eapply represents_ext; [apply represents_tmap, Rz|].
  intros I HI; simpl. rewrite !(bidx_same _ _ HI). f_equal. field.
Qed.

Lemma std_pdf_eq x :
  exp (- (x * x) / (2 * (1 * 1)) - ln 1 - ln (sqrt (2 * PI))) = std_normal_pdf x.
Proof.
  unfold std_normal_pdf. rewrite ln_1.
  replace (- (x * x) / (2 * (1 * 1)) - 0 - ln (sqrt (2 * PI)))
    with (- (x * x) / 2 + - ln (sqrt (2 * PI))) by field.
  rewrite exp_plus, exp_Ropp, exp_ln by apply sqrt_2PI_pos. reflexivity.
Qed.

Lemma std_pdf_represents u s fu sl :
  represents u s fu -> broadcast_shapes s sl = Some s ->
  exists lp, Normal.log_prob (Normal.mk (zeros sl) (ones sl)) u = Ok lp /\
             represents (texp lp) s (fun I => std_normal_pdf (fu I)).
Proof.
  intros Hu Hb. unfold Normal.log_prob, zeros, ones; simpl.
  destruct (represents_bop Rminus _ _ _ _ _ _ _ Hu (represents_full sl 0) Hb)
    as (d & Ed & Rd).
  destruct (represents_bop Rdiv _ _ _ _ _ _ _
              (represents_tmap (fun x => - (x * x)) _ _ _ Rd)
              (represents_tmap (fun s => 2 * (s * s)) _ _ _ (represents_full sl 1)) Hb)
    as (q & Eq & Rq).
  destruct (represents_bop Rminus _ _ _ _ _ _ _ Rq
              (represents_tmap ln _ _ _ (represents_full sl 1)) Hb)
    as (r & Er & Rr).
  rewrite Ed; cbn [bind]. rewrite Eq; cbn [bind]. rewrite Er; cbn [bind].
  eexists; split; [reflexivity|].
  eapply represents_ext; [apply represents_tmap, represents_tmap, Rr|].
  intros I HI; simpl. rewrite !(bidx_same _ _ HI).
  rewrite Rminus_0_r. apply std_pdf_eq.
Qed.

Definition posterior_at (model : Model) (objective : option ScalarizedObjective)
    (X : Tensor) : Posterior :=
  match objective with
  | Some obj => obj (posterior model X)
  | None => posterior model X
  end.

Definition ei_value (mu v f : R) (maximize : bool) : R :=
  let sigma := sqrt (Rmax v 1e-9) in
  let u := (mu - f) / sigma in
  let u := if maximize then u else - u in
  sigma * (std_normal_pdf u + u * std_normal_cdf u).

Lemma t_batch_mode_transform_q1 method X xs d :
  shape X = xs ++ [1%nat; d] -> t_batch_mode_transform 1 method X = method X.
Proof.
  intro H. unfold t_batch_mode_transform. rewrite H.
  rewrite take_last2_app. reflexivity.
Qed.

Lemma _get_posterior_single model objective X vs :
  shape (mean (posterior_at model objective X)) = vs ++ [1%nat; 1%nat] ->
  _get_posterior model objective X true = Ok (posterior_at model objective X).
Proof.
  intro H. unfold _get_posterior. fold (posterior_at model objective X).
  unfold event_shape. rewrite H, rev_app_distr. reflexivity.
Qed.

Ltac step L :=
  let t := fresh "t" in
  let E := fresh "E" in
  let R := fresh "R" in
  destruct L as (t & E & R).

Lemma EI_forward_represents (self : ExpectedImprovement.t) X xs d vs sf mu v f :
  let p := posterior_at (ExpectedImprovement.model self)
             (ExpectedImprovement.objective self) X in
  shape X = xs ++ [1%nat; d] -> (length xs <= length vs)%nat ->
  represents (mean p) (vs ++ [1%nat; 1%nat]) mu ->
  represents (variance p) (vs ++ [1%nat; 1%nat]) v ->
  represents (ExpectedImprovement.best_f self) sf f ->
  broadcast_shapes sf vs = Some vs ->
  exists out, ExpectedImprovement.forward self X = Ok out /\
    represents out vs
      (fun I => ei_value (mu (I ++ [0%nat; 0%nat])) (v (I ++ [0%nat; 0%nat]))
                  (f (bidx sf I)) (ExpectedImprovement.maximize self)).
Proof.
  intros p HX Hlen Hm Hv Hf Hb.
  pose proof (represents_view_drop2 _ _ _ Hm) as (m' & Em & Rm).
  pose proof (represents_view_drop2 _ _ _
                (represents_tmap sqrt _ _ _
                   (represents_tmap (fun x => Rmax x 1e-9) _ _ _ Hv)))
    as (sg & Es & Rs).
  pose proof (represents_expand _ _ _ _ Hf Hb) as (bf & Eb & Rb).
  pose proof (represents_bop_same Rminus _ _ _ _ _ Rm Rb) as (d0 & Ed & Rd).
  pose proof (represents_bop_same Rdiv _ _ _ _ _ Rd Rs) as (u0 & Eu & Ru).
  set (u := if negb (ExpectedImprovement.maximize self) then tneg u0 else u0).
  assert (Ruu : represents u vs
            (fun I => if ExpectedImprovement.maximize self
                      then (mu (I ++ [0%nat; 0%nat]) - f (bidx sf I))
                           / sqrt (Rmax (v (I ++ [0%nat; 0%nat])) 1e-9)
                      else - ((mu (I ++ [0%nat; 0%nat]) - f (bidx sf I))
                              / sqrt (Rmax (v (I ++ [0%nat; 0%nat])) 1e-9)))).
  { unfold u. destruct (ExpectedImprovement.maximize self); simpl.
    - exact Ru.
    - apply (represents_tmap Ropp _ _ _ Ru). }
  pose proof (std_cdf_represents _ _ _ vs Ruu (broadcast_shapes_same vs))
    as (ucdf & Ec & Rc).
  pose proof (std_pdf_represents _ _ _ vs Ruu (broadcast_shapes_same vs))
    as (lp & El & Rl).
  pose proof (represents_bop_same Rmult _ _ _ _ _ Ruu Rc) as (uc & Euc & Ruc).
  pose proof (represents_bop_same Rplus _ _ _ _ _ Rl Ruc) as (s & Esum & Rsum).
  pose proof (represents_bop_same Rmult _ _ _ _ _ Rs Rsum) as (out & Eo & Ro).
  assert (Hshape_u : shape u = vs) by apply Ruu.
  exists out. split.
  - unfold ExpectedImprovement.forward.
    rewrite (t_batch_mode_transform_q1 _ _ _ _ HX).
    rewrite (_get_posterior_single _ _ _ vs) by apply Hm.
    cbn [bind]. fold p.
    assert (Hdim : (dim X <=? dim (mean p))%nat = true).
    { apply Nat.leb_le. unfold dim. destruct Hm as (-> & _). rewrite HX, !length_app.
      simpl. lia. }
    rewrite Hdim.
    assert (Hvs : drop_last 2 (shape (mean p)) = vs).
    { destruct Hm as (-> & _). apply drop_last2_app. }
    rewrite Hvs.
    unfold tsqrt, clamp_min. rewrite Em; cbn [bind]. rewrite Es; cbn [bind].
    unfold expand_as. replace (shape m') with vs by (symmetry; apply Rm).
    rewrite Eb; cbn [bind]. rewrite Ed; cbn [bind]. rewrite Eu; cbn [bind].
    fold u. unfold zeros_like, ones_like. rewrite Hshape_u.
    rewrite Ec; cbn [bind]. rewrite El; cbn [bind].
    rewrite Euc; cbn [bind]. rewrite Esum; cbn [bind]. exact Eo.
  - eapply represents_ext; [exact Ro|].
    intros I HI; simpl. unfold ei_value.
    destruct (ExpectedImprovement.maximize self); reflexivity.
Qed.

Lemma PM_forward_represents (self : PosteriorMean.t) X bs d mu :
  let p := posterior_at (PosteriorMean.model self) (PosteriorMean.objective self) X in
  shape X = bs ++ [1%nat; d] ->
  represents (mean p) (bs ++ [1%nat; 1%nat]) mu ->
  exists out, PosteriorMean.forward self X = Ok out /\
    represents out bs (fun I => mu (I ++ [0%nat; 0%nat])).
Proof.
  intros p HX Hm.
  pose proof (represents_view_drop2 _ _ _ Hm) as (m' & Em & Rm).
  exists m'. split; [|exact Rm].
  unfold PosteriorMean.forward.
  rewrite (t_batch_mode_transform_q1 _ _ _ _ HX).
  rewrite (_get_posterior_single _ _ _ bs) by apply Hm.
  cbn [bind]. fold p. rewrite HX.
  rewrite drop_last2_app. exact Em.
Qed.

Definition ucb_value (mu v beta : R) (maximize : bool) : R :=
  if maximize then mu + sqrt (beta * v) else mu - sqrt (beta * v).

Lemma UCB_forward_represents (self : UpperConfidenceBound.t) X bs d sb mu v fb :
  let p := posterior_at (UpperConfidenceBound.model self)
             (UpperConfidenceBound.objective self) X in
  shape X = bs ++ [1%nat; d] ->
  represents (mean p) (bs ++ [1%nat; 1%nat]) mu ->
  represents (variance p) (bs ++ [1%nat; 1%nat]) v ->
  represents (UpperConfidenceBound.beta self) sb fb ->
  broadcast_shapes sb bs = Some bs ->
  exists out, UpperConfidenceBound.forward self X = Ok out /\
    represents out bs
      (fun I => ucb_value (mu (I ++ [0%nat; 0%nat])) (v (I ++ [0%nat; 0%nat]))
                  (fb (bidx sb I)) (UpperConfidenceBound.maximize self)).
Proof.
  intros p HX Hm Hv Hf Hb.
  pose proof (represents_view_drop2 _ _ _ Hm) as (m' & Em & Rm).
  pose proof (represents_view_drop2 _ _ _ Hv) as (v' & Ev & Rv).
  pose proof (represents_expand _ _ _ _ Hf Hb) as (b & Eb & Rb).
  pose proof (represents_bop_same Rmult _ _ _ _ _ Rb Rv) as (bv & Ebv & Rbv).
  pose proof (represents_tmap sqrt _ _ _ Rbv) as Rdelta.
  pose proof (represents_bop_same Rplus _ _ _ _ _ Rm Rdelta) as (o1 & Eo1 & Ro1).
  pose proof (represents_bop_same Rminus _ _ _ _ _ Rm Rdelta) as (o2 & Eo2 & Ro2).
  exists (if UpperConfidenceBound.maximize self then o1 else o2). split.
  - unfold UpperConfidenceBound.forward.
    rewrite (t_batch_mode_transform_q1 _ _ _ _ HX).
    rewrite (_get_posterior_single _ _ _ bs) by apply Hm.
    cbn [bind]. fold p. rewrite HX.
    rewrite drop_last2_app.
    rewrite Em; cbn [bind]. rewrite Ev; cbn [bind].
    unfold expand_as. replace (shape m') with bs by (symmetry; apply Rm).
    rewrite Eb; cbn [bind]. rewrite Ebv; cbn [bind]. unfold tsqrt.
    destruct (UpperConfidenceBound.maximize self); assumption.
  - unfold ucb_value.
    destruct (UpperConfidenceBound.maximize self); assumption.
Qed.

Definition pi_value (mu v f : R) (maximize : bool) : R :=
  let sigma := Rmax (sqrt v) 1e-9 in
  let u := (mu - f) / sigma in
  std_normal_cdf (if maximize then u else - u).

Lemma PI_forward_represents (self : ProbabilityOfImprovement.t) X bs d sf mu v f :
  let p := posterior_at (ProbabilityOfImprovement.model self)
             (ProbabilityOfImprovement.objective self) X in
  shape X = bs ++ [1%nat; d] ->
  represents (mean p) (bs ++ [1%nat; 1%nat]) mu ->
  represents (variance p) (bs ++ [1%nat; 1%nat]) v ->
  represents (ProbabilityOfImprovement.best_f self) sf f ->
  broadcast_shapes sf bs = Some bs ->
  exists out, ProbabilityOfImprovement.forward self X = Ok out /\
    represents out bs
      (fun I => pi_value (mu (I ++ [0%nat; 0%nat])) (v (I ++ [0%nat; 0%nat]))
                  (f (bidx sf I)) (ProbabilityOfImprovement.maximize self)).
Proof.
  intros p HX Hm Hv Hf Hb.
  pose proof (represents_view_drop2 _ _ _ Hm) as (m' & Em & Rm).
  pose proof (represents_view_drop2 _ _ _
                (represents_tmap (fun x => Rmax x 1e-9) _ _ _
                   (represents_tmap sqrt _ _ _ Hv)))
    as (sg & Es & Rs).
  pose proof (represents_expand _ _ _ _ Hf Hb) as (bf & Eb & Rb).
  pose proof (represents_bop_same Rminus _ _ _ _ _ Rm Rb) as (d0 & Ed & Rd).
  pose proof (represents_bop_same Rdiv _ _ _ _ _ Rd Rs) as (u0 & Eu & Ru).
  set (u := if negb (ProbabilityOfImprovement.maximize self) then tneg u0 else u0).
  assert (Ruu : represents u bs
            (fun I => if ProbabilityOfImprovement.maximize self
                      then (mu (I ++ [0%nat; 0%nat]) - f (bidx sf I))
                           / Rmax (sqrt (v (I ++ [0%nat; 0%nat]))) 1e-9
                      else - ((mu (I ++ [0%nat; 0%nat]) - f (bidx sf I))
                              / Rmax (sqrt (v (I ++ [0%nat; 0%nat]))) 1e-9))).
  { unfold u. destruct (ProbabilityOfImprovement.maximize self); simpl.
    - exact Ru.
    - apply (represents_tmap Ropp _ _ _ Ru). }
  pose proof (std_cdf_represents _ _ _ bs Ruu (broadcast_shapes_same bs))
    as (ucdf & Ec & Rc).
  assert (Hshape_u : shape u = bs) by apply Ruu.
  exists ucdf. split.
  - unfold ProbabilityOfImprovement.forward.
    rewrite (t_batch_mode_transform_q1 _ _ _ _ HX).
    rewrite (_get_posterior_single _ _ _ bs) by apply Hm.
    cbn [bind]. fold p. rewrite HX.
    rewrite drop_last2_app.
    unfold tsqrt, clamp_min. rewrite Em; cbn [bind]. rewrite Es; cbn [bind].
    unfold expand_as. replace (shape m') with bs by (symmetry; apply Rm).
    rewrite Eb; cbn [bind]. rewrite Ed; cbn [bind]. rewrite Eu; cbn [bind].
    fold u. unfold zeros_like, ones_like. rewrite Hshape_u. exact Ec.
  - eapply represents_ext; [exact Rc|].
    intros I HI; simpl. unfold pi_value.
    destruct (ProbabilityOfImprovement.maximize self); reflexivity.
Qed.

Definition ei_of_sigma (mu sigma f : R) (maximize : bool) : R :=
  let u := (mu - f) / sigma in
  let u := if maximize then u else - u in
  sigma * (std_normal_pdf u + u * std_normal_cdf u).

Lemma ei_value_of_sigma mu v f maximize :
  ei_value mu v f maximize = ei_of_sigma mu (sqrt (Rmax v 1e-9)) f maximize.
Proof. reflexivity. Qed.

(** Clamping the variance before the square root and clamping the standard
    deviation after it agree from variance [1e-9] on. *)
Lemma clamp_orders_agree v :
  1e-9 <= v -> sqrt (Rmax v 1e-9) = Rmax (sqrt v) 1e-9.
Proof.
  intro Hv. rewrite Rmax_left by exact Hv.
  rewrite Rmax_left; [reflexivity|].
  assert (H : sqrt 1e-9 <= sqrt v) by (apply sqrt_le_1_alt; exact Hv).
  assert (H1 : 1e-9 <= sqrt 1e-9).
  { rewrite <- (sqrt_square 1e-9) at 1 by lra. apply sqrt_le_1_alt. lra. }
  lra.
Qed.


Module ConstrainedEISpec.

Import ConstrainedExpectedImprovement.

(** The three groups a constraint dictionary is partitioned into, read off
    the dictionary in the order of its keys. *)
Fixpoint lower_only (cs : Constraints) (ks : list nat) : list (nat * R) :=
  match ks with
  | [] => []
  | k :: ks' =>
      match dict_get cs k with
      | Some (Some lo, None) => (k, lo) :: lower_only cs ks'
      | _ => lower_only cs ks'
      end
  end.

Fixpoint upper_only (cs : Constraints) (ks : list nat) : list (nat * R) :=
  match ks with
  | [] => []
  | k :: ks' =>
      match dict_get cs k with
      | Some (None, Some up) => (k, up) :: upper_only cs ks'
      | _ => upper_only cs ks'
      end
  end.

Fixpoint two_sided (cs : Constraints) (ks : list nat) : list (nat * (R * R)) :=
  match ks with
  | [] => []
  | k :: ks' =>
      match dict_get cs k with
      | Some (Some lo, Some up) => (k, (lo, up)) :: two_sided cs ks'
      | _ => two_sided cs ks'
      end
  end.

Lemma dict_get_keys cs k : In k (keys cs) -> dict_get cs k <> None.
Proof.
  induction cs as [|[k' v] cs IH]; simpl; [tauto|].
  intros [-> | H].
  - rewrite Nat.eqb_refl. discriminate.
  - destruct (k' =? k)%nat; [discriminate | auto].
Qed.

Lemma dict_get_in_keys cs k v : dict_get cs k = Some v -> In k (keys cs).
Proof.
  induction cs as [|[k' v'] cs IH]; simpl; [discriminate|].
  destruct (Nat.eqb_spec k' k); [left; assumption | right; auto].
Qed.

Lemma collect_bounds_ok cs ks b b' :
  collect_bounds cs ks b = Ok b' ->
  lower_inds b' = lower_inds b ++ map fst (lower_only cs ks) /\
  lower b' = lower b ++ map snd (lower_only cs ks) /\
  upper_inds b' = upper_inds b ++ map fst (upper_only cs ks) /\
  upper b' = upper b ++ map snd (upper_only cs ks) /\
  both_inds b' = both_inds b ++ map fst (two_sided cs ks) /\
  both b' = both b ++ map snd (two_sided cs ks).
Proof.
  revert b; induction ks as [|k ks IH]; intros b H; simpl in *.
  - injection H as <-. rewrite !app_nil_r. tauto.
  - destruct (dict_get cs k) as [[[lo|] [up|]]|]; try discriminate.
    + destruct (Rle_dec up lo); [discriminate|].
      apply IH in H. simpl in H. rewrite <- !app_assoc in H. exact H.
    + apply IH in H. simpl in H. rewrite <- !app_assoc in H. exact H.
    + apply IH in H. simpl in H. rewrite <- !app_assoc in H. exact H.
    + apply IH in H. exact H.
Qed.

Lemma collect_bounds_invalid cs ks b k lo up :
  (forall k', In k' ks -> dict_get cs k' <> None) ->
  In k ks -> dict_get cs k = Some (Some lo, Some up) -> up <= lo ->
  collect_bounds cs ks b = Err ValueError.
Proof.
  revert b; induction ks as [|k0 ks IH]; intros b Hks Hin Hget Hle; simpl in *.
  - contradiction.
  - destruct (Nat.eq_dec k0 k) as [-> | Hne].
    + rewrite Hget. destruct (Rle_dec up lo); [reflexivity | contradiction].
    + assert (Hin' : In k ks) by (destruct Hin; [contradiction | assumption]).
      pose proof (Hks k0 (or_introl eq_refl)) as Hk0.
      destruct (dict_get cs k0) as [[[lo0|] [up0|]]|]; try contradiction.
      * destruct (Rle_dec up0 lo0); [reflexivity|]. apply IH; auto.
      * apply IH; auto.
      * apply IH; auto.
      * apply IH; auto.
Qed.

Lemma collect_bounds_valid cs ks b :
  (forall k', In k' ks -> dict_get cs k' <> None) ->
  (forall k lo up, In k ks -> dict_get cs k = Some (Some lo, Some up) -> lo < up) ->
  exists b', collect_bounds cs ks b = Ok b'.
Proof.
  revert b; induction ks as [|k0 ks IH]; intros b Hks Hv; simpl in *.
  - eexists; reflexivity.
  - pose proof (Hks k0 (or_introl eq_refl)) as Hk0.
    destruct (dict_get cs k0) as [[[lo0|] [up0|]]|] eqn:E; try contradiction.
    + destruct (Rle_dec up0 lo0) as [Hle|_].
      * pose proof (Hv k0 lo0 up0 (or_introl eq_refl) E). lra.
      * apply IH; eauto.
    + apply IH; eauto.
    + apply IH; eauto.
    + apply IH; eauto.
Qed.

Lemma existsb_eqb_In x l : existsb (Nat.eqb x) l = true <-> In x l.
Proof.
  rewrite existsb_exists. split.
  - intros (y & Hy & E). apply Nat.eqb_eq in E. subst. exact Hy.
  - intro H. exists x. split; [exact H | apply Nat.eqb_refl].
Qed.

Lemma preprocess_empty obj : _preprocess_constraint_bounds obj [] = Err ValueError.
Proof. reflexivity. Qed.

Lemma preprocess_objective obj cs :
  In obj (keys cs) -> _preprocess_constraint_bounds obj cs = Err ValueError.
Proof.
  intro H. unfold _preprocess_constraint_bounds.
  destruct (length (keys cs) =? 0)%nat; [reflexivity|].
  apply existsb_eqb_In in H. rewrite H. reflexivity.
Qed.

Lemma preprocess_invalid obj cs k lo up :
  dict_get cs k = Some (Some lo, Some up) -> up <= lo ->
  _preprocess_constraint_bounds obj cs = Err ValueError.
Proof.
  intros Hget Hle. unfold _preprocess_constraint_bounds.
  destruct (length (keys cs) =? 0)%nat; [reflexivity|].
  destruct (existsb (Nat.eqb obj) (keys cs)); [reflexivity|].
  apply (collect_bounds_invalid cs (keys cs) no_bounds k lo up); auto.
  - intros k'. apply dict_get_keys.
  - apply (dict_get_in_keys _ _ _ Hget).
Qed.

Lemma preprocess_valid obj cs :
  cs <> [] -> ~ In obj (keys cs) ->
  (forall k lo up, dict_get cs k = Some (Some lo, Some up) -> lo < up) ->
  exists b, _preprocess_constraint_bounds obj cs = Ok b.
Proof.
  intros Hne Hobj Hv. unfold _preprocess_constraint_bounds.
  destruct cs as [|c cs]; [contradiction|]. cbn [keys map length Nat.eqb].
  destruct (existsb (Nat.eqb obj) (fst c :: map fst cs)) eqn:E.
  - apply existsb_eqb_In in E. contradiction.
  - apply collect_bounds_valid.
    + intros k'. apply (dict_get_keys (c :: cs)).
    + intros k lo up _. apply Hv.
Qed.

Lemma preprocess_groups obj cs b :
  _preprocess_constraint_bounds obj cs = Ok b ->
  lower_inds b = map fst (lower_only cs (keys cs)) /\
  lower b = map snd (lower_only cs (keys cs)) /\
  upper_inds b = map fst (upper_only cs (keys cs)) /\
  upper b = map snd (upper_only cs (keys cs)) /\
  both_inds b = map fst (two_sided cs (keys cs)) /\
  both b = map snd (two_sided cs (keys cs)).
Proof.
  unfold _preprocess_constraint_bounds.
  destruct (length (keys cs) =? 0)%nat; [discriminate|].
  destruct (existsb (Nat.eqb obj) (keys cs)); [discriminate|].
  intro H. apply collect_bounds_ok in H. exact H.
Qed.

Lemma init_ok_inv float32 model best_f obj cs maximize self :
  __init__ float32 model best_f obj cs maximize = Ok self ->
  exists b, _preprocess_constraint_bounds obj cs = Ok b /\
    self = mk model maximize obj cs best_f
             (lower_inds b) (upper_inds b) (both_inds b)
             (float_tensor_of_pairs float32 (both b))
             (float_tensor float32 (lower b))
             (float_tensor float32 (upper b)).
Proof.
  unfold __init__.
  destruct (_preprocess_constraint_bounds obj cs) as [b|e]; simpl; [|discriminate].
  intros [= <-]. exists b; auto.
Qed.

(** [Normal(means[..., inds], sigmas[..., inds]).cdf(value)] for a vector
    [value] with one entry per selected output. *)
Lemma dist_cdf_represents means sigmas bs t fm fs inds value fv :
  represents means (bs ++ [t]) fm -> represents sigmas (bs ++ [t]) fs ->
  Forall (fun i => (i < t)%nat) inds ->
  represents value [length inds] fv ->
  exists N c, _construct_dist means sigmas inds = Ok N /\
    Normal.cdf N value = Ok c /\
    represents c (bs ++ [length inds])
      (fun K => let J := removelast K in let i := nth (last K 0%nat) inds 0%nat in
                std_normal_cdf ((fv [last K 0%nat] - fm (J ++ [i])) / fs (J ++ [i]))).
Proof.
  intros Hm Hs Hin Hv.
  pose proof (represents_index_last _ _ _ _ _ Hm Hin) as (loc & El & Rl).
  pose proof (represents_index_last _ _ _ _ _ Hs Hin) as (sc & Esc & Rsc).
  pose proof (represents_bop Rminus _ _ _ _ _ _ _ Hv Rl
                (broadcast_shapes_suffix bs [length inds])) as (d & Ed & Rd).
  pose proof (represents_bop_same Rdiv _ _ _ _ _ Rd Rsc) as (z & Ez & Rz).
  exists (Normal.mk loc sc), (tmap std_normal_cdf z).
  split; [|split].
  - unfold _construct_dist. rewrite El; cbn [bind]. rewrite Esc; reflexivity.
  - unfold Normal.cdf; simpl. rewrite Ed; cbn [bind]. rewrite Ez; reflexivity.
  - eapply represents_ext; [apply (represents_tmap std_normal_cdf), Rz|].
    intros K HK. cbv zeta.
    pose proof HK as HK'. apply in_range_snoc_inv in HK' as (I & c & -> & HI & Hc).
    rewrite (bidx_same _ _ HK).
    rewrite (bidx_suffix [length inds] I [c]) by (repeat constructor; exact Hc).
    rewrite removelast_last, last_last. reflexivity.
Qed.

Definition prob_lower (fm fs : list nat -> R) (J : list nat) (L : list (nat * R)) : R :=
  Rprod (map (fun p => 1 - std_normal_cdf ((snd p - fm (J ++ [fst p])) / fs (J ++ [fst p]))) L).

Definition prob_upper (fm fs : list nat -> R) (J : list nat) (U : list (nat * R)) : R :=
  Rprod (map (fun p => std_normal_cdf ((snd p - fm (J ++ [fst p])) / fs (J ++ [fst p]))) U).

Definition prob_both (fm fs : list nat -> R) (J : list nat)
    (B : list (nat * (R * R))) : R :=
  Rprod (map (fun p =>
                std_normal_cdf ((snd (snd p) - fm (J ++ [fst p])) / fs (J ++ [fst p]))
                - std_normal_cdf ((fst (snd p) - fm (J ++ [fst p])) / fs (J ++ [fst p])))
           B).

Lemma prod_rows {A V : Type} (L : list A) (key : A -> nat) (g : A -> V) (dv : V)
    (h : nat -> R) (G : nat -> V -> R) :
  (forall c, (c < length L)%nat ->
             h c = G (nth c (map key L) 0%nat) (nth c (map g L) dv)) ->
  Rprod (map h (seq 0 (length L))) = Rprod (map (fun p => G (key p) (g p)) L).
Proof.
  intro H. f_equal.
  transitivity (map (fun c => G (nth c (map key L) 0%nat) (nth c (map g L) dv))
                  (seq 0 (length L))).
  { apply map_ext_in. intros c Hc. apply in_seq in Hc. apply H. lia. }
  clear H. induction L as [|a L IH]; simpl; [reflexivity|].
  rewrite <- seq_shift, map_map. simpl. rewrite IH. reflexivity.
Qed.

Section Groups.

Variables (means sigmas : Tensor) (bs : list nat) (t : nat) (fm fs : list nat -> R).
Hypothesis Hmeans : represents means (bs ++ [t]) fm.
Hypothesis Hsigmas : represents sigmas (bs ++ [t]) fs.

Lemma removelast_firstn_snoc K :
  in_range K (bs ++ [1%nat]) -> firstn (length bs) K = removelast K.
Proof.
  intro HK. apply in_range_snoc_inv in HK as (I & c & -> & HI & Hc).
  rewrite removelast_last. apply firstn_in_range_app, HI.
Qed.

(** Product over the selected outputs of a tensor of per-output
    probabilities. *)
Lemma group_product {A V : Type} (L : list A) (key : A -> nat) (g : A -> V)
    (dv : V) (c : Tensor) (G : list nat -> nat -> V -> R) :
  represents c (bs ++ [length L])
    (fun K => G (removelast K) (nth (last K 0%nat) (map key L) 0%nat)
                (nth (last K 0%nat) (map g L) dv)) ->
  exists p, prod_last true c = Ok p /\
    represents p (bs ++ [1%nat])
      (fun K => Rprod (map (fun q => G (removelast K) (key q) (g q)) L)).
Proof.
  intro Hc.
  pose proof (represents_reduce_last Rprod true _ _ _ _ Hc) as (p & Ep & Rp).
  exists p. split; [exact Ep|].
  eapply represents_ext; [exact Rp|].
  intros K HK; simpl. rewrite (removelast_firstn_snoc K HK).
  apply (prod_rows L key g dv). intros i Hi.
  rewrite removelast_last, last_last. reflexivity.
Qed.

Lemma lower_group (L : list (nat * R)) :
  Forall (fun p => (fst p < t)%nat) L ->
  exists N c p, _construct_dist means sigmas (map fst L) = Ok N /\
    Normal.cdf N (tensor_of_list (map snd L)) = Ok c /\
    prod_last true (tmap (fun x => 1 - x) c) = Ok p /\
    represents p (bs ++ [1%nat]) (fun K => prob_lower fm fs (removelast K) L).
Proof.
  intro HL.
  assert (Hin : Forall (fun i => (i < t)%nat) (map fst L)).
  { apply Forall_map. exact HL. }
  assert (Hv : represents (tensor_of_list (map snd L)) [length (map fst L)]
                 (fun I => nth (hd 0%nat I) (map snd L) 0)).
  { rewrite length_map, <- (length_map snd). apply represents_tensor_of_list. }
  pose proof (dist_cdf_represents _ _ _ _ _ _ _ _ _ Hmeans Hsigmas Hin Hv)
    as (N & c & EN & Ec & Rc).
  rewrite length_map in Rc.
  pose proof (group_product L fst snd 0 (tmap (fun x => 1 - x) c)
                (fun J i x => 1 - std_normal_cdf ((x - fm (J ++ [i])) / fs (J ++ [i]))))
    as Hp.
  destruct Hp as (p & Ep & Rp).
  { eapply represents_ext; [apply (represents_tmap (fun x => 1 - x)), Rc|].
    intros K HK. reflexivity. }
  exists N, c, p. auto.
Qed.

Lemma upper_group (U : list (nat * R)) :
  Forall (fun p => (fst p < t)%nat) U ->
  exists N c p, _construct_dist means sigmas (map fst U) = Ok N /\
    Normal.cdf N (tensor_of_list (map snd U)) = Ok c /\
    prod_last true c = Ok p /\
    represents p (bs ++ [1%nat]) (fun K => prob_upper fm fs (removelast K) U).
Proof.
  intro HL.
  assert (Hin : Forall (fun i => (i < t)%nat) (map fst U)).
  { apply Forall_map. exact HL. }
  assert (Hv : represents (tensor_of_list (map snd U)) [length (map fst U)]
                 (fun I => nth (hd 0%nat I) (map snd U) 0)).
  { rewrite length_map, <- (length_map snd). apply represents_tensor_of_list. }
  pose proof (dist_cdf_represents _ _ _ _ _ _ _ _ _ Hmeans Hsigmas Hin Hv)
    as (N & c & EN & Ec & Rc).
  rewrite length_map in Rc.
  pose proof (group_product U fst snd 0 c
                (fun J i x => std_normal_cdf ((x - fm (J ++ [i])) / fs (J ++ [i]))))
    as Hp.
  destruct Hp as (p & Ep & Rp).
  { eapply represents_ext; [exact Rc|]. intros K HK. reflexivity. }
  exists N, c, p. auto.
Qed.

Lemma both_group (B : list (nat * (R * R))) :
  B <> [] ->
  Forall (fun p => (fst p < t)%nat) B ->
  exists N up cu lo cl diff p,
    _construct_dist means sigmas (map fst B) = Ok N /\
    select_last (tensor_of_pairs (map snd B)) 1 = Ok up /\
    Normal.cdf N up = Ok cu /\
    select_last (tensor_of_pairs (map snd B)) 0 = Ok lo /\
    Normal.cdf N lo = Ok cl /\
    bop Rminus cu cl = Ok diff /\
    prod_last true diff = Ok p /\
    represents p (bs ++ [1%nat]) (fun K => prob_both fm fs (removelast K) B).
Proof.
  intros Hne HL.
  assert (Hin : Forall (fun i => (i < t)%nat) (map fst B)).
  { apply Forall_map. exact HL. }
  assert (Hne' : map snd B <> []) by (destruct B; [contradiction | discriminate]).
  pose proof (represents_tensor_of_pairs _ Hne') as Rpairs.
  rewrite length_map in Rpairs.
  pose proof (represents_select_last _ [length B] 2%nat _ 1%nat Rpairs ltac:(lia))
    as (up & Eup & Rup).
  pose proof (represents_select_last _ [length B] 2%nat _ 0%nat Rpairs ltac:(lia))
    as (lo & Elo & Rlo).
  rewrite <- (length_map fst) in Rup, Rlo.
  pose proof (dist_cdf_represents _ _ _ _ _ _ _ _ _ Hmeans Hsigmas Hin Rup)
    as (N & cu & EN & Ecu & Rcu).
  pose proof (dist_cdf_represents _ _ _ _ _ _ _ _ _ Hmeans Hsigmas Hin Rlo)
    as (N' & cl & EN' & Ecl & Rcl).
  assert (N' = N) by congruence. subst N'.
  pose proof (represents_bop_same Rminus _ _ _ _ _ Rcu Rcl) as (diff & Ed & Rd).
  rewrite length_map in Rd.
  pose proof (group_product B fst snd (0, 0) diff
                (fun J i x =>
                   std_normal_cdf ((snd x - fm (J ++ [i])) / fs (J ++ [i]))
                   - std_normal_cdf ((fst x - fm (J ++ [i])) / fs (J ++ [i]))))
    as Hp.
  destruct Hp as (p & Ep & Rp).
  { eapply represents_ext; [exact Rd|]. intros K HK. cbv zeta.
    pose proof HK as HK'. apply in_range_snoc_inv in HK' as (I & c & -> & HI & Hc).
    rewrite last_last. destruct c; reflexivity. }
  exists N, up, cu, lo, cl, diff, p. repeat (split; [assumption|]). exact Rp.
Qed.

End Groups.

(** One multiplication of the running feasibility probability by a group's
    product.  The running tensor has the shape it was created with, or the
    shape broadcasting gave it; its entries depend on the batch element
    only. *)
Lemma feas_step pf cur (G P : list nat -> R) p bs S :
  broadcast_shapes (bs ++ [1%nat; 1%nat]) (bs ++ [1%nat]) = Some S ->
  (cur = bs ++ [1%nat; 1%nat] /\ (forall K, G K = 1)) \/ cur = S ->
  represents pf cur (fun K => G (bidx (bs ++ [1%nat]) K)) ->
  represents p (bs ++ [1%nat]) P ->
  exists pf', bop Rmult pf p = Ok pf' /\
    represents pf' S
      (fun K => G (bidx (bs ++ [1%nat]) K) * P (bidx (bs ++ [1%nat]) K)).
Proof.
  intros Hb Hcur Hpf Hp. destruct Hcur as [[-> HG] | ->].
  - pose proof (represents_bop Rmult _ _ _ _ _ _ _ Hpf Hp Hb) as (pf' & E & R).
    exists pf'. split; [exact E|].
    eapply represents_ext; [exact R|].
    intros K HK; simpl. rewrite !HG. reflexivity.
  - pose proof (represents_bop Rmult _ _ _ _ _ _ _ Hpf Hp
                  (broadcast_shapes_absorb _ _ _ Hb)) as (pf' & E & R).
    exists pf'. split; [exact E|].
    eapply represents_ext; [exact R|].
    intros K HK; simpl. rewrite (bidx_same _ _ HK). reflexivity.
Qed.

Definition feasibility (fm fs : list nat -> R) (J : list nat)
    (L U : list (nat * R)) (B : list (nat * (R * R))) : R :=
  1 * prob_lower fm fs J L * prob_upper fm fs J U * prob_both fm fs J B.

Lemma prob_feas_represents (self : t) X bs d n means sigmas fm fs L U B S :
  shape X = bs ++ [1%nat; d] ->
  represents means (bs ++ [n]) fm -> represents sigmas (bs ++ [n]) fs ->
  constraint_lower_inds self = map fst L ->
  constraint_lower self = tensor_of_list (map snd L) ->
  constraint_upper_inds self = map fst U ->
  constraint_upper self = tensor_of_list (map snd U) ->
  constraint_both_inds self = map fst B ->
  constraint_both self = tensor_of_pairs (map snd B) ->
  Forall (fun p => (fst p < n)%nat) L ->
  Forall (fun p => (fst p < n)%nat) U ->
  Forall (fun p => (fst p < n)%nat) B ->
  broadcast_shapes (bs ++ [1%nat; 1%nat]) (bs ++ [1%nat]) = Some S ->
  exists pf cur, _compute_prob_feas self X means sigmas = Ok pf /\
    ((cur = bs ++ [1%nat; 1%nat] /\ L = [] /\ U = [] /\ B = []) \/ cur = S) /\
    represents pf cur
      (fun K => feasibility fm fs (removelast (bidx (bs ++ [1%nat]) K)) L U B).
Proof.
  intros HX Hm Hs HLi HLv HUi HUv HBi HBv HL HU HB Hb.
  unfold _compute_prob_feas. rewrite HX.
  replace (bs ++ [1%nat; d]) with ((bs ++ [1%nat]) ++ [d])
    by (rewrite <- app_assoc; reflexivity).
  rewrite set_last_snoc. rewrite <- app_assoc. cbn [app bind].
  rewrite HLi, HLv, HUi, HUv, HBi, HBv, !length_map.
  set (b := fun K : list nat => bidx (bs ++ [1%nat]) K).
  (* the initial tensor of ones *)
  set (pf0 := ones (bs ++ [1%nat; 1%nat])).
  assert (C0 : (bs ++ [1%nat; 1%nat] = bs ++ [1%nat; 1%nat] /\
                forall K : list nat, (fun _ : list nat => 1) K = 1)
               \/ bs ++ [1%nat; 1%nat] = S) by (left; auto).
  assert (R0 : represents pf0 (bs ++ [1%nat; 1%nat])
                 (fun K => (fun _ : list nat => 1) (b K)))
    by apply represents_full.
  (* lower-only group *)
  assert (I1 : exists pf1 cur1 G1,
            (if (0 <? length L)%nat
             then normal_lower <- _construct_dist means sigmas (map fst L) ;;
                  c <- Normal.cdf normal_lower (tensor_of_list (map snd L)) ;;
                  p <- prod_last true (tmap (fun x => 1 - x) c) ;;
                  bop Rmult pf0 p
             else Ok pf0) = Ok pf1 /\
            ((cur1 = bs ++ [1%nat; 1%nat] /\ forall K, G1 K = 1) \/ cur1 = S) /\
            (cur1 = S \/ L = []) /\
            represents pf1 cur1 (fun K => G1 (b K)) /\
            (forall K, G1 K = 1 * prob_lower fm fs (removelast K) L)).
  { destruct L as [|l0 L'].
    - exists pf0, (bs ++ [1%nat; 1%nat]), (fun _ => 1). cbn [length Nat.ltb Nat.leb].
      split; [reflexivity | split; [assumption | split; [right; reflexivity |]]].
      split; [assumption|].
      intros K. unfold prob_lower; simpl. ring.
    - destruct (lower_group _ _ _ _ _ _ Hm Hs (l0 :: L') HL)
        as (N & c & p & EN & Ec & Ep & Rp).
      pose proof (feas_step _ _ _ _ _ _ _ Hb C0 R0 Rp) as (pf1 & E1 & R1).
      exists pf1, S, (fun K => 1 * prob_lower fm fs (removelast K) (l0 :: L')).
      cbn [length Nat.ltb Nat.leb].
      rewrite EN; cbn [bind]. rewrite Ec; cbn [bind]. rewrite Ep; cbn [bind].
      split; [exact E1 | split; [right; reflexivity | split; [left; reflexivity |]]].
      split; [exact R1 | reflexivity]. }
  destruct I1 as (pf1 & cur1 & G1 & E1 & C1 & N1 & R1 & HG1).
  rewrite E1; cbn [bind]. clear E1.
  (* upper-only group *)
  assert (I2 : exists pf2 cur2 G2,
            (if (0 <? length U)%nat
             then normal_upper <- _construct_dist means sigmas (map fst U) ;;
                  prob_u <- Normal.cdf normal_upper (tensor_of_list (map snd U)) ;;
                  p <- prod_last true prob_u ;;
                  bop Rmult pf1 p
             else Ok pf1) = Ok pf2 /\
            ((cur2 = bs ++ [1%nat; 1%nat] /\ forall K, G2 K = 1) \/ cur2 = S) /\
            (cur2 = S \/ (L = [] /\ U = [])) /\
            represents pf2 cur2 (fun K => G2 (b K)) /\
            (forall K, G2 K = 1 * prob_lower fm fs (removelast K) L
                              * prob_upper fm fs (removelast K) U)).
  { destruct U as [|u0 U'].
    - exists pf1, cur1, G1. cbn [length Nat.ltb Nat.leb].
      split; [reflexivity | split; [assumption | split; [tauto |]]].
      split; [assumption|].
      intros K. rewrite (HG1 K). unfold prob_upper; simpl. ring.
    - destruct (upper_group _ _ _ _ _ _ Hm Hs (u0 :: U') HU)
        as (N & c & p & EN & Ec & Ep & Rp).
      pose proof (feas_step _ _ _ _ _ _ _ Hb C1 R1 Rp) as (pf2 & E2 & R2).
      exists pf2, S,
        (fun K => G1 K * prob_upper fm fs (removelast K) (u0 :: U')).
      cbn [length Nat.ltb Nat.leb].
      rewrite EN; cbn [bind]. rewrite Ec; cbn [bind]. rewrite Ep; cbn [bind].
      split; [exact E2 | split; [right; reflexivity | split; [left; reflexivity |]]].
      split; [exact R2 |].
      intros K. rewrite (HG1 K). reflexivity. }
  destruct I2 as (pf2 & cur2 & G2 & E2 & C2 & N2 & R2 & HG2).
  rewrite E2; cbn [bind]. clear E2.
  (* two-sided group *)
  destruct B as [|b0 B'].
  - exists pf2, cur2. cbn [length Nat.ltb Nat.leb].
    split; [reflexivity | split; [destruct C2 as [[H _] | H]; tauto |]].
    eapply represents_ext; [exact R2|].
    intros K HK; simpl. rewrite HG2. unfold feasibility, prob_both; simpl. ring.
  - destruct (both_group _ _ _ _ _ _ Hm Hs (b0 :: B') ltac:(discriminate) HB)
      as (N & up & cu & lo & cl & diff & p & EN & Eup & Ecu & Elo & Ecl & Ed & Ep & Rp).
    pose proof (feas_step _ _ _ _ _ _ _ Hb C2 R2 Rp) as (pf3 & E3 & R3).
    exists pf3, S. cbn [length Nat.ltb Nat.leb].
    rewrite EN; cbn [bind]. rewrite Eup; cbn [bind]. rewrite Ecu; cbn [bind].
    rewrite Elo; cbn [bind]. rewrite Ecl; cbn [bind]. rewrite Ed; cbn [bind].
    rewrite Ep; cbn [bind].
    split; [exact E3 | split; [right; reflexivity |]].
    eapply represents_ext; [exact R3|].
    intros K HK; simpl. rewrite HG2. reflexivity.
Qed.

Lemma lower_only_keys cs ks p : In p (lower_only cs ks) -> In (fst p) ks.
Proof.
  induction ks as [|k ks IH]; simpl; [tauto|].
  destruct (dict_get cs k) as [[[lo|] [up|]]|]; simpl; try tauto.
  intros [<- | H]; simpl; tauto.
Qed.

Lemma upper_only_keys cs ks p : In p (upper_only cs ks) -> In (fst p) ks.
Proof.
  induction ks as [|k ks IH]; simpl; [tauto|].
  destruct (dict_get cs k) as [[[lo|] [up|]]|]; simpl; try tauto.
  intros [<- | H]; simpl; tauto.
Qed.

Lemma two_sided_keys cs ks p : In p (two_sided cs ks) -> In (fst p) ks.
Proof.
  induction ks as [|k ks IH]; simpl; [tauto|].
  destruct (dict_get cs k) as [[[lo|] [up|]]|]; simpl; try tauto.
  intros [<- | H]; simpl; tauto.
Qed.

(** The bounds of a group as the buffers hold them: rounded to single
    precision. *)
Definition stored (float32 : R -> R) (L : list (nat * R)) : list (nat * R) :=
  map (fun p => (fst p, float32 (snd p))) L.

Definition stored_pairs (float32 : R -> R) (B : list (nat * (R * R)))
    : list (nat * (R * R)) :=
  map (fun p => (fst p, (float32 (fst (snd p)), float32 (snd (snd p))))) B.

Lemma stored_fst float32 L : map fst (stored float32 L) = map fst L.
Proof. unfold stored. rewrite map_map. reflexivity. Qed.

Lemma stored_snd float32 L : map snd (stored float32 L) = map float32 (map snd L).
Proof. unfold stored. rewrite !map_map. reflexivity. Qed.

Lemma stored_pairs_fst float32 B : map fst (stored_pairs float32 B) = map fst B.
Proof. unfold stored_pairs. rewrite map_map. reflexivity. Qed.

Lemma stored_pairs_snd float32 B :
  map snd (stored_pairs float32 B)
  = map (fun p => (float32 (fst p), float32 (snd p))) (map snd B).
Proof. unfold stored_pairs. rewrite !map_map. reflexivity. Qed.

Lemma init_groups float32 model best_f obj cs maximize self :
  __init__ float32 model best_f obj cs maximize = Ok self ->
  constraint_lower_inds self = map fst (stored float32 (lower_only cs (keys cs))) /\
  constraint_lower self
    = tensor_of_list (map snd (stored float32 (lower_only cs (keys cs)))) /\
  constraint_upper_inds self = map fst (stored float32 (upper_only cs (keys cs))) /\
  constraint_upper self
    = tensor_of_list (map snd (stored float32 (upper_only cs (keys cs)))) /\
  constraint_both_inds self
    = map fst (stored_pairs float32 (two_sided cs (keys cs))) /\
  constraint_both self
    = tensor_of_pairs (map snd (stored_pairs float32 (two_sided cs (keys cs)))) /\
  ConstrainedExpectedImprovement.model self = model /\
  ConstrainedExpectedImprovement.best_f self = best_f /\
  objective_index self = obj /\
  ConstrainedExpectedImprovement.maximize self = maximize.
Proof.
  intro H. apply init_ok_inv in H as (b & Hb & ->). simpl.
  apply preprocess_groups in Hb as (-> & -> & -> & -> & -> & ->).
  rewrite !stored_fst, !stored_snd, stored_pairs_fst, stored_pairs_snd.
  repeat split.
Qed.

Lemma stored_keys float32 L (P : nat -> Prop) :
  (forall p, In p L -> P (fst p)) -> Forall (fun p => P (fst p)) (stored float32 L).
Proof.
  intro H. apply Forall_forall. intros q Hq.
  apply in_map_iff in Hq as (p & <- & Hp). simpl. apply (H p Hp).
Qed.

Lemma stored_pairs_keys float32 B (P : nat -> Prop) :
  (forall p, In p B -> P (fst p)) ->
  Forall (fun p => P (fst p)) (stored_pairs float32 B).
Proof.
  intro H. apply Forall_forall. intros q Hq.
  apply in_map_iff in Hq as (p & <- & Hp). simpl. apply (H p Hp).
Qed.

Lemma objective_ei_represents (self : t) means sigmas bs n fm fs sf f :
  represents means (bs ++ [n]) fm -> represents sigmas (bs ++ [n]) fs ->
  (objective_index self < n)%nat ->
  represents (ConstrainedExpectedImprovement.best_f self) sf f ->
  broadcast_shapes sf (bs ++ [1%nat]) = Some (bs ++ [1%nat]) ->
  exists ei, objective_ei self means sigmas = Ok ei /\
    represents ei (bs ++ [1%nat])
      (fun K => let J := removelast K in
                ei_of_sigma (fm (J ++ [objective_index self]))
                  (fs (J ++ [objective_index self])) (f (bidx sf K))
                  (ConstrainedExpectedImprovement.maximize self)).
Proof.
  intros Hm Hs Hobj Hf Hb.
  assert (Hin : Forall (fun i => (i < n)%nat) [objective_index self])
    by (constructor; [exact Hobj | constructor]).
  pose proof (represents_index_last _ _ _ _ _ Hm Hin) as (mo & Emo & Rmo).
  pose proof (represents_index_last _ _ _ _ _ Hs Hin) as (so & Eso & Rso).
  cbn [length] in Rmo, Rso.
  pose proof (represents_expand _ _ _ _ Hf Hb) as (bf & Eb & Rb).
  pose proof (represents_bop_same Rminus _ _ _ _ _ Rmo Rb) as (d0 & Ed & Rd).
  pose proof (represents_bop_same Rdiv _ _ _ _ _ Rd Rso) as (u0 & Eu & Ru).
  set (u := if negb (ConstrainedExpectedImprovement.maximize self) then tneg u0 else u0).
  set (obj := objective_index self) in *.
  set (fu := fun K : list nat =>
               (fm (removelast K ++ [nth (last K 0%nat) [obj] 0%nat]) - f (bidx sf K))
               / fs (removelast K ++ [nth (last K 0%nat) [obj] 0%nat])).
  assert (Ruu : represents u (bs ++ [1%nat])
            (fun K => if ConstrainedExpectedImprovement.maximize self
                      then fu K else - fu K)).
  { unfold u. destruct (ConstrainedExpectedImprovement.maximize self); simpl.
    - exact Ru.
    - apply (represents_tmap Ropp _ _ _ Ru). }
  assert (Hb1 : broadcast_shapes (bs ++ [1%nat]) [1%nat] = Some (bs ++ [1%nat])).
  { rewrite broadcast_shapes_comm. apply broadcast_shapes_suffix. }
  pose proof (std_pdf_represents _ _ _ [1%nat] Ruu Hb1) as (lp & El & Rl).
  pose proof (std_cdf_represents _ _ _ [1%nat] Ruu Hb1) as (ucdf & Ec & Rc).
  pose proof (represents_bop_same Rmult _ _ _ _ _ Ruu Rc) as (uc & Euc & Ruc).
  pose proof (represents_bop_same Rplus _ _ _ _ _ Rl Ruc) as (s & Esum & Rsum).
  pose proof (represents_bop_same Rmult _ _ _ _ _ Rso Rsum) as (out & Eo & Ro).
  exists out. split.
  - unfold objective_ei. fold obj.
    rewrite Emo; cbn [bind]. rewrite Eso; cbn [bind].
    unfold expand_as. replace (shape mo) with (bs ++ [1%nat]) by (symmetry; apply Rmo).
    rewrite Eb; cbn [bind]. rewrite Ed; cbn [bind]. rewrite Eu; cbn [bind].
    fold u. rewrite El; cbn [bind]. rewrite Ec; cbn [bind].
    rewrite Euc; cbn [bind]. rewrite Esum; cbn [bind]. exact Eo.
  - eapply represents_ext; [exact Ro|].
    intros K HK; simpl. unfold ei_of_sigma, fu.
    pose proof HK as HK'. apply in_range_snoc_inv in HK' as (I & c & -> & HI & Hc).
    rewrite last_last, removelast_last.
    assert (c = 0%nat) by lia. subst c. simpl.
    destruct (ConstrainedExpectedImprovement.maximize self); reflexivity.
Qed.

Lemma _get_posterior_unchecked model X :
  _get_posterior model None X false = Ok (posterior model X).
Proof. reflexivity. Qed.

Lemma CEI_forward_represents
    (model : Model) (best_f : Tensor) (obj : nat) (cs : Constraints)
    (maximize : bool) (self : t) X bs d n mu v sf f S float32 :
  let p := posterior model X in
  __init__ float32 model best_f obj cs maximize = Ok self ->
  shape X = bs ++ [1%nat; d] ->
  represents (mean p) (bs ++ [1%nat; n]) mu ->
  represents (variance p) (bs ++ [1%nat; n]) v ->
  (obj < n)%nat ->
  (forall k, In k (keys cs) -> (k < n)%nat) ->
  represents best_f sf f ->
  broadcast_shapes sf (bs ++ [1%nat]) = Some (bs ++ [1%nat]) ->
  broadcast_shapes (bs ++ [1%nat; 1%nat]) (bs ++ [1%nat]) = Some S ->
  exists out S', forward self X = Ok out /\ S = S' ++ [1%nat] /\
    represents out S'
      (fun K' =>
         let K := bidx (bs ++ [1%nat]) (K' ++ [0%nat]) in
         let J := removelast K in
         let m := fun I => mu (removelast I ++ [0%nat; last I 0%nat]) in
         let s := fun I => Rmax (sqrt (v (removelast I ++ [0%nat; last I 0%nat]))) 1e-9 in
         ei_of_sigma (m (J ++ [obj])) (s (J ++ [obj])) (f (bidx sf K)) maximize
         * feasibility m s J (stored float32 (lower_only cs (keys cs)))
             (stored float32 (upper_only cs (keys cs)))
             (stored_pairs float32 (two_sided cs (keys cs)))).
Proof.
  intros p Hinit HX Hm Hv Hobj Hk Hf Hbf Hb.
  pose proof (init_groups _ _ _ _ _ _ _ Hinit)
    as (HLi & HLv & HUi & HUv & HBi & HBv & Hmodel & Hbest & Hoi & Hmax).
  pose proof (represents_squeeze2 _ _ _ _ Hm) as (means & Em & Rm).
  pose proof (represents_squeeze2 _ _ _ _ Hv) as (vs & Ev & Rv).
  pose proof (represents_tmap (fun x => Rmax x 1e-9) _ _ _
                (represents_tmap sqrt _ _ _ Rv)) as Rs.
  rewrite <- Hbest in Hf. rewrite <- Hoi in Hobj.
  pose proof (objective_ei_represents self _ _ _ _ _ _ _ _ Rm Rs Hobj Hf Hbf)
    as (ei & Eei & Rei).
  destruct (prob_feas_represents self X bs d n _ _ _ _ _ _ _ S
              HX Rm Rs HLi HLv HUi HUv HBi HBv) as (pf & cur & Epf & Hcur & Rpf).
  { apply (stored_keys float32 _ (fun k => (k < n)%nat)).
    intros q Hq. apply Hk, (lower_only_keys _ _ _ Hq). }
  { apply (stored_keys float32 _ (fun k => (k < n)%nat)).
    intros q Hq. apply Hk, (upper_only_keys _ _ _ Hq). }
  { apply (stored_pairs_keys float32 _ (fun k => (k < n)%nat)).
    intros q Hq. apply Hk, (two_sided_keys _ _ _ Hq). }
  { exact Hb. }
  assert (Hbc : broadcast_shapes (bs ++ [1%nat]) cur = Some S).
  { rewrite broadcast_shapes_comm. destruct Hcur as [(-> & _) | ->].
    - exact Hb.
    - apply (broadcast_shapes_absorb _ _ _ Hb). }
  pose proof (represents_bop Rmult _ _ _ _ _ _ _ Rei Rpf Hbc) as (r & Er & Rr).
  assert (HS : exists S', S = S' ++ [1%nat]).
  { replace (bs ++ [1%nat; 1%nat]) with ((bs ++ [1%nat]) ++ [1%nat]) in Hb
      by (rewrite <- app_assoc; reflexivity).
    apply (broadcast_shapes_trailing_one _ _ _ Hb). }
  destruct HS as (S' & ->).
  pose proof (represents_squeeze1 _ _ _ Rr) as (out & Eo & Ro).
  exists out, S'. split; [|split; [reflexivity|]].
  - unfold forward. rewrite (t_batch_mode_transform_q1 _ _ _ _ HX).
    rewrite Hmodel, _get_posterior_unchecked. cbn [bind]. fold p.
    rewrite Em; cbn [bind]. rewrite Ev; cbn [bind].
    unfold clamp_min, tsqrt. rewrite Eei; cbn [bind]. rewrite Epf; cbn [bind].
    rewrite Er; cbn [bind]. exact Eo.
  - eapply represents_ext; [exact Ro|].
    intros K' HK'. cbv zeta. rewrite Hoi, Hmax. f_equal.
    destruct Hcur as [(-> & -> & -> & ->) | ->].
    + unfold feasibility, prob_lower, prob_upper, prob_both. reflexivity.
    + rewrite (bidx_same (S' ++ [1%nat]) (K' ++ [0%nat])); [reflexivity|].
      apply in_range_snoc; [exact HK' | lia].
Qed.

End ConstrainedEISpec.







(** [X.expand(n, *X.shape)] stacks [n] copies of [X]. *)
Lemma expand_leading_ok (n : nat) X :
  exists bX, NoisyExpectedImprovement.expand_leading (Z.of_nat n) X = Ok bX /\
    shape bX = n :: shape X /\
    forall j I, (j < n)%nat -> in_range I (shape X) -> get bX (j :: I) = get X I.
Proof.
  unfold NoisyExpectedImprovement.expand_leading.
  destruct (Z.ltb_spec (Z.of_nat n) 0); [lia|].
  rewrite Nat2Z.id. unfold expand.
  pose proof (broadcast_shapes_suffix [n] (shape X)) as Hs. cbn [app] in Hs.
  rewrite Hs.
  destruct (list_eq_dec Nat.eq_dec (n :: shape X) (n :: shape X)); [|contradiction].
  eexists; split; [reflexivity | split; [reflexivity|]].
  intros j I Hj HI.
  rewrite get_tabulate by (constructor; assumption).
  f_equal. apply (bidx_suffix (shape X) [j] I HI).
Qed.

Section NEI.

Variable Hyper : Type.
Variable gp_posterior : NoisyExpectedImprovement.FixedNoiseGP Hyper -> Tensor -> Posterior.
Variable default_hyper : Hyper.
Variable draw : nat -> Posterior -> Tensor.

Let init := NoisyExpectedImprovement.__init__ Hyper gp_posterior default_hyper draw.

Lemma sampler_positive (nf : nat) p :
  nf <> 0%nat ->
  NoisyExpectedImprovement.SobolQMCNormalSampler draw (Z.of_nat nf) p
  = Ok (draw nf p).
Proof.
  intro H. unfold NoisyExpectedImprovement.SobolQMCNormalSampler.
  destruct (Z.leb_spec (Z.of_nat nf) 0); [lia|]. rewrite Nat2Z.id. reflexivity.
Qed.

(** Construction from [nf >= 1] fantasies of [m >= 1] targets: the
    acquisition function built, the fantasy model it holds and the
    per-fantasy best values. *)
Lemma NEI_init_represents g X_observed (nf m : nat) maximize Y :
  represents (draw nf (gp_posterior g X_observed)) [nf; m; 1%nat] Y ->
  nf <> 0%nat -> m <> 0%nat ->
  exists self fantasy_model,
    init (NoisyExpectedImprovement.IsFixedNoiseGP Hyper g) X_observed
      (Z.of_nat nf) maximize = Ok self /\
    ExpectedImprovement.maximize self = maximize /\
    ExpectedImprovement.objective self = None /\
    ExpectedImprovement.model self =
      NoisyExpectedImprovement.as_model Hyper gp_posterior fantasy_model /\
    shape (NoisyExpectedImprovement.train_inputs Hyper fantasy_model)
      = nf :: shape X_observed /\
    (forall j I, (j < nf)%nat -> in_range I (shape X_observed) ->
       get (NoisyExpectedImprovement.train_inputs Hyper fantasy_model) (j :: I)
       = get X_observed I) /\
    represents (NoisyExpectedImprovement.train_targets Hyper fantasy_model)
      [nf; m] (fun I => Y (I ++ [0%nat])) /\
    NoisyExpectedImprovement.noise Hyper fantasy_model = full [nf; m] 1e-7 /\
    NoisyExpectedImprovement.state_dict Hyper fantasy_model
      = NoisyExpectedImprovement.state_dict Hyper g /\
    represents (ExpectedImprovement.best_f self) [nf]
      (fun J => (if maximize then Rmaximum else Rminimum)
                  (map (fun c => Y (J ++ [c; 0%nat])) (seq 0 m))).
Proof.
  intros HY Hnf Hm.
  pose proof (represents_squeeze1 _ [nf; m] _ HY) as (Yf & EY & RY).
  pose proof (expand_leading_ok nf X_observed) as (bX & EX & HbX & HgX).
  pose proof (represents_extremum_last Rmaximum _ [nf] m _ RY Hm) as (bmax & Emax & Rmax').
  pose proof (represents_extremum_last Rminimum _ [nf] m _ RY Hm) as (bmin & Emin & Rmin').
  exists (ExpectedImprovement.mk
            (NoisyExpectedImprovement.as_model Hyper gp_posterior
               (NoisyExpectedImprovement._get_noiseless_fantasy_model Hyper
                  default_hyper g bX Yf))
            None maximize (if maximize then bmax else bmin)),
    (NoisyExpectedImprovement._get_noiseless_fantasy_model Hyper default_hyper g bX Yf).
  split.
  { unfold init, NoisyExpectedImprovement.__init__.
    rewrite (sampler_positive nf _ Hnf); cbn [bind].
    rewrite EY; cbn [bind]. rewrite EX; cbn [bind].
    unfold max_last, min_last.
    destruct maximize; [rewrite Emax | rewrite Emin]; reflexivity. }
  split; [reflexivity|]. split; [reflexivity|]. split; [reflexivity|].
  unfold NoisyExpectedImprovement._get_noiseless_fantasy_model,
    NoisyExpectedImprovement.load_state_dict, NoisyExpectedImprovement.set_noise,
    NoisyExpectedImprovement.set_train_data.
  cbn [NoisyExpectedImprovement.train_inputs NoisyExpectedImprovement.train_targets
       NoisyExpectedImprovement.noise NoisyExpectedImprovement.state_dict].
  split; [exact HbX|]. split; [exact HgX|]. split; [exact RY|].
  split; [unfold full_like; rewrite (proj1 RY); reflexivity|].
  split; [reflexivity|].
  simpl. destruct maximize.
  - eapply represents_ext; [exact Rmax'|]. intros J HJ; simpl.
    f_equal. apply map_ext. intro c. rewrite <- app_assoc. reflexivity.
  - eapply represents_ext; [exact Rmin'|]. intros J HJ; simpl.
    f_equal. apply map_ext. intro c. rewrite <- app_assoc. reflexivity.
Qed.


End NEI.


(** ** Constrained Expected Improvement on two batch dimensions *)

Module ConstrainedEIBatch.

Import ConstrainedExpectedImprovement.
Import ConstrainedEISpec.

(** Broadcasting [a x b x 1 x 1] against [a x b x 1] aligns [b] with [a]. *)
Lemma broadcast_two_batch_dims a b :
  a <> b -> a <> 1%nat -> b <> 1%nat ->
  broadcast_shapes [a; b; 1%nat; 1%nat] [a; b; 1%nat] = None /\
  broadcast_shapes [a; b; 1%nat] [a; b; 1%nat; 1%nat] = None.
Proof.
  intros Hab Ha Hb.
  assert (H1 : bdim 1 b = Some b).
  { unfold bdim. destruct (Nat.eqb_spec 1 b); [congruence | reflexivity]. }
  assert (H2 : bdim b 1 = Some b).
  { unfold bdim. destruct (Nat.eqb_spec b 1); [congruence | reflexivity]. }
  assert (H3 : bdim b a = None).
  { unfold bdim. destruct (Nat.eqb_spec b a); [congruence|].
    destruct (Nat.eqb_spec b 1); [congruence|].
    destruct (Nat.eqb_spec a 1); [congruence | reflexivity]. }
  assert (H4 : bdim a b = None) by (rewrite bdim_comm; exact H3).
  unfold broadcast_shapes; simpl. rewrite H1, H2, H3, H4. split; reflexivity.
Qed.

Lemma bop_shape_mismatch g x y sx sy :
  shape x = sx -> shape y = sy -> broadcast_shapes sx sy = None ->
  bop g x y = Err RuntimeError.
Proof. intros <- <- H. unfold bop. rewrite H. reflexivity. Qed.

(** On a batch [a x b] the feasibility probability cannot be formed: the
    first product with a group fails; with no group at all the tensor of
    ones is returned. *)
Lemma prob_feas_two_batch_dims (self : t) X a b d n means sigmas fm fs L U B :
  shape X = [a; b; 1%nat; d] ->
  represents means [a; b; n] fm -> represents sigmas [a; b; n] fs ->
  constraint_lower_inds self = map fst L ->
  constraint_lower self = tensor_of_list (map snd L) ->
  constraint_upper_inds self = map fst U ->
  constraint_upper self = tensor_of_list (map snd U) ->
  constraint_both_inds self = map fst B ->
  constraint_both self = tensor_of_pairs (map snd B) ->
  Forall (fun p => (fst p < n)%nat) L ->
  Forall (fun p => (fst p < n)%nat) U ->
  Forall (fun p => (fst p < n)%nat) B ->
  a <> b -> a <> 1%nat -> b <> 1%nat ->
  _compute_prob_feas self X means sigmas
  = match L, U, B with
    | [], [], [] => Ok (ones [a; b; 1%nat; 1%nat])
    | _, _, _ => Err RuntimeError
    end.
Proof.
  intros HX Hm Hs HLi HLv HUi HUv HBi HBv HL HU HB Hab Ha Hb.
  destruct (broadcast_two_batch_dims a b Hab Ha Hb) as [Hbc _].
  unfold _compute_prob_feas. rewrite HX.
  change [a; b; 1%nat; d] with ([a; b; 1%nat] ++ [d]).
  rewrite set_last_snoc. cbn [app bind].
  rewrite HLi, HLv, HUi, HUv, HBi, HBv, !length_map.
  set (pf0 := ones [a; b; 1%nat; 1%nat]).
  assert (Hpf0 : shape pf0 = [a; b; 1%nat; 1%nat]) by reflexivity.
  destruct L as [|l0 L'].
  - cbn [length Nat.ltb Nat.leb bind].
    destruct U as [|u0 U'].
    + cbn [length Nat.ltb Nat.leb bind].
      destruct B as [|b0 B'].
      * reflexivity.
      * cbn [length Nat.ltb Nat.leb].
        destruct (both_group means sigmas [a; b] n fm fs Hm Hs (b0 :: B')
                    ltac:(discriminate) HB)
          as (N & up & cu & lo & cl & diff & p & EN & Eup & Ecu & Elo & Ecl & Ed & Ep & Rp).
        rewrite EN; cbn [bind]. rewrite Eup; cbn [bind]. rewrite Ecu; cbn [bind].
        rewrite Elo; cbn [bind]. rewrite Ecl; cbn [bind]. rewrite Ed; cbn [bind].
        rewrite Ep; cbn [bind].
        apply (bop_shape_mismatch _ _ _ _ _ Hpf0 (proj1 Rp) Hbc).
    + cbn [length Nat.ltb Nat.leb].
      destruct (upper_group means sigmas [a; b] n fm fs Hm Hs (u0 :: U') HU)
        as (N & c & p & EN & Ec & Ep & Rp).
      rewrite EN; cbn [bind]. rewrite Ec; cbn [bind]. rewrite Ep; cbn [bind].
      rewrite (bop_shape_mismatch _ _ _ _ _ Hpf0 (proj1 Rp) Hbc). reflexivity.
  - cbn [length Nat.ltb Nat.leb].
    destruct (lower_group means sigmas [a; b] n fm fs Hm Hs (l0 :: L') HL)
      as (N & c & p & EN & Ec & Ep & Rp).
    rewrite EN; cbn [bind]. rewrite Ec; cbn [bind]. rewrite Ep; cbn [bind].
    rewrite (bop_shape_mismatch _ _ _ _ _ Hpf0 (proj1 Rp) Hbc). reflexivity.
Qed.

Lemma CEI_forward_two_batch_dims
    (float32 : R -> R) (model : Model) (best_f : Tensor) (obj : nat)
    (cs : Constraints) (maximize : bool) (self : t) X a b d n mu v sf f :
  let p := posterior model X in
  __init__ float32 model best_f obj cs maximize = Ok self ->
  shape X = [a; b; 1%nat; d] ->
  represents (mean p) [a; b; 1%nat; n] mu ->
  represents (variance p) [a; b; 1%nat; n] v ->
  (obj < n)%nat ->
  (forall k, In k (keys cs) -> (k < n)%nat) ->
  represents best_f sf f ->
  broadcast_shapes sf [a; b; 1%nat] = Some [a; b; 1%nat] ->
  a <> b -> a <> 1%nat -> b <> 1%nat ->
  forward self X = Err RuntimeError.
Proof.
  intros p Hinit HX Hm Hv Hobj Hk Hf Hbf Hab Ha Hb.
  pose proof (init_groups _ _ _ _ _ _ _ Hinit)
    as (HLi & HLv & HUi & HUv & HBi & HBv & Hmodel & Hbest & Hoi & Hmax).
  pose proof (represents_squeeze2 _ [a; b] _ _ Hm) as (means & Em & Rm).
  pose proof (represents_squeeze2 _ [a; b] _ _ Hv) as (vs & Ev & Rv).
  pose proof (represents_tmap (fun x => Rmax x 1e-9) _ _ _
                (represents_tmap sqrt _ _ _ Rv)) as Rs.
  rewrite <- Hbest in Hf. rewrite <- Hoi in Hobj.
  pose proof (objective_ei_represents self _ _ [a; b] _ _ _ _ _ Rm Rs Hobj Hf Hbf)
    as (ei & Eei & Rei).
  pose proof (prob_feas_two_batch_dims self X a b d n _ _ _ _ _ _ _
                HX Rm Rs HLi HLv HUi HUv HBi HBv
                (stored_keys float32 _ (fun k => (k < n)%nat)
                   (fun q Hq => Hk _ (lower_only_keys _ _ _ Hq)))
                (stored_keys float32 _ (fun k => (k < n)%nat)
                   (fun q Hq => Hk _ (upper_only_keys _ _ _ Hq)))
                (stored_pairs_keys float32 _ (fun k => (k < n)%nat)
                   (fun q Hq => Hk _ (two_sided_keys _ _ _ Hq)))
                Hab Ha Hb) as Hpf.
  unfold forward.
  rewrite (t_batch_mode_transform_q1 _ _ [a; b] d HX).
  rewrite Hmodel, _get_posterior_unchecked. cbn [bind]. fold p.
  rewrite Em; cbn [bind]. rewrite Ev; cbn [bind].
  unfold clamp_min, tsqrt. rewrite Eei; cbn [bind].
  rewrite Hpf.
  destruct (broadcast_two_batch_dims a b Hab Ha Hb) as [_ Hbc].
  pose proof (bop_shape_mismatch Rmult ei (ones [a; b; 1%nat; 1%nat]) _ _
                (proj1 Rei) eq_refl Hbc) as Hmul.
  destruct (stored float32 (lower_only cs (keys cs))) as [|? ?];
    [|reflexivity].
  destruct (stored float32 (upper_only cs (keys cs))) as [|? ?];
    [|reflexivity].
  destruct (stored_pairs float32 (two_sided cs (keys cs))) as [|? ?];
    [|reflexivity].
  cbn [bind]. rewrite Hmul. reflexivity.
Qed.

End ConstrainedEIBatch.

(** * The claims *)

(** ** Inputs used to exercise the theorems *)

(** A two-candidate batch [2 x 1 x 1]. *)
Definition X_batch2 : Tensor := mkTensor [2%nat; 1%nat; 1%nat] [0; 0].

(** A single-output model whose posterior has mean 1 and variance 4
    everywhere on a batch of two. *)
Definition model_single : Model :=
  mkModel (fun _ => mkPosterior (full [2%nat; 1%nat; 1%nat] 1)
                      (full [2%nat; 1%nat; 1%nat] 4)).

(** A two-output model (output 0 constrained, output 1 the objective) with
    mean 0 and variance 1 everywhere on a batch of two. *)
Definition model_two_outputs : Model :=
  mkModel (fun _ => mkPosterior (full [2%nat; 1%nat; 2%nat] 0)
                      (full [2%nat; 1%nat; 2%nat] 1)).

(** [{0: (0.0, None)}] *)
Definition constraints_lower0 : ConstrainedExpectedImprovement.Constraints :=
  [(0%nat, (Some 0, None))].

Definition cei_lower0 : ConstrainedExpectedImprovement.t :=
  ConstrainedExpectedImprovement.mk model_two_outputs true 1 constraints_lower0
    (scalar 0) [0%nat] [] [] (tensor_of_pairs []) (tensor_of_list [0])
    (tensor_of_list []).

(** Single-precision rounding on the bounds it leaves unchanged: the
    bounds used below (0, 1 and -1) are single-precision numbers. *)
Definition float32_exact (x : R) : R := x.

Lemma float32_exact_monotone x y : x <= y -> float32_exact x <= float32_exact y.
Proof. unfold float32_exact. auto. Qed.

Lemma cei_lower0_init :
  ConstrainedExpectedImprovement.__init__ float32_exact model_two_outputs
    (scalar 0) 1 constraints_lower0 true = Ok cei_lower0.
Proof. reflexivity. Qed.

(** C1.  On a candidate batch [bs x 1 x d] whose posterior has mean [mu] and
    variance [v] (shape [bs x 1 x 1]) and with a best observed value that
    broadcasts to the batch (a scalar or a per-batch tensor),
    [ExpectedImprovement.forward] returns, for every batch element,
    [sigma * (pdf u + u * cdf u)] with [sigma = sqrt (max v 1e-9)] and
    [u = (mu - best_f) / sigma], negated when [maximize] is false. *)
Theorem expected_improvement_formula
    (self : ExpectedImprovement.t) (X : Tensor) (bs : list nat) (d : nat)
    (sf : list nat) (mu v f : list nat -> R) :
  let p := posterior_at (ExpectedImprovement.model self)
             (ExpectedImprovement.objective self) X in
  shape X = bs ++ [1%nat; d] ->
  represents (mean p) (bs ++ [1%nat; 1%nat]) mu ->
  represents (variance p) (bs ++ [1%nat; 1%nat]) v ->
  represents (ExpectedImprovement.best_f self) sf f ->
  broadcast_shapes sf bs = Some bs ->
  exists ei, ExpectedImprovement.forward self X = Ok ei /\ shape ei = bs /\
    forall I, in_range I bs ->
      let sigma := sqrt (Rmax (v (I ++ [0%nat; 0%nat])) 1e-9) in
      let u0 := (mu (I ++ [0%nat; 0%nat]) - f (bidx sf I)) / sigma in
      let u := if ExpectedImprovement.maximize self then u0 else - u0 in
      get ei I = sigma * (std_normal_pdf u + u * std_normal_cdf u).
Proof.
  intros p HX Hm Hv Hf Hb.
  destruct (EI_forward_represents self X bs d bs sf mu v f HX (Nat.le_refl _) Hm Hv Hf Hb)
    as (ei & E & (Hs & _ & Hg)).
  exists ei. split; [exact E | split; [exact Hs|]].
  intros I HI. cbv zeta. rewrite (Hg I HI). reflexivity.
Qed.

(** The formula at a batch of two with a scalar best value. *)
Lemma expected_improvement_formula_witness :
  exists ei,
    ExpectedImprovement.forward
      (ExpectedImprovement.mk model_single None true (scalar 0)) X_batch2 = Ok ei /\
    shape ei = [2%nat].
Proof.
  destruct (expected_improvement_formula
              (ExpectedImprovement.mk model_single None true (scalar 0)) X_batch2
              [2%nat] 1 [] (fun _ => 1) (fun _ => 4) (fun _ => 0)
              eq_refl (represents_full _ _) (represents_full _ _)
              (represents_scalar 0) eq_refl) as (ei & H1 & H2 & _).
  exists ei. split; assumption.
Defined.

(** C2.  The feasibility probability is not computed for every
    multi-output posterior: on a batch with two batch dimensions of
    different sizes ([X] of shape [2 x 3 x 1 x 1], means and standard
    deviations of shape [2 x 3 x 2]) and the constraint [{0: (0.0, None)}],
    [_compute_prob_feas] raises a [RuntimeError].  The tensor of ones it
    starts from has the shape of [X] with the last dimension set to 1
    ([2 x 3 x 1 x 1]) and does not broadcast against the product over the
    group ([2 x 3 x 1]). *)
Theorem feasibility_probability_two_batch_dims :
  let X := zeros [2%nat; 3%nat; 1%nat; 1%nat] in
  let means := full [2%nat; 3%nat; 2%nat] 0 in
  let sigmas := full [2%nat; 3%nat; 2%nat] 1 in
  ConstrainedExpectedImprovement._compute_prob_feas cei_lower0 X means sigmas
  = Err RuntimeError.
Proof.
  intros X means sigmas.
  rewrite (ConstrainedEIBatch.prob_feas_two_batch_dims cei_lower0 X 2 3 1 2
             means sigmas (fun _ => 0) (fun _ => 1) [(0%nat, 0)] [] []
             eq_refl (represents_full _ _) (represents_full _ _)
             eq_refl eq_refl eq_refl eq_refl eq_refl eq_refl).
  - reflexivity.
  - repeat constructor.
  - constructor.
  - constructor.
  - lia.
  - lia.
  - lia.
Qed.

(** C3.  Evaluated on the same objective marginal (mean 0, variance 0) with
    the same best value 0 and [maximize] true, the Expected-Improvement
    factor of [ConstrainedExpectedImprovement.forward] and the value of
    [ExpectedImprovement.forward] differ: the former clamps the standard
    deviation after the square root ([1e-9]), the latter clamps the
    variance before it ([sqrt 1e-9]). *)
Theorem constrained_ei_objective_factor_differs :
  let X := mkTensor [1%nat; 1%nat; 1%nat] [0] in
  let p := mkPosterior (mkTensor [1%nat; 1%nat; 2%nat] [0; 0])
             (mkTensor [1%nat; 1%nat; 2%nat] [1; 0]) in
  let marginal := mkPosterior (mkTensor [1%nat; 1%nat; 1%nat] [0])
                    (mkTensor [1%nat; 1%nat; 1%nat] [0]) in
  let cei := ConstrainedExpectedImprovement.mk (mkModel (fun _ => p)) true 1
               constraints_lower0 (scalar 0) [0%nat] [] []
               (tensor_of_pairs []) (tensor_of_list [0]) (tensor_of_list []) in
  let ei := ExpectedImprovement.mk (mkModel (fun _ => marginal)) None true
              (scalar 0) in
  exists means vars a b,
    squeeze 2 (mean p) = Ok means /\
    squeeze 2 (variance p) = Ok vars /\
    ConstrainedExpectedImprovement.objective_ei cei means
      (clamp_min 1e-9 (tsqrt vars)) = Ok a /\
    ExpectedImprovement.forward ei X = Ok b /\
    get a [0%nat; 0%nat] = 1e-9 * std_normal_pdf 0 /\
    get b [0%nat] = sqrt 1e-9 * std_normal_pdf 0 /\
    get a [0%nat; 0%nat] <> get b [0%nat].
Proof.
  intros X p marginal cei ei.
  assert (Hm : represents (mean p) ([1%nat] ++ [1%nat; 2%nat]) (get (mean p)))
    by (apply represents_self; reflexivity).
  assert (Hv : represents (variance p) ([1%nat] ++ [1%nat; 2%nat]) (get (variance p)))
    by (apply represents_self; reflexivity).
  pose proof (represents_squeeze2 _ _ _ _ Hm) as (means & Em & Rm).
  pose proof (represents_squeeze2 _ _ _ _ Hv) as (vars & Ev & Rv).
  pose proof (represents_tmap (fun x => Rmax x 1e-9) _ _ _
                (represents_tmap sqrt _ _ _ Rv)) as Rs.
  destruct (ConstrainedEISpec.objective_ei_represents cei _ _ [1%nat] 2 _ _ []
              (fun _ => 0) Rm Rs ltac:(simpl; lia) (represents_scalar 0) eq_refl)
    as (a & Ea & (_ & _ & Ha)).
  destruct (EI_forward_represents ei X [1%nat] 1 [1%nat] [] (fun _ => 0) (fun _ => 0)
              (fun _ => 0) eq_refl (Nat.le_refl _))
    as (b & Eb & (_ & _ & Hb)).
  { split; [reflexivity | split; [reflexivity|]]. intros I HI.
    inversion HI as [|i0 k0 I0 s0 Hi0 HI0]; subst.
    inversion HI0 as [|i1 k1 I1 s1 Hi1 HI1]; subst.
    inversion HI1 as [|i2 k2 I2 s2 Hi2 HI2]; subst. inversion HI2; subst.
    assert (i0 = 0 /\ i1 = 0 /\ i2 = 0)%nat as (-> & -> & ->) by lia. reflexivity. }
  { split; [reflexivity | split; [reflexivity|]]. intros I HI.
    inversion HI as [|i0 k0 I0 s0 Hi0 HI0]; subst.
    inversion HI0 as [|i1 k1 I1 s1 Hi1 HI1]; subst.
    inversion HI1 as [|i2 k2 I2 s2 Hi2 HI2]; subst. inversion HI2; subst.
    assert (i0 = 0 /\ i1 = 0 /\ i2 = 0)%nat as (-> & -> & ->) by lia. reflexivity. }
  { apply represents_scalar. }
  { reflexivity. }
  assert (HA : get a [0%nat; 0%nat] = 1e-9 * std_normal_pdf 0).
  { rewrite Ha by (repeat constructor).
    cbv zeta. unfold ei_of_sigma.
    change (ConstrainedExpectedImprovement.maximize cei) with true.
    change (ConstrainedExpectedImprovement.objective_index cei) with 1%nat.
    cbn [removelast app last].
    change (get (variance p) [0%nat; 0%nat; 1%nat]) with 0.
    change (get (mean p) [0%nat; 0%nat; 1%nat]) with 0.
    rewrite sqrt_0, Rmax_right by lra.
    replace ((0 - 0) / 1e-9) with 0 by (field; lra). ring. }
  assert (HB : get b [0%nat] = sqrt 1e-9 * std_normal_pdf 0).
  { rewrite Hb by (repeat constructor).
    unfold ei_value. change (ExpectedImprovement.maximize ei) with true. cbv zeta.
    rewrite Rmax_right by lra.
    replace ((0 - 0) / sqrt 1e-9) with 0.
    - ring.
    - unfold Rdiv. ring. }
  exists means, vars, a, b.
  repeat (split; [assumption|]).
  rewrite HA, HB. intro Heq.
  pose proof (std_normal_pdf_pos 0) as Hpos.
  apply Rmult_eq_reg_r in Heq; [|lra].
  assert (H2 : sqrt 1e-9 * sqrt 1e-9 = 1e-9) by (apply sqrt_sqrt; lra).
  rewrite <- Heq in H2. lra.
Qed.

(** C6.  For a posterior with non-negative variance and trade-off
    coefficients [0 <= beta1 <= beta2], [UpperConfidenceBound] with
    [maximize = True] minus [PosteriorMean] is [sqrt (beta * variance)] at
    every batch element; it is non-negative, and it does not decrease from
    [beta1] to [beta2]. *)
Theorem ucb_minus_posterior_mean
    (model : Model) (objective : option ScalarizedObjective) (X : Tensor)
    (bs : list nat) (d : nat) (beta1 beta2 : Tensor) (sb1 sb2 : list nat)
    (mu v f1 f2 : list nat -> R) :
  let p := posterior_at model objective X in
  shape X = bs ++ [1%nat; d] ->
  represents (mean p) (bs ++ [1%nat; 1%nat]) mu ->
  represents (variance p) (bs ++ [1%nat; 1%nat]) v ->
  represents beta1 sb1 f1 -> broadcast_shapes sb1 bs = Some bs ->
  represents beta2 sb2 f2 -> broadcast_shapes sb2 bs = Some bs ->
  (forall I, in_range I bs -> 0 <= v (I ++ [0%nat; 0%nat])) ->
  (forall I, in_range I bs -> 0 <= f1 (bidx sb1 I) <= f2 (bidx sb2 I)) ->
  exists ucb1 ucb2 pm,
    UpperConfidenceBound.forward
      (UpperConfidenceBound.mk model objective true beta1) X = Ok ucb1 /\
    UpperConfidenceBound.forward
      (UpperConfidenceBound.mk model objective true beta2) X = Ok ucb2 /\
    PosteriorMean.forward (PosteriorMean.mk model objective) X = Ok pm /\
    forall I, in_range I bs ->
      get ucb1 I - get pm I = sqrt (f1 (bidx sb1 I) * v (I ++ [0%nat; 0%nat])) /\
      0 <= get ucb1 I - get pm I /\
      get ucb1 I - get pm I <= get ucb2 I - get pm I.
Proof.
  intros p HX Hm Hv Hb1 Hs1 Hb2 Hs2 Hvar Hbeta.
  destruct (UCB_forward_represents (UpperConfidenceBound.mk model objective true beta1)
              X bs d sb1 mu v f1 HX Hm Hv Hb1 Hs1) as (u1 & E1 & (_ & _ & G1)).
  destruct (UCB_forward_represents (UpperConfidenceBound.mk model objective true beta2)
              X bs d sb2 mu v f2 HX Hm Hv Hb2 Hs2) as (u2 & E2 & (_ & _ & G2)).
  destruct (PM_forward_represents (PosteriorMean.mk model objective) X bs d mu HX Hm)
    as (pm & E3 & (_ & _ & G3)).
  exists u1, u2, pm. repeat (split; [assumption|]).
  intros I HI. rewrite (G1 I HI), (G2 I HI), (G3 I HI). unfold ucb_value; simpl.
  specialize (Hvar I HI). specialize (Hbeta I HI).
  set (m := mu (I ++ [0%nat; 0%nat])) in *. set (w := v (I ++ [0%nat; 0%nat])) in *.
  assert (Hmono : sqrt (f1 (bidx sb1 I) * w) <= sqrt (f2 (bidx sb2 I) * w)).
  { apply sqrt_le_1_alt. apply Rmult_le_compat_r; lra. }
  pose proof (sqrt_pos (f1 (bidx sb1 I) * w)).
  split; [ring | split; lra].
Qed.

(** The difference at a batch of two, for [beta = 1] and [beta = 2]. *)
Lemma ucb_minus_posterior_mean_witness :
  exists ucb1 ucb2 pm,
    UpperConfidenceBound.forward
      (UpperConfidenceBound.mk model_single None true (scalar 1)) X_batch2 = Ok ucb1 /\
    UpperConfidenceBound.forward
      (UpperConfidenceBound.mk model_single None true (scalar 2)) X_batch2 = Ok ucb2 /\
    PosteriorMean.forward (PosteriorMean.mk model_single None) X_batch2 = Ok pm.
Proof.
  destruct (ucb_minus_posterior_mean model_single None X_batch2 [2%nat] 1
              (scalar 1) (scalar 2) [] [] (fun _ => 1) (fun _ => 4)
              (fun _ => 1) (fun _ => 2)
              eq_refl (represents_full _ _) (represents_full _ _)
              (represents_scalar 1) eq_refl (represents_scalar 2) eq_refl)
    as (u1 & u2 & pm & H1 & H2 & H3 & _).
  - intros I _. lra.
  - intros I _. lra.
  - exists u1, u2, pm. repeat split; assumption.
Defined.

(** C7.  On a batch of two candidates ([X] of shape [2 x 1 x 1]) with one
    lower-bounded constraint, [ConstrainedExpectedImprovement.forward]
    returns a tensor of shape [2 x 2], not the batch shape [2]. *)
Theorem constrained_ei_output_shape :
  drop_last 2 (shape X_batch2) = [2%nat] /\
  exists out,
    ConstrainedExpectedImprovement.forward cei_lower0 X_batch2 = Ok out /\
    shape out = [2%nat; 2%nat].
Proof.
  split; [reflexivity|].
  destruct (ConstrainedEISpec.CEI_forward_represents model_two_outputs (scalar 0) 1
              constraints_lower0 true cei_lower0 X_batch2 [2%nat] 1 2
              (fun _ => 0) (fun _ => 1) [] (fun _ => 0) [2%nat; 2%nat; 1%nat]
              float32_exact
              cei_lower0_init eq_refl (represents_full _ _) (represents_full _ _))
    as (out & S' & E & HS & (Hsh & _)).
  - lia.
  - intros k [<- | []]. simpl. lia.
  - apply represents_scalar.
  - reflexivity.
  - reflexivity.
  - exists out. split; [exact E|]. rewrite Hsh.
    apply (app_inj_tail [2%nat; 2%nat] S' 1%nat 1%nat) in HS. symmetry. apply HS.
Qed.

(** C8.  Construction of [ConstrainedExpectedImprovement] fails with a
    [ValueError] when the constraints are empty, when the objective index is
    among the constrained indices, and when a two-sided bound has
    [upper <= lower]; it succeeds when none of these holds. *)
Theorem constrained_ei_construction_validation
    (float32 : R -> R) (model : Model) (best_f : Tensor) (objective_index : nat)
    (constraints : ConstrainedExpectedImprovement.Constraints) (maximize : bool) :
  (constraints = [] ->
   ConstrainedExpectedImprovement.__init__ float32 model best_f objective_index
     constraints maximize = Err ValueError) /\
  (In objective_index (ConstrainedExpectedImprovement.keys constraints) ->
   ConstrainedExpectedImprovement.__init__ float32 model best_f objective_index
     constraints maximize = Err ValueError) /\
  ((exists k lo up,
      ConstrainedExpectedImprovement.dict_get constraints k
        = Some (Some lo, Some up) /\ up <= lo) ->
   ConstrainedExpectedImprovement.__init__ float32 model best_f objective_index
     constraints maximize = Err ValueError) /\
  (constraints <> [] ->
   ~ In objective_index (ConstrainedExpectedImprovement.keys constraints) ->
   (forall k lo up,
      ConstrainedExpectedImprovement.dict_get constraints k
        = Some (Some lo, Some up) -> lo < up) ->
   exists self,
     ConstrainedExpectedImprovement.__init__ float32 model best_f objective_index
       constraints maximize = Ok self).
Proof.
  unfold ConstrainedExpectedImprovement.__init__.
  split; [|split; [|split]].
  - intros ->. reflexivity.
  - intro H. rewrite (ConstrainedEISpec.preprocess_objective _ _ H). reflexivity.
  - intros (k & lo & up & Hget & Hle).
    rewrite (ConstrainedEISpec.preprocess_invalid _ _ _ _ _ Hget Hle). reflexivity.
  - intros Hne Hobj Hv.
    destruct (ConstrainedEISpec.preprocess_valid _ _ Hne Hobj Hv) as (b & ->).
    eexists; reflexivity.
Qed.

(** C9, as stated, fails: a constraint whose two bounds are both [None] is
    accepted at construction. *)
Lemma unbounded_constraint_accepted :
  exists self,
    ConstrainedExpectedImprovement.__init__ float32_exact model_two_outputs
      (scalar 0) 1 [(0%nat, (None, None))] true = Ok self.
Proof. eexists. reflexivity. Qed.

Lemma lower_only_get cs ks p :
  In p (ConstrainedEISpec.lower_only cs ks) ->
  ConstrainedExpectedImprovement.dict_get cs (fst p) = Some (Some (snd p), None).
Proof.
  induction ks as [|k ks IH]; simpl; [tauto|].
  destruct (ConstrainedExpectedImprovement.dict_get cs k) as [[[lo|] [up|]]|] eqn:E;
    simpl; try tauto.
  intros [<- | H]; simpl; auto.
Qed.

Lemma upper_only_get cs ks p :
  In p (ConstrainedEISpec.upper_only cs ks) ->
  ConstrainedExpectedImprovement.dict_get cs (fst p) = Some (None, Some (snd p)).
Proof.
  induction ks as [|k ks IH]; simpl; [tauto|].
  destruct (ConstrainedExpectedImprovement.dict_get cs k) as [[[lo|] [up|]]|] eqn:E;
    simpl; try tauto.
  intros [<- | H]; simpl; auto.
Qed.

Lemma two_sided_get cs ks p :
  In p (ConstrainedEISpec.two_sided cs ks) ->
  ConstrainedExpectedImprovement.dict_get cs (fst p)
    = Some (Some (fst (snd p)), Some (snd (snd p))).
Proof.
  induction ks as [|k ks IH]; simpl; [tauto|].
  destruct (ConstrainedExpectedImprovement.dict_get cs k) as [[[lo|] [up|]]|] eqn:E;
    simpl; try tauto.
  intros [<- | H]; simpl; auto.
Qed.

(** C9, amended.  Construction does not require a finite bound: when the
    constraints are not empty, the objective index is not constrained and
    every two-sided bound has [lower < upper], construction succeeds
    whatever entries have both bounds [None], and such an entry is placed in
    none of the three constraint groups. *)
Theorem constrained_ei_unbounded_entries_skipped
    (float32 : R -> R) (model : Model) (best_f : Tensor) (objective_index : nat)
    (constraints : ConstrainedExpectedImprovement.Constraints) (maximize : bool) :
  constraints <> [] ->
  ~ In objective_index (ConstrainedExpectedImprovement.keys constraints) ->
  (forall k lo up,
     ConstrainedExpectedImprovement.dict_get constraints k
       = Some (Some lo, Some up) -> lo < up) ->
  exists self,
    ConstrainedExpectedImprovement.__init__ float32 model best_f objective_index
      constraints maximize = Ok self /\
    forall k,
      ConstrainedExpectedImprovement.dict_get constraints k = Some (None, None) ->
      ~ In k (ConstrainedExpectedImprovement.constraint_lower_inds self) /\
      ~ In k (ConstrainedExpectedImprovement.constraint_upper_inds self) /\
      ~ In k (ConstrainedExpectedImprovement.constraint_both_inds self).
Proof.
  intros Hne Hobj Hv.
  destruct (ConstrainedEISpec.preprocess_valid _ _ Hne Hobj Hv) as (b & Hb).
  assert (Hinit : ConstrainedExpectedImprovement.__init__ float32 model best_f
                    objective_index constraints maximize
                  = Ok (ConstrainedExpectedImprovement.mk model maximize
                          objective_index constraints best_f
                          (ConstrainedExpectedImprovement.lower_inds b)
                          (ConstrainedExpectedImprovement.upper_inds b)
                          (ConstrainedExpectedImprovement.both_inds b)
                          (ConstrainedExpectedImprovement.float_tensor_of_pairs float32
                             (ConstrainedExpectedImprovement.both b))
                          (ConstrainedExpectedImprovement.float_tensor float32
                             (ConstrainedExpectedImprovement.lower b))
                          (ConstrainedExpectedImprovement.float_tensor float32
                             (ConstrainedExpectedImprovement.upper b)))).
  { unfold ConstrainedExpectedImprovement.__init__. rewrite Hb. reflexivity. }
  eexists. split; [exact Hinit|].
  apply ConstrainedEISpec.init_groups in Hinit
    as (HLi & _ & HUi & _ & HBi & _).
  intros k Hk.
  rewrite HLi, HUi, HBi, !ConstrainedEISpec.stored_fst, ConstrainedEISpec.stored_pairs_fst.
  split; [|split]; intro Hin; apply in_map_iff in Hin as (p & <- & Hp).
  - apply lower_only_get in Hp. congruence.
  - apply upper_only_get in Hp. congruence.
  - apply two_sided_get in Hp. congruence.
Qed.

(** Construction with [{0: (None, None), 2: (0.0, None)}]. *)
Lemma constrained_ei_unbounded_entries_skipped_witness :
  exists self,
    ConstrainedExpectedImprovement.__init__ float32_exact model_two_outputs
      (scalar 0) 1 [(0%nat, (None, None)); (2%nat, (Some 0, None))] true = Ok self /\
    ~ In 0%nat (ConstrainedExpectedImprovement.constraint_lower_inds self).
Proof.
  destruct (constrained_ei_unbounded_entries_skipped float32_exact
              model_two_outputs (scalar 0) 1
              [(0%nat, (None, None)); (2%nat, (Some 0, None))] true)
    as (self & H1 & H2).
  - discriminate.
  - simpl. intros [H | [H | []]]; discriminate.
  - intros [|[|[|k]]] lo up; simpl; discriminate.
  - exists self. split; [exact H1|]. apply (H2 0%nat). reflexivity.
Defined.

(** ** Noisy Expected Improvement *)



(** A fixed-noise model with two observed points, a sampling engine
    returning the targets [(1, 3)] and [(5, 2)] for two fantasies, and a
    trivial regression. *)
Definition gp_two_points : NoisyExpectedImprovement.FixedNoiseGP unit :=
  NoisyExpectedImprovement.mkGP unit (mkTensor [2%nat; 1%nat] [0; 1])
    (mkTensor [2%nat] [0; 0]) (mkTensor [2%nat] [1; 1]) tt.

Definition gp_posterior_trivial
    (_ : NoisyExpectedImprovement.FixedNoiseGP unit) (_ : Tensor) : Posterior :=
  mkPosterior (scalar 0) (scalar 1).

Definition draw_two (_ : nat) (_ : Posterior) : Tensor :=
  mkTensor [2%nat; 2%nat; 1%nat] [1; 3; 5; 2].




(** * The total mass of the standard normal density *)

(** The distribution function defined in [Gaussian] is the integral of the
    density from minus infinity.  That the density integrates to 1 over the
    whole line, hence that the distribution function is at most 1 and
    satisfies [cdf (- u) = 1 - cdf u], is obtained here from the invariant
    [P t * P t + K t / PI = 1 / 4], where [P] is the primitive of the density
    vanishing at 0 and [K t] is the integral over [0, 1] of
    [exp (- t^2 (1 + x^2) / 2) / (1 + x^2)]: its derivative in [t] vanishes
    (differentiation under the integral sign), and [K 0 = PI / 4]. *)

Module GaussianMass.

Definition kern (t x : R) : R := exp (- (t * t) * (1 + x * x) / 2) / (1 + x * x).
Definition dkern (t x : R) : R := - t * exp (- (t * t) * (1 + x * x) / 2).
Definition ddkern (t x : R) : R :=
  (- 1 + t * t * (1 + x * x)) * exp (- (t * t) * (1 + x * x) / 2).

Lemma Rabs_le_between a b : Rabs a <= b -> - b <= a <= b.
Proof.
  intro H. pose proof (Rle_abs a). pose proof (Rle_abs (- a)) as H1.
  rewrite Rabs_Ropp in H1. lra.
Qed.

Lemma one_plus_sqr_pos x : 0 < 1 + x * x.
Proof. pose proof (Rle_0_sqr x) as H. unfold Rsqr in H. lra. Qed.

Lemma expo_deriv (a t : R) :
  derivable_pt_lim (fun s => exp (- (s * s) * a / 2)) t
    (exp (- (t * t) * a / 2) * (- t * a)).
Proof.
  assert (H : derivable_pt_lim (fun s => - (s * s) * a / 2) t (- t * a)).
  { replace (- t * a) with (- (1 * t + t * 1) * (a / 2)) by lra.
    apply (derivable_pt_lim_ext (fun s => - (s * s) * (a / 2))).
    { intro z. unfold Rdiv. ring. }
    apply (derivable_pt_lim_scal_right (fun s => - (s * s)) t _ (a / 2)).
    apply (derivable_pt_lim_opp (fun s => s * s)).
    apply (derivable_pt_lim_mult id id); apply derivable_pt_lim_id. }
  exact (derivable_pt_lim_comp _ exp t _ _ H (derivable_pt_lim_exp _)).
Qed.

Lemma kern_deriv x t : derivable_pt_lim (fun s => kern s x) t (dkern t x).
Proof.
  unfold kern, dkern.
  pose proof (one_plus_sqr_pos x) as Hp.
  replace (- t * exp (- (t * t) * (1 + x * x) / 2))
    with (exp (- (t * t) * (1 + x * x) / 2) * (- t * (1 + x * x)) * / (1 + x * x))
    by (field; lra).
  exact (derivable_pt_lim_scal_right _ t _ (/ (1 + x * x)) (expo_deriv (1 + x * x) t)).
Qed.

Lemma dkern_deriv x t : derivable_pt_lim (fun s => dkern s x) t (ddkern t x).
Proof.
  unfold dkern, ddkern.
  replace ((- 1 + t * t * (1 + x * x)) * exp (- (t * t) * (1 + x * x) / 2))
    with (- 1 * exp (- (t * t) * (1 + x * x) / 2)
          + - t * (exp (- (t * t) * (1 + x * x) / 2) * (- t * (1 + x * x)))) by ring.
  apply (derivable_pt_lim_mult (fun s => - s) (fun s => exp (- (s * s) * (1 + x * x) / 2))).
  - apply (derivable_pt_lim_opp id), derivable_pt_lim_id.
  - apply expo_deriv.
Qed.

Lemma expo_le_1 t x : exp (- (t * t) * (1 + x * x) / 2) <= 1.
Proof.
  pose proof (one_plus_sqr_pos x). pose proof (Rle_0_sqr t) as Ht. unfold Rsqr in Ht.
  assert (Hle : - (t * t) * (1 + x * x) / 2 <= 0) by nra.
  apply Rle_trans with (exp 0); [|rewrite exp_0; lra].
  destruct Hle as [Hlt | Heq]; [left; apply exp_increasing, Hlt | rewrite Heq; right; reflexivity].
Qed.

Lemma ddkern_bound s x : 0 <= x <= 1 -> Rabs (ddkern s x) <= 1 + 2 * (s * s).
Proof.
  intros Hx. unfold ddkern. rewrite Rabs_mult.
  pose proof (expo_le_1 s x) as He.
  pose proof (exp_pos (- (s * s) * (1 + x * x) / 2)) as Hpos.
  rewrite (Rabs_pos_eq (exp _)) by lra.
  pose proof (Rle_0_sqr s) as Hs. unfold Rsqr in Hs.
  assert (Ha : Rabs (- 1 + s * s * (1 + x * x)) <= 1 + 2 * (s * s)).
  { assert (Hxx : 0 <= x * x <= 1) by nra.
    assert (Hp : 0 <= (s * s) * (1 - x * x)) by (apply Rmult_le_pos; lra).
    assert (Hq : 0 <= (s * s) * (x * x)) by (apply Rmult_le_pos; lra).
    apply Rabs_le. split; nra. }
  pose proof (Rabs_pos (- 1 + s * s * (1 + x * x))).
  nra.
Qed.

(** Second-order remainder in [t], uniformly in [x] on [0, 1]. *)
Lemma kern_remainder t h x :
  0 <= x <= 1 -> Rabs h <= 1 ->
  Rabs (kern (t + h) x - kern t x - h * dkern t x)
    <= (1 + 2 * ((Rabs t + 1) * (Rabs t + 1))) * (h * h).
Proof.
  intros Hx Hh.
  set (M := 1 + 2 * ((Rabs t + 1) * (Rabs t + 1))).
  assert (HM : 0 <= M).
  { unfold M. pose proof (Rle_0_sqr (Rabs t + 1)) as H. unfold Rsqr in H. lra. }
  (* the derivative in [t] moves by at most [M * distance] *)
  assert (Hd : forall s, Rabs (s - t) <= 1 ->
                 Rabs (dkern s x - dkern t x) <= M * Rabs (s - t)).
  { intros s Hs.
    destruct (MVT_abs (fun r => dkern r x) (fun r => ddkern r x) t s
                (fun c _ => dkern_deriv x c)) as (c & Hc & Hcr).
    rewrite Hc. apply Rmult_le_compat_r; [apply Rabs_pos|].
    apply Rle_trans with (1 := ddkern_bound c x Hx).
    unfold M.
    assert (Hct : Rabs c <= Rabs t + 1).
    { assert (Rabs (c - t) <= 1).
      { apply Rabs_le. apply Rabs_le_between in Hs.
        unfold Rmin, Rmax in Hcr. destruct (Rle_dec t s); lra. }
      replace c with (t + (c - t)) by ring.
      apply Rle_trans with (1 := Rabs_triang _ _). lra. }
    assert (Hcc : c * c <= (Rabs t + 1) * (Rabs t + 1)).
    { rewrite <- (Rabs_pos_eq (c * c)) by (pose proof (Rle_0_sqr c) as Hq; unfold Rsqr in Hq; lra).
      rewrite Rabs_mult. pose proof (Rabs_pos c). nra. }
    lra. }
  set (psi := fun s => kern s x - kern t x - (s - t) * dkern t x).
  assert (Hpsi : forall s, derivable_pt_lim psi s (dkern s x - dkern t x)).
  { intro s. unfold psi.
    apply (derivable_pt_lim_minus (fun r => kern r x - kern t x)
             (fun r => (r - t) * dkern t x)).
    - replace (dkern s x) with (dkern s x - 0) by ring.
      apply (derivable_pt_lim_minus (fun r => kern r x) (fct_cte (kern t x))).
      + apply kern_deriv.
      + apply derivable_pt_lim_const.
    - pose proof (derivable_pt_lim_scal_right (fun r => r - t) s (1 - 0) (dkern t x)
                    (derivable_pt_lim_minus id (fct_cte t) s 1 0
                       (derivable_pt_lim_id s) (derivable_pt_lim_const t s))) as H2.
      replace ((1 - 0) * dkern t x) with (dkern t x) in H2 by ring. exact H2. }
  destruct (MVT_abs psi (fun s => dkern s x - dkern t x) t (t + h)
              (fun c _ => Hpsi c)) as (c & Hc & Hcr).
  replace (kern (t + h) x - kern t x - h * dkern t x) with (psi (t + h) - psi t)
    by (unfold psi; ring).
  rewrite Hc. replace (t + h - t) with h by ring.
  assert (Hch : Rabs (c - t) <= Rabs h).
  { apply Rabs_le. unfold Rmin, Rmax in Hcr.
    destruct (Rle_dec t (t + h)).
    - rewrite (Rabs_pos_eq h) by lra. lra.
    - rewrite (Rabs_left h) by lra. lra. }
  apply Rle_trans with (M * Rabs (c - t) * Rabs h).
  - apply Rmult_le_compat_r; [apply Rabs_pos|]. apply Hd. lra.
  - replace (h * h) with (Rabs h * Rabs h).
    + rewrite <- Rmult_assoc. apply Rmult_le_compat_r; [apply Rabs_pos|].
      apply Rmult_le_compat_l; assumption.
    + rewrite <- Rabs_mult. apply Rabs_pos_eq.
      pose proof (Rle_0_sqr h) as Hq. unfold Rsqr in Hq. lra.
Qed.

(** The fundamental theorem of calculus for a function with a continuous
    derivative. *)
Lemma FTC_continuous (A a : R -> R) (lo hi : R) (pr : Riemann_integrable a lo hi) :
  lo <= hi -> (forall x, derivable_pt_lim A x (a x)) -> continuity a ->
  RiemannInt pr = A hi - A lo.
Proof.
  intros Hle HA Hc.
  set (d := fun x => exist (fun l => derivable_pt_abs A x l) (a x) (HA x) : derivable_pt A x).
  assert (Hcont : continuity (derive A d)) by exact Hc.
  exact (RiemannInt_P33 (mkC1 Hcont) pr Hle).
Qed.

Lemma kern_continuity t : continuity (kern t).
Proof. unfold kern. intro x. reg. pose proof (one_plus_sqr_pos x). lra. Qed.

Lemma dkern_continuity t : continuity (dkern t).
Proof. unfold dkern. reg. Qed.

Lemma kern_int t : Riemann_integrable (kern t) 0 1.
Proof.
  apply continuity_implies_RiemannInt; [lra | intros; apply kern_continuity].
Qed.

Lemma dkern_int t : Riemann_integrable (dkern t) 0 1.
Proof.
  apply continuity_implies_RiemannInt; [lra | intros; apply dkern_continuity].
Qed.

Definition K (t : R) : R := RiemannInt (kern_int t).
Definition DK (t : R) : R := RiemannInt (dkern_int t).

(** Differentiation under the integral sign. *)
Lemma K_deriv t : derivable_pt_lim K t (DK t).
Proof.
  set (M := 1 + 2 * ((Rabs t + 1) * (Rabs t + 1))).
  assert (HM : 1 <= M).
  { unfold M. pose proof (Rle_0_sqr (Rabs t + 1)) as H. unfold Rsqr in H. lra. }
  intros eps Heps.
  assert (Hd : 0 < Rmin 1 (eps / (2 * M))).
  { apply Rmin_pos; [lra | apply Rdiv_lt_0_compat; lra]. }
  exists (mkposreal _ Hd). intros h Hh0 Hh. simpl in Hh.
  assert (Hh1 : Rabs h <= 1) by (pose proof (Rmin_l 1 (eps / (2 * M))); lra).
  assert (Hh2 : Rabs h < eps / (2 * M)) by (pose proof (Rmin_r 1 (eps / (2 * M))); lra).
  pose (pr1 := RiemannInt_P10 (-1) (kern_int (t + h)) (kern_int t)).
  pose (pr2 := RiemannInt_P10 (- h) pr1 (dkern_int t)).
  assert (E2 : RiemannInt pr2 = K (t + h) - K t - h * DK t).
  { unfold pr2. rewrite (RiemannInt_P13 pr1 (dkern_int t)).
    unfold pr1. rewrite (RiemannInt_P13 (kern_int (t + h)) (kern_int t)).
    unfold K, DK. ring. }
  assert (B2 : - (M * (h * h)) * (1 - 0) <= RiemannInt pr2 <= M * (h * h) * (1 - 0)).
  { apply RiemannInt_const_bound; [lra|].
    intros x Hx.
    pose proof (kern_remainder t h x ltac:(lra) Hh1) as Hr. fold M in Hr.
    apply Rabs_le_between in Hr.
    replace (kern (t + h) x + -1 * kern t x + - h * dkern t x)
      with (kern (t + h) x - kern t x - h * dkern t x) by ring.
    lra. }
  replace ((K (t + h) - K t) / h - DK t) with ((K (t + h) - K t - h * DK t) / h)
    by (field; exact Hh0).
  unfold Rdiv. rewrite Rabs_mult, Rabs_inv.
  assert (Hah : 0 < Rabs h) by (apply Rabs_pos_lt; exact Hh0).
  assert (Hnum : Rabs (K (t + h) - K t - h * DK t) <= M * (Rabs h * Rabs h)).
  { replace (Rabs h * Rabs h) with (h * h).
    - rewrite <- E2. apply Rabs_le. lra.
    - rewrite <- Rabs_mult. symmetry. apply Rabs_pos_eq.
      pose proof (Rle_0_sqr h) as Hq. unfold Rsqr in Hq. lra. }
  apply Rle_lt_trans with (M * Rabs h).
  - apply Rmult_le_reg_r with (Rabs h); [exact Hah|].
    rewrite Rmult_assoc, Rinv_l by lra. lra.
  - apply Rlt_le_trans with (M * (eps / (2 * M))).
    + apply Rmult_lt_compat_l; lra.
    + replace (M * (eps / (2 * M))) with (eps / 2) by (field; lra). lra.
Qed.

Lemma exp_half_sqr t : exp (- (t * t) / 2) = sqrt (2 * PI) * std_normal_pdf t.
Proof.
  unfold std_normal_pdf. field. apply Rgt_not_eq, sqrt_2PI_pos.
Qed.

Lemma DK_value t : DK t = - (2 * PI) * std_normal_pdf t * pdf_primitive t.
Proof.
  unfold DK.
  set (A := fun x => - (2 * PI) * std_normal_pdf t * pdf_primitive (t * x)).
  rewrite (FTC_continuous A (dkern t) 0 1 (dkern_int t)).
  - unfold A. rewrite Rmult_0_r, Rmult_1_r, pdf_primitive_0. ring.
  - lra.
  - intro x. unfold A.
    assert (Hin : derivable_pt_lim (fun y => pdf_primitive (t * y)) x
                    (std_normal_pdf (t * x) * t)).
    { apply (derivable_pt_lim_comp (fun y => t * y) pdf_primitive).
      - pose proof (derivable_pt_lim_scal id t x 1 (derivable_pt_lim_id x)) as H1.
        rewrite Rmult_1_r in H1. exact H1.
      - apply pdf_primitive_deriv. }
    replace (dkern t x)
      with (- (2 * PI) * std_normal_pdf t * (std_normal_pdf (t * x) * t)).
    + apply (derivable_pt_lim_scal (fun y => pdf_primitive (t * y))
               (- (2 * PI) * std_normal_pdf t)), Hin.
    + unfold dkern.
      replace (- (t * t) * (1 + x * x) / 2)
        with (- (t * t) / 2 + - ((t * x) * (t * x)) / 2) by field.
      rewrite exp_plus, !exp_half_sqr.
      pose proof sqrt_2PI_pos as Hs.
      assert (Hsq : sqrt (2 * PI) * sqrt (2 * PI) = 2 * PI).
      { apply sqrt_sqrt. pose proof PI_RGT_0. lra. }
      set (r := sqrt (2 * PI)) in *. rewrite <- Hsq. ring.
  - apply dkern_continuity.
Qed.

Definition mass_invariant (t : R) : R := pdf_primitive t * pdf_primitive t + K t / PI.

Lemma mass_invariant_deriv t : derivable_pt_lim mass_invariant t 0.
Proof.
  unfold mass_invariant.
  replace 0 with ((std_normal_pdf t * pdf_primitive t
                   + pdf_primitive t * std_normal_pdf t) + DK t * / PI).
  - apply (derivable_pt_lim_plus (fun s => pdf_primitive s * pdf_primitive s)
             (fun s => K s / PI)).
    + apply (derivable_pt_lim_mult pdf_primitive pdf_primitive);
        apply pdf_primitive_deriv.
    + apply (derivable_pt_lim_scal_right K t (DK t) (/ PI)), K_deriv.
  - rewrite DK_value. field. apply Rgt_not_eq, PI_RGT_0.
Qed.

Lemma K_0 : K 0 = PI / 4.
Proof.
  unfold K.
  rewrite (FTC_continuous atan (kern 0) 0 1 (kern_int 0)).
  - rewrite atan_1, atan_0. ring.
  - lra.
  - intro x. unfold kern.
    replace (exp (- (0 * 0) * (1 + x * x) / 2) / (1 + x * x)) with (/ (1 + x ^ 2)).
    + apply derivable_pt_lim_atan.
    + replace (- (0 * 0) * (1 + x * x) / 2) with 0 by field.
      rewrite exp_0. pose proof (one_plus_sqr_pos x). field. lra.
  - apply kern_continuity.
Qed.

Lemma mass_invariant_value t : mass_invariant t = 1 / 4.
Proof.
  assert (Hd : derivable mass_invariant)
    by (intro x; exists 0; apply mass_invariant_deriv).
  assert (Hc : constant mass_invariant).
  { apply (null_derivative_1 mass_invariant Hd). intro x.
    apply derive_pt_eq_0, mass_invariant_deriv. }
  rewrite (Hc t 0). unfold mass_invariant.
  rewrite pdf_primitive_0, K_0. field. apply Rgt_not_eq, PI_RGT_0.
Qed.

Lemma K_bounds t : 0 <= K t <= exp (- (t * t) / 2).
Proof.
  unfold K.
  assert (H01 : 0 <= 1) by lra.
  pose proof (@RiemannInt_const_bound (kern t) 0 1 0 (exp (- (t * t) / 2))
                (kern_int t) H01) as H.
  replace (0 * (1 - 0)) with 0 in H by ring.
  replace (exp (- (t * t) / 2) * (1 - 0)) with (exp (- (t * t) / 2)) in H by ring.
  apply H. intros x Hx. unfold kern.
  pose proof (one_plus_sqr_pos x) as Hp.
  pose proof (exp_pos (- (t * t) * (1 + x * x) / 2)) as He.
  split.
  - left. apply Rdiv_lt_0_compat; assumption.
  - apply Rle_trans with (exp (- (t * t) * (1 + x * x) / 2)).
    + apply Rmult_le_reg_r with (1 + x * x); [exact Hp|].
      unfold Rdiv. rewrite Rmult_assoc, Rinv_l by lra.
      pose proof (Rle_0_sqr x) as Hq. unfold Rsqr in Hq. nra.
    + assert (Hle : - (t * t) * (1 + x * x) / 2 <= - (t * t) / 2).
      { pose proof (Rle_0_sqr x) as Hq. unfold Rsqr in Hq.
        pose proof (Rle_0_sqr t) as Ht. unfold Rsqr in Ht.
        assert (0 <= (t * t) * (x * x)) by (apply Rmult_le_pos; lra). nra. }
      destruct Hle as [Hlt | Heq];
        [left; apply exp_increasing, Hlt | rewrite Heq; right; reflexivity].
Qed.

Lemma pdf_primitive_sqr_bounds t :
  1 / 4 - exp (- (t * t) / 2) / PI <= pdf_primitive t * pdf_primitive t <= 1 / 4.
Proof.
  pose proof (mass_invariant_value t) as H. unfold mass_invariant in H.
  pose proof (K_bounds t) as [H0 H1]. pose proof PI_RGT_0 as Hpi.
  assert (Ha : 0 <= K t / PI).
  { apply Rmult_le_pos; [exact H0 | left; apply Rinv_0_lt_compat, Hpi]. }
  assert (Hb : K t / PI <= exp (- (t * t) / 2) / PI).
  { apply Rmult_le_compat_r; [left; apply Rinv_0_lt_compat, Hpi | exact H1]. }
  lra.
Qed.

Lemma pdf_primitive_abs_bound t : - (1 / 2) <= pdf_primitive t <= 1 / 2.
Proof.
  pose proof (pdf_primitive_sqr_bounds t) as [_ H]. split; nra.
Qed.

Lemma exp_half_sqr_le t : exp (- (t * t) / 2) <= exp (1 / 2 + t).
Proof.
  assert (Hle : - (t * t) / 2 <= 1 / 2 + t).
  { pose proof (Rle_0_sqr (t + 1)) as Hs. unfold Rsqr in Hs. lra. }
  destruct Hle as [Hlt | Heq];
    [left; apply exp_increasing, Hlt | rewrite Heq; right; reflexivity].
Qed.

(** The primitive of the density tends to [-1/2] at minus infinity: half of
    the mass lies below 0. *)
Lemma pdf_primitive_limit : lim_minus_infinity pdf_primitive = - (1 / 2).
Proof.
  set (m := lim_minus_infinity pdf_primitive).
  pose proof pdf_primitive_tends as Ht. fold m in Ht.
  assert (Hlow : - (1 / 2) <= m).
  { apply (tends_ge pdf_primitive m (- (1 / 2)) 0 Ht).
    intros a _. apply pdf_primitive_abs_bound. }
  assert (Hinf : forall t, m <= pdf_primitive t).
  { intro t. apply (tends_le pdf_primitive m (pdf_primitive t) t Ht).
    intros a Ha. apply pdf_primitive_increasing, Ha. }
  destruct (Rle_dec m (- (1 / 2))) as [Hle | Hgt]; [lra | exfalso].
  assert (Hm0 : m <= 0) by (rewrite <- pdf_primitive_0; apply Hinf).
  pose proof PI_RGT_0 as Hpi.
  set (delta := PI * (1 / 4 - m * m)).
  assert (Hdelta : 0 < delta).
  { unfold delta. apply Rmult_lt_0_compat; [exact Hpi | nra]. }
  set (t := Rmin 0 (ln delta - 3 / 2)).
  assert (Ht0 : t <= 0) by apply Rmin_l.
  assert (Ht1 : t <= ln delta - 3 / 2) by apply Rmin_r.
  pose proof (pdf_primitive_sqr_bounds t) as [Hsq _].
  pose proof (Hinf t) as Hmt.
  pose proof (pdf_primitive_increasing t 0 Ht0) as Hp0. rewrite pdf_primitive_0 in Hp0.
  assert (Hpp : pdf_primitive t * pdf_primitive t <= m * m) by nra.
  assert (Hexp : exp (- (t * t) / 2) < delta).
  { apply Rle_lt_trans with (1 := exp_half_sqr_le t).
    apply Rle_lt_trans with (exp (ln delta - 1)).
    - assert (Hle : 1 / 2 + t <= ln delta - 1) by lra.
      destruct Hle as [Hlt | Heq];
        [left; apply exp_increasing, Hlt | rewrite Heq; right; reflexivity].
    - rewrite <- (exp_ln delta Hdelta) at 2. apply exp_increasing. lra. }
  assert (Hq : exp (- (t * t) / 2) / PI < 1 / 4 - m * m).
  { apply Rmult_lt_reg_r with PI; [exact Hpi|].
    unfold Rdiv at 1. rewrite Rmult_assoc, Rinv_l by lra.
    unfold delta in Hexp. lra. }
  lra.
Qed.

Lemma std_normal_cdf_half u : std_normal_cdf u = pdf_primitive u + 1 / 2.
Proof. rewrite std_normal_cdf_primitive, pdf_primitive_limit. ring. Qed.

Lemma std_normal_cdf_le_1 u : std_normal_cdf u <= 1.
Proof. rewrite std_normal_cdf_half. pose proof (pdf_primitive_abs_bound u). lra. Qed.

Lemma std_normal_cdf_0 : std_normal_cdf 0 = 1 / 2.
Proof. rewrite std_normal_cdf_half, pdf_primitive_0. ring. Qed.

Lemma std_normal_pdf_even u : std_normal_pdf (- u) = std_normal_pdf u.
Proof. unfold std_normal_pdf. replace (- u * - u) with (u * u) by ring. reflexivity. Qed.

Lemma pdf_primitive_odd u : pdf_primitive (- u) = - pdf_primitive u.
Proof.
  set (Q := fun y => pdf_primitive y + pdf_primitive (- y)).
  assert (HQ : forall y, derivable_pt_lim Q y 0).
  { intro y. unfold Q.
    replace 0 with (std_normal_pdf y + std_normal_pdf (- y) * (- 1))
      by (rewrite std_normal_pdf_even; ring).
    apply (derivable_pt_lim_plus pdf_primitive (fun z => pdf_primitive (- z))).
    - apply pdf_primitive_deriv.
    - apply (derivable_pt_lim_comp (fun z => - z) pdf_primitive).
      + apply (derivable_pt_lim_opp id), derivable_pt_lim_id.
      + apply pdf_primitive_deriv. }
  assert (Hd : derivable Q) by (intro x; exists 0; apply HQ).
  assert (Hc : constant Q).
  { apply (null_derivative_1 Q Hd). intro x. apply derive_pt_eq_0, HQ. }
  pose proof (Hc u 0) as H. unfold Q in H.
  rewrite Ropp_0, pdf_primitive_0 in H. lra.
Qed.

Lemma std_normal_cdf_opp u : std_normal_cdf (- u) = 1 - std_normal_cdf u.
Proof.
  rewrite (std_normal_cdf_half (- u)), (std_normal_cdf_half u), pdf_primitive_odd.
  field.
Qed.

Lemma std_normal_cdf_increasing a b : a <= b -> std_normal_cdf a <= std_normal_cdf b.
Proof.
  intro H. rewrite (std_normal_cdf_half a), (std_normal_cdf_half b).
  pose proof (pdf_primitive_increasing a b H). lra.
Qed.

Lemma std_normal_pdf_0 : std_normal_pdf 0 = / sqrt (2 * PI).
Proof.
  unfold std_normal_pdf. replace (- (0 * 0) / 2) with 0 by field.
  rewrite exp_0. unfold Rdiv. ring.
Qed.

End GaussianMass.

Import GaussianMass.

(** * Further properties of the acquisition functions *)

(** Two tensors that represent the same function on the same shape are the
    same tensor. *)
Lemma represents_inj t1 t2 s f :
  represents t1 s f -> represents t2 s f -> t1 = t2.
Proof.
  intros (Hs1 & Hw1 & Hg1) (Hs2 & Hw2 & Hg2).
  destruct t1 as [s1 d1], t2 as [s2 d2]. simpl in *. subst s1 s2.
  f_equal. unfold well_formed in *; simpl in *.
  apply (nth_ext d1 d2 0 0); [congruence|].
  intros k Hk. rewrite Hw1 in Hk.
  pose proof (unravel_in_range s k Hk) as HI.
  pose proof (Hg1 _ HI) as E1. pose proof (Hg2 _ HI) as E2.
  unfold get in E1, E2; simpl in E1, E2.
  rewrite (ravel_unravel s k Hk) in E1, E2. congruence.
Qed.

Lemma represents_in_data t s f x :
  represents t s f -> In x (data t) -> exists I, in_range I s /\ x = f I.
Proof.
  intros (Hs & Hw & Hg) Hx.
  apply (In_nth _ _ 0) in Hx as (k & Hk & <-).
  unfold well_formed in Hw. rewrite Hw, Hs in Hk.
  exists (unravel s k). split; [apply unravel_in_range, Hk|].
  rewrite <- (Hg _ (unravel_in_range s k Hk)). unfold get.
  rewrite Hs, (ravel_unravel s k Hk). reflexivity.
Qed.

(** ** The value of Expected Improvement *)

Lemma sigma_ei_pos v : 0 < sqrt (Rmax v 1e-9).
Proof. apply sqrt_lt_R0. pose proof (Rmax_r v 1e-9). lra. Qed.

Lemma sigma_pi_pos v : 0 < Rmax (sqrt v) 1e-9.
Proof. pose proof (Rmax_r (sqrt v) 1e-9). lra. Qed.

(** The improvement of the mean over the best value, in the direction of
    the optimisation. *)
Definition improvement (mu f : R) (maximize : bool) : R :=
  if maximize then mu - f else f - mu.

Lemma ei_of_sigma_kernel mu sigma f maximize :
  0 < sigma ->
  ei_of_sigma mu sigma f maximize
  = sigma * ei_kernel (improvement mu f maximize / sigma).
Proof.
  intro Hs. unfold ei_of_sigma, ei_kernel, improvement. cbv zeta.
  destruct maximize; [reflexivity|].
  replace (- ((mu - f) / sigma)) with ((f - mu) / sigma) by (field; lra).
  reflexivity.
Qed.

Lemma ei_value_kernel mu v f maximize :
  ei_value mu v f maximize
  = sqrt (Rmax v 1e-9) * ei_kernel (improvement mu f maximize / sqrt (Rmax v 1e-9)).
Proof. rewrite ei_value_of_sigma. apply ei_of_sigma_kernel, sigma_ei_pos. Qed.

Lemma ei_value_mirror mu v f :
  ei_value mu v f false = ei_value (- mu) v (- f) true.
Proof.
  rewrite !ei_value_kernel. unfold improvement.
  replace (- mu - - f) with (f - mu) by ring. reflexivity.
Qed.

Lemma ei_value_incumbent mu v maximize :
  ei_value mu v mu maximize = sqrt (Rmax v 1e-9) / sqrt (2 * PI).
Proof.
  rewrite ei_value_kernel.
  replace (improvement mu mu maximize) with 0 by (unfold improvement; destruct maximize; ring).
  replace (0 / sqrt (Rmax v 1e-9)) with 0 by (unfold Rdiv; ring).
  unfold ei_kernel. rewrite std_normal_pdf_0. unfold Rdiv. ring.
Qed.

(** ** The value of Probability of Improvement *)

Lemma pi_value_cdf mu v f maximize :
  pi_value mu v f maximize
  = std_normal_cdf (improvement mu f maximize / Rmax (sqrt v) 1e-9).
Proof.
  unfold pi_value, improvement. cbv zeta. pose proof (sigma_pi_pos v) as Hs.
  destruct maximize; [reflexivity|].
  f_equal. field. lra.
Qed.

Lemma pi_value_range mu v f maximize : 0 <= pi_value mu v f maximize <= 1.
Proof.
  rewrite pi_value_cdf. split; [apply std_normal_cdf_nonneg | apply std_normal_cdf_le_1].
Qed.

Lemma pi_value_complement mu v f :
  pi_value mu v f true + pi_value mu v f false = 1.
Proof.
  unfold pi_value. cbv zeta. rewrite std_normal_cdf_opp. ring.
Qed.

Lemma div_sign_nonneg a s : 0 < s -> 0 <= a -> 0 <= a / s.
Proof.
  intros Hs Ha. unfold Rdiv.
  apply Rmult_le_pos; [exact Ha | left; apply Rinv_0_lt_compat, Hs].
Qed.

Lemma div_sign_nonpos a s : 0 < s -> a <= 0 -> a / s <= 0.
Proof.
  intros Hs Ha. pose proof (div_sign_nonneg (- a) s Hs ltac:(lra)) as H.
  unfold Rdiv in *. lra.
Qed.

(** The side of one half the value lies on is the side of the best value
    the mean lies on. *)
Lemma pi_value_side mu v f maximize :
  (0 <= improvement mu f maximize -> 1 / 2 <= pi_value mu v f maximize) /\
  (improvement mu f maximize <= 0 -> pi_value mu v f maximize <= 1 / 2) /\
  (improvement mu f maximize = 0 -> pi_value mu v f maximize = 1 / 2).
Proof.
  rewrite pi_value_cdf. pose proof (sigma_pi_pos v) as Hs.
  set (a := improvement mu f maximize). set (s := Rmax (sqrt v) 1e-9) in *.
  rewrite <- std_normal_cdf_0.
  split; [|split]; intro H.
  - apply std_normal_cdf_increasing, div_sign_nonneg; assumption.
  - apply std_normal_cdf_increasing, div_sign_nonpos; assumption.
  - rewrite H. f_equal. unfold Rdiv. ring.
Qed.

Lemma _get_posterior_multi model objective X ms t :
  shape (mean (posterior_at model objective X)) = ms ++ [t] -> t <> 1%nat ->
  _get_posterior model objective X true = Err UnsupportedError.
Proof.
  intros H Ht. unfold _get_posterior. fold (posterior_at model objective X).
  unfold event_shape. rewrite H, rev_app_distr. simpl.
  destruct (Nat.eqb_spec t 1); [contradiction | reflexivity].
Qed.

(** A single-output model whose posterior has mean -1 and variance 4
    everywhere on a batch of two: [model_single] with the sign of the mean
    changed. *)
Definition model_single_neg : Model :=
  mkModel (fun _ => mkPosterior (full [2%nat; 1%nat; 1%nat] (- (1)))
                      (full [2%nat; 1%nat; 1%nat] 4)).

(** X1.  The four single-outcome acquisition functions refuse a posterior
    with more than one output: when the posterior at [X] (after the
    objective, if any) has a trailing output dimension [t] other than 1,
    [forward] of [ExpectedImprovement], [PosteriorMean],
    [ProbabilityOfImprovement] and [UpperConfidenceBound] raises
    [UnsupportedError], whatever the best value, [beta] and [maximize]. *)
Theorem multi_output_posterior_rejected
    (model : Model) (objective : option ScalarizedObjective) (maximize : bool)
    (best_f beta X : Tensor) (xs ms : list nat) (d t : nat) :
  shape X = xs ++ [1%nat; d] ->
  shape (mean (posterior_at model objective X)) = ms ++ [t] ->
  t <> 1%nat ->
  ExpectedImprovement.forward
    (ExpectedImprovement.mk model objective maximize best_f) X
    = Err UnsupportedError /\
  PosteriorMean.forward (PosteriorMean.mk model objective) X
    = Err UnsupportedError /\
  ProbabilityOfImprovement.forward
    (ProbabilityOfImprovement.mk model objective maximize best_f) X
    = Err UnsupportedError /\
  UpperConfidenceBound.forward
    (UpperConfidenceBound.mk model objective maximize beta) X
    = Err UnsupportedError.
Proof.
  intros HX Hm Ht.
  pose proof (_get_posterior_multi model objective X ms t Hm Ht) as E.
  unfold ExpectedImprovement.forward, PosteriorMean.forward,
    ProbabilityOfImprovement.forward, UpperConfidenceBound.forward.
  rewrite !(t_batch_mode_transform_q1 _ _ _ _ HX).
  cbn [ExpectedImprovement.model ExpectedImprovement.objective
       PosteriorMean.model PosteriorMean.objective
       ProbabilityOfImprovement.model ProbabilityOfImprovement.objective
       UpperConfidenceBound.model UpperConfidenceBound.objective].
  rewrite E. repeat split; reflexivity.
Qed.

(** The two-output model is refused by Expected Improvement. *)
Lemma multi_output_posterior_rejected_witness :
  ExpectedImprovement.forward
    (ExpectedImprovement.mk model_two_outputs None true (scalar 0)) X_batch2
  = Err UnsupportedError.
Proof.
  apply (multi_output_posterior_rejected model_two_outputs None true (scalar 0)
           (scalar 1) X_batch2 [2%nat] [2%nat; 1%nat] 1 2 eq_refl eq_refl).
  discriminate.
Defined.

(** X2.  On a candidate batch [bs x 1 x d] with a single-output posterior,
    [PosteriorMean.forward] returns the posterior mean reshaped to the batch
    shape [bs]: the same entries in the same order, one per candidate. *)
Theorem posterior_mean_forward_value
    (self : PosteriorMean.t) (X : Tensor) (bs : list nat) (d : nat)
    (mu : list nat -> R) :
  let p := posterior_at (PosteriorMean.model self) (PosteriorMean.objective self) X in
  shape X = bs ++ [1%nat; d] ->
  represents (mean p) (bs ++ [1%nat; 1%nat]) mu ->
  exists pm, PosteriorMean.forward self X = Ok pm /\
    shape pm = bs /\ data pm = data (mean p) /\
    forall I, in_range I bs -> get pm I = mu (I ++ [0%nat; 0%nat]).
Proof.
  intros p HX Hm.
  destruct (PM_forward_represents self X bs d mu HX Hm) as (pm & E & (Hs & Hw & Hg)).
  exists pm. split; [exact E | split; [exact Hs | split; [|exact Hg]]].
  unfold PosteriorMean.forward in E.
  rewrite (t_batch_mode_transform_q1 _ _ _ _ HX) in E.
  rewrite (_get_posterior_single _ _ _ bs) in E by apply Hm.
  cbn [bind] in E. unfold view in E.
  destruct (numel (drop_last 2 (shape X)) =? numel (shape (mean _)))%nat;
    [|discriminate].
  injection E as <-. reflexivity.
Qed.

Lemma posterior_mean_forward_value_witness :
  exists pm, PosteriorMean.forward (PosteriorMean.mk model_single None) X_batch2 = Ok pm /\
    shape pm = [2%nat].
Proof.
  destruct (posterior_mean_forward_value (PosteriorMean.mk model_single None) X_batch2
              [2%nat] 1 (fun _ => 1) eq_refl (represents_full _ _))
    as (pm & H1 & H2 & _).
  exists pm. split; assumption.
Defined.

(** X3.  On a candidate batch [bs x 1 x d] whose posterior has mean [mu]
    and non-negative variance [v], [ProbabilityOfImprovement.forward]
    returns, for every candidate, the standard normal distribution function
    at [u = (mu - best_f) / sigma] with [sigma = max (sqrt v) 1e-9], at
    [- u] when [maximize] is false; the value is a probability, between 0
    and 1. *)
Theorem probability_of_improvement_formula
    (self : ProbabilityOfImprovement.t) (X : Tensor) (bs : list nat) (d : nat)
    (sf : list nat) (mu v f : list nat -> R) :
  let p := posterior_at (ProbabilityOfImprovement.model self)
             (ProbabilityOfImprovement.objective self) X in
  shape X = bs ++ [1%nat; d] ->
  represents (mean p) (bs ++ [1%nat; 1%nat]) mu ->
  represents (variance p) (bs ++ [1%nat; 1%nat]) v ->
  represents (ProbabilityOfImprovement.best_f self) sf f ->
  broadcast_shapes sf bs = Some bs ->
  (forall I, in_range I bs -> 0 <= v (I ++ [0%nat; 0%nat])) ->
  exists out, ProbabilityOfImprovement.forward self X = Ok out /\ shape out = bs /\
    forall I, in_range I bs ->
      let sigma := Rmax (sqrt (v (I ++ [0%nat; 0%nat]))) 1e-9 in
      let u0 := (mu (I ++ [0%nat; 0%nat]) - f (bidx sf I)) / sigma in
      let u := if ProbabilityOfImprovement.maximize self then u0 else - u0 in
      get out I = std_normal_cdf u /\ 0 <= get out I <= 1.
Proof.
  intros p HX Hm Hv Hf Hb _.
  destruct (PI_forward_represents self X bs d sf mu v f HX Hm Hv Hf Hb)
    as (out & E & (Hs & _ & Hg)).
  exists out. split; [exact E | split; [exact Hs|]].
  intros I HI. cbv zeta. rewrite (Hg I HI). split; [reflexivity|].
  apply pi_value_range.
Qed.

Lemma probability_of_improvement_formula_witness :
  exists out,
    ProbabilityOfImprovement.forward
      (ProbabilityOfImprovement.mk model_single None true (scalar 0)) X_batch2 = Ok out /\
    shape out = [2%nat].
Proof.
  destruct (probability_of_improvement_formula
              (ProbabilityOfImprovement.mk model_single None true (scalar 0)) X_batch2
              [2%nat] 1 [] (fun _ => 1) (fun _ => 4) (fun _ => 0)
              eq_refl (represents_full _ _) (represents_full _ _)
              (represents_scalar 0) eq_refl) as (out & H1 & H2 & _).
  - intros I _. lra.
  - exists out. split; assumption.
Defined.

(** X4.  For the same model, objective and best value, the Probability of
    Improvement when maximizing and the one when minimizing add up to 1 at
    every candidate. *)
Theorem probability_of_improvement_complement
    (model : Model) (objective : option ScalarizedObjective) (best_f : Tensor)
    (X : Tensor) (bs : list nat) (d : nat) (sf : list nat)
    (mu v f : list nat -> R) :
  let p := posterior_at model objective X in
  shape X = bs ++ [1%nat; d] ->
  represents (mean p) (bs ++ [1%nat; 1%nat]) mu ->
  represents (variance p) (bs ++ [1%nat; 1%nat]) v ->
  represents best_f sf f ->
  broadcast_shapes sf bs = Some bs ->
  (forall I, in_range I bs -> 0 <= v (I ++ [0%nat; 0%nat])) ->
  exists up down,
    ProbabilityOfImprovement.forward
      (ProbabilityOfImprovement.mk model objective true best_f) X = Ok up /\
    ProbabilityOfImprovement.forward
      (ProbabilityOfImprovement.mk model objective false best_f) X = Ok down /\
    forall I, in_range I bs -> get up I + get down I = 1.
Proof.
  intros p HX Hm Hv Hf Hb _.
  destruct (PI_forward_represents
              (ProbabilityOfImprovement.mk model objective true best_f)
              X bs d sf mu v f HX Hm Hv Hf Hb) as (up & E1 & (_ & _ & G1)).
  destruct (PI_forward_represents
              (ProbabilityOfImprovement.mk model objective false best_f)
              X bs d sf mu v f HX Hm Hv Hf Hb) as (down & E2 & (_ & _ & G2)).
  exists up, down. split; [exact E1 | split; [exact E2|]].
  intros I HI. rewrite (G1 I HI), (G2 I HI). apply pi_value_complement.
Qed.

Lemma probability_of_improvement_complement_witness :
  exists up down,
    ProbabilityOfImprovement.forward
      (ProbabilityOfImprovement.mk model_single None true (scalar 0)) X_batch2 = Ok up /\
    ProbabilityOfImprovement.forward
      (ProbabilityOfImprovement.mk model_single None false (scalar 0)) X_batch2 = Ok down /\
    get up [0%nat] + get down [0%nat] = 1.
Proof.
  destruct (probability_of_improvement_complement model_single None (scalar 0) X_batch2
              [2%nat] 1 [] (fun _ => 1) (fun _ => 4) (fun _ => 0)
              eq_refl (represents_full _ _) (represents_full _ _)
              (represents_scalar 0) eq_refl) as (up & down & H1 & H2 & H3).
  - intros I _. lra.
  - exists up, down. split; [exact H1 | split; [exact H2|]].
    apply H3. repeat constructor.
Defined.

(** X5.  Probability of Improvement lies on the side of one half that the
    posterior mean lies on with respect to the best value: it is at least
    one half where the mean is no worse than [best_f] (at least [best_f]
    when maximizing, at most [best_f] when minimizing), at most one half
    where the mean is no better, and one half where they are equal. *)
Theorem probability_of_improvement_threshold
    (self : ProbabilityOfImprovement.t) (X : Tensor) (bs : list nat) (d : nat)
    (sf : list nat) (mu v f : list nat -> R) :
  let p := posterior_at (ProbabilityOfImprovement.model self)
             (ProbabilityOfImprovement.objective self) X in
  shape X = bs ++ [1%nat; d] ->
  represents (mean p) (bs ++ [1%nat; 1%nat]) mu ->
  represents (variance p) (bs ++ [1%nat; 1%nat]) v ->
  represents (ProbabilityOfImprovement.best_f self) sf f ->
  broadcast_shapes sf bs = Some bs ->
  (forall I, in_range I bs -> 0 <= v (I ++ [0%nat; 0%nat])) ->
  exists out, ProbabilityOfImprovement.forward self X = Ok out /\
    forall I, in_range I bs ->
      let m := mu (I ++ [0%nat; 0%nat]) in
      let b := f (bidx sf I) in
      ((if ProbabilityOfImprovement.maximize self then b <= m else m <= b)
       -> 1 / 2 <= get out I) /\
      ((if ProbabilityOfImprovement.maximize self then m <= b else b <= m)
       -> get out I <= 1 / 2) /\
      (m = b -> get out I = 1 / 2).
Proof.
  intros p HX Hm Hv Hf Hb _.
  destruct (PI_forward_represents self X bs d sf mu v f HX Hm Hv Hf Hb)
    as (out & E & (_ & _ & Hg)).
  exists out. split; [exact E|].
  intros I HI. cbv zeta. rewrite (Hg I HI).
  destruct (pi_value_side (mu (I ++ [0%nat; 0%nat])) (v (I ++ [0%nat; 0%nat]))
              (f (bidx sf I)) (ProbabilityOfImprovement.maximize self))
    as (H1 & H2 & H3).
  unfold improvement in H1, H2, H3.
  destruct (ProbabilityOfImprovement.maximize self).
  - split; [|split]; intro H; [apply H1 | apply H2 | apply H3]; lra.
  - split; [|split]; intro H; [apply H1 | apply H2 | apply H3]; lra.
Qed.

Lemma probability_of_improvement_threshold_witness :
  exists out,
    ProbabilityOfImprovement.forward
      (ProbabilityOfImprovement.mk model_single None true (scalar 0)) X_batch2 = Ok out /\
    1 / 2 <= get out [0%nat].
Proof.
  destruct (probability_of_improvement_threshold
              (ProbabilityOfImprovement.mk model_single None true (scalar 0)) X_batch2
              [2%nat] 1 [] (fun _ => 1) (fun _ => 4) (fun _ => 0)
              eq_refl (represents_full _ _) (represents_full _ _)
              (represents_scalar 0) eq_refl) as (out & H1 & H2).
  - intros I _. lra.
  - exists out. split; [exact H1|].
    apply (H2 [0%nat]); [repeat constructor | simpl; lra].
Defined.

(** X6.  For a non-negative variance and a non-negative [beta], the bound
    returned with [maximize = False] is the mean minus [sqrt (beta * variance)];
    the posterior mean lies between the two bounds, exactly half-way:
    [UCB(minimize) <= PosteriorMean <= UCB(maximize)] and their sum is twice
    the posterior mean. *)
Theorem ucb_brackets_posterior_mean
    (model : Model) (objective : option ScalarizedObjective) (beta : Tensor)
    (X : Tensor) (bs : list nat) (d : nat) (sb : list nat)
    (mu v fb : list nat -> R) :
  let p := posterior_at model objective X in
  shape X = bs ++ [1%nat; d] ->
  represents (mean p) (bs ++ [1%nat; 1%nat]) mu ->
  represents (variance p) (bs ++ [1%nat; 1%nat]) v ->
  represents beta sb fb -> broadcast_shapes sb bs = Some bs ->
  (forall I, in_range I bs -> 0 <= v (I ++ [0%nat; 0%nat])) ->
  (forall I, in_range I bs -> 0 <= fb (bidx sb I)) ->
  exists upper lower pm,
    UpperConfidenceBound.forward
      (UpperConfidenceBound.mk model objective true beta) X = Ok upper /\
    UpperConfidenceBound.forward
      (UpperConfidenceBound.mk model objective false beta) X = Ok lower /\
    PosteriorMean.forward (PosteriorMean.mk model objective) X = Ok pm /\
    shape lower = bs /\
    forall I, in_range I bs ->
      get lower I
        = mu (I ++ [0%nat; 0%nat]) - sqrt (fb (bidx sb I) * v (I ++ [0%nat; 0%nat])) /\
      get lower I <= get pm I <= get upper I /\
      get upper I + get lower I = 2 * get pm I.
Proof.
  intros p HX Hm Hv Hb Hs _ _.
  destruct (UCB_forward_represents (UpperConfidenceBound.mk model objective true beta)
              X bs d sb mu v fb HX Hm Hv Hb Hs) as (u1 & E1 & (_ & _ & G1)).
  destruct (UCB_forward_represents (UpperConfidenceBound.mk model objective false beta)
              X bs d sb mu v fb HX Hm Hv Hb Hs) as (u2 & E2 & (S2 & _ & G2)).
  destruct (PM_forward_represents (PosteriorMean.mk model objective) X bs d mu HX Hm)
    as (pm & E3 & (_ & _ & G3)).
  exists u1, u2, pm. repeat (split; [assumption|]).
  intros I HI. rewrite (G1 I HI), (G2 I HI), (G3 I HI). unfold ucb_value; simpl.
  pose proof (sqrt_pos (fb (bidx sb I) * v (I ++ [0%nat; 0%nat]))).
  split; [reflexivity | split; [lra | ring]].
Qed.

Lemma ucb_brackets_posterior_mean_witness :
  exists upper lower pm,
    UpperConfidenceBound.forward
      (UpperConfidenceBound.mk model_single None true (scalar 1)) X_batch2 = Ok upper /\
    UpperConfidenceBound.forward
      (UpperConfidenceBound.mk model_single None false (scalar 1)) X_batch2 = Ok lower /\
    PosteriorMean.forward (PosteriorMean.mk model_single None) X_batch2 = Ok pm /\
    shape lower = [2%nat].
Proof.
  destruct (ucb_brackets_posterior_mean model_single None (scalar 1) X_batch2
              [2%nat] 1 [] (fun _ => 1) (fun _ => 4) (fun _ => 1)
              eq_refl (represents_full _ _) (represents_full _ _)
              (represents_scalar 1) eq_refl)
    as (u1 & u2 & pm & H1 & H2 & H3 & H4 & _).
  - intros I _. lra.
  - intros I _. lra.
  - exists u1, u2, pm. repeat split; assumption.
Defined.

(** X7.  With [beta = 0] the confidence bound is the posterior mean:
    [UpperConfidenceBound.forward] returns the very tensor
    [PosteriorMean.forward] returns, whether maximizing or minimizing. *)
Theorem ucb_zero_beta_is_posterior_mean
    (model : Model) (objective : option ScalarizedObjective) (maximize : bool)
    (beta : Tensor) (X : Tensor) (bs : list nat) (d : nat) (sb : list nat)
    (mu v : list nat -> R) :
  let p := posterior_at model objective X in
  shape X = bs ++ [1%nat; d] ->
  represents (mean p) (bs ++ [1%nat; 1%nat]) mu ->
  represents (variance p) (bs ++ [1%nat; 1%nat]) v ->
  represents beta sb (fun _ => 0) -> broadcast_shapes sb bs = Some bs ->
  exists out,
    UpperConfidenceBound.forward
      (UpperConfidenceBound.mk model objective maximize beta) X = Ok out /\
    PosteriorMean.forward (PosteriorMean.mk model objective) X = Ok out.
Proof.
  intros p HX Hm Hv Hb Hs.
  destruct (UCB_forward_represents (UpperConfidenceBound.mk model objective maximize beta)
              X bs d sb mu v (fun _ => 0) HX Hm Hv Hb Hs) as (u & E1 & R1).
  destruct (PM_forward_represents (PosteriorMean.mk model objective) X bs d mu HX Hm)
    as (pm & E2 & R2).
  exists u. split; [exact E1|]. rewrite E2. f_equal.
  apply (represents_inj pm u bs (fun I => mu (I ++ [0%nat; 0%nat])) R2).
  eapply represents_ext; [exact R1|].
  intros I HI. unfold ucb_value; simpl.
  rewrite Rmult_0_l, sqrt_0. destruct maximize; ring.
Qed.

Lemma ucb_zero_beta_is_posterior_mean_witness :
  exists out,
    UpperConfidenceBound.forward
      (UpperConfidenceBound.mk model_single None false (scalar 0)) X_batch2 = Ok out /\
    PosteriorMean.forward (PosteriorMean.mk model_single None) X_batch2 = Ok out.
Proof.
  exact (ucb_zero_beta_is_posterior_mean model_single None false (scalar 0) X_batch2
           [2%nat] 1 [] (fun _ => 1) (fun _ => 4)
           eq_refl (represents_full _ _) (represents_full _ _)
           (represents_scalar 0) eq_refl).
Defined.

(** X8.  Minimizing is maximizing the negated problem: Expected Improvement
    with [maximize = False] for a posterior mean [mu] and best value [f] is
    the same tensor as Expected Improvement with [maximize = True] for the
    posterior mean [- mu] (same variance) and best value [- f]. *)
Theorem expected_improvement_mirror
    (model1 model2 : Model) (objective1 objective2 : option ScalarizedObjective)
    (best_f1 best_f2 : Tensor) (X : Tensor) (bs : list nat) (d : nat)
    (sf : list nat) (mu v f : list nat -> R) :
  let p1 := posterior_at model1 objective1 X in
  let p2 := posterior_at model2 objective2 X in
  shape X = bs ++ [1%nat; d] ->
  represents (mean p1) (bs ++ [1%nat; 1%nat]) mu ->
  represents (variance p1) (bs ++ [1%nat; 1%nat]) v ->
  represents (mean p2) (bs ++ [1%nat; 1%nat]) (fun I => - mu I) ->
  represents (variance p2) (bs ++ [1%nat; 1%nat]) v ->
  represents best_f1 sf f ->
  represents best_f2 sf (fun I => - f I) ->
  broadcast_shapes sf bs = Some bs ->
  exists ei,
    ExpectedImprovement.forward
      (ExpectedImprovement.mk model1 objective1 false best_f1) X = Ok ei /\
    ExpectedImprovement.forward
      (ExpectedImprovement.mk model2 objective2 true best_f2) X = Ok ei.
Proof.
  intros p1 p2 HX Hm1 Hv1 Hm2 Hv2 Hf1 Hf2 Hb.
  destruct (EI_forward_represents
              (ExpectedImprovement.mk model1 objective1 false best_f1)
              X bs d bs sf mu v f HX (Nat.le_refl _) Hm1 Hv1 Hf1 Hb) as (e1 & E1 & R1).
  destruct (EI_forward_represents
              (ExpectedImprovement.mk model2 objective2 true best_f2)
              X bs d bs sf _ v _ HX (Nat.le_refl _) Hm2 Hv2 Hf2 Hb) as (e2 & E2 & R2).
  exists e1. split; [exact E1|]. rewrite E2. f_equal.
  apply (represents_inj e2 e1 bs _ R2).
  eapply represents_ext; [exact R1|].
  intros I HI. simpl. apply ei_value_mirror.
Qed.

Lemma expected_improvement_mirror_witness :
  exists ei,
    ExpectedImprovement.forward
      (ExpectedImprovement.mk model_single None false (scalar 0)) X_batch2 = Ok ei /\
    ExpectedImprovement.forward
      (ExpectedImprovement.mk model_single_neg None true (scalar (- 0))) X_batch2 = Ok ei.
Proof.
  exact (expected_improvement_mirror model_single model_single_neg None None
           (scalar 0) (scalar (- 0)) X_batch2 [2%nat] 1 [] (fun _ => 1) (fun _ => 4)
           (fun _ => 0) eq_refl (represents_full _ _) (represents_full _ _)
           (represents_full _ _) (represents_full _ _)
           (represents_scalar 0) (represents_scalar (- 0)) eq_refl).
Defined.

(** X11.  At a candidate whose posterior mean equals the best value,
    Expected Improvement is [sigma / sqrt (2 pi)] with
    [sigma = sqrt (max v 1e-9)], whether maximizing or minimizing: it is
    never below [sqrt 1e-9 / sqrt (2 pi)] there, however small the
    variance. *)
Theorem expected_improvement_at_incumbent
    (self : ExpectedImprovement.t) (X : Tensor) (bs : list nat) (d : nat)
    (sf : list nat) (mu v f : list nat -> R) :
  let p := posterior_at (ExpectedImprovement.model self)
             (ExpectedImprovement.objective self) X in
  shape X = bs ++ [1%nat; d] ->
  represents (mean p) (bs ++ [1%nat; 1%nat]) mu ->
  represents (variance p) (bs ++ [1%nat; 1%nat]) v ->
  represents (ExpectedImprovement.best_f self) sf f ->
  broadcast_shapes sf bs = Some bs ->
  exists ei, ExpectedImprovement.forward self X = Ok ei /\
    forall I, in_range I bs ->
      mu (I ++ [0%nat; 0%nat]) = f (bidx sf I) ->
      get ei I = sqrt (Rmax (v (I ++ [0%nat; 0%nat])) 1e-9) / sqrt (2 * PI) /\
      sqrt 1e-9 / sqrt (2 * PI) <= get ei I.
Proof.
  intros p HX Hm Hv Hf Hb.
  destruct (EI_forward_represents self X bs d bs sf mu v f HX (Nat.le_refl _) Hm Hv Hf Hb)
    as (ei & E & (_ & _ & Hg)).
  exists ei. split; [exact E|].
  intros I HI Heq. rewrite (Hg I HI). simpl. rewrite <- Heq, ei_value_incumbent.
  split; [reflexivity|].
  unfold Rdiv. apply Rmult_le_compat_r.
  - left. apply Rinv_0_lt_compat, sqrt_2PI_pos.
  - apply sqrt_le_1_alt, Rmax_r.
Qed.

Lemma expected_improvement_at_incumbent_witness :
  exists ei,
    ExpectedImprovement.forward
      (ExpectedImprovement.mk model_single None true (scalar 1)) X_batch2 = Ok ei /\
    get ei [0%nat] = sqrt (Rmax 4 1e-9) / sqrt (2 * PI).
Proof.
  destruct (expected_improvement_at_incumbent
              (ExpectedImprovement.mk model_single None true (scalar 1)) X_batch2
              [2%nat] 1 [] (fun _ => 1) (fun _ => 4) (fun _ => 1)
              eq_refl (represents_full _ _) (represents_full _ _)
              (represents_scalar 1) eq_refl) as (ei & H1 & H2).
  exists ei. split; [exact H1|].
  apply (H2 [0%nat]); [repeat constructor | reflexivity].
Defined.

(** ** Constrained Expected Improvement: the groups and the values *)

Module ConstrainedEIFacts.

Import ConstrainedExpectedImprovement.
Import ConstrainedEISpec.

Lemma lower_only_complete cs ks k lo :
  In k ks -> dict_get cs k = Some (Some lo, None) -> In (k, lo) (lower_only cs ks).
Proof.
  induction ks as [|k0 ks IH]; simpl; [tauto|].
  intros [-> | Hin] Hget.
  - rewrite Hget. left; reflexivity.
  - destruct (dict_get cs k0) as [[[l0|] [u0|]]|]; try (apply IH; assumption).
    right. apply IH; assumption.
Qed.

Lemma upper_only_complete cs ks k up :
  In k ks -> dict_get cs k = Some (None, Some up) -> In (k, up) (upper_only cs ks).
Proof.
  induction ks as [|k0 ks IH]; simpl; [tauto|].
  intros [-> | Hin] Hget.
  - rewrite Hget. left; reflexivity.
  - destruct (dict_get cs k0) as [[[l0|] [u0|]]|]; try (apply IH; assumption).
    right. apply IH; assumption.
Qed.

Lemma two_sided_complete cs ks k lo up :
  In k ks -> dict_get cs k = Some (Some lo, Some up) ->
  In (k, (lo, up)) (two_sided cs ks).
Proof.
  induction ks as [|k0 ks IH]; simpl; [tauto|].
  intros [-> | Hin] Hget.
  - rewrite Hget. left; reflexivity.
  - destruct (dict_get cs k0) as [[[l0|] [u0|]]|]; try (apply IH; assumption).
    right. apply IH; assumption.
Qed.

(** After a successful construction every two-sided bound is a proper
    interval. *)
Lemma init_two_sided_valid float32 model best_f obj cs maximize self k lo up :
  __init__ float32 model best_f obj cs maximize = Ok self ->
  dict_get cs k = Some (Some lo, Some up) -> lo < up.
Proof.
  intros Hinit Hget. destruct (Rlt_dec lo up) as [H | H]; [exact H | exfalso].
  apply init_ok_inv in Hinit as (b & Hb & _).
  rewrite (preprocess_invalid obj cs k lo up Hget) in Hb by lra. discriminate.
Qed.

Lemma init_objective_free float32 model best_f obj cs maximize self :
  __init__ float32 model best_f obj cs maximize = Ok self -> ~ In obj (keys cs).
Proof.
  intros Hinit Hin. apply init_ok_inv in Hinit as (b & Hb & _).
  rewrite (preprocess_objective obj cs Hin) in Hb. discriminate.
Qed.

Lemma Rprod_unit l : (forall x, In x l -> 0 <= x <= 1) -> 0 <= Rprod l <= 1.
Proof.
  induction l as [|a l IH]; intro H; simpl; [lra|].
  destruct (H a (or_introl eq_refl)) as [Ha0 Ha1].
  destruct IH as [H0 H1]; [intros x Hx; apply H; right; exact Hx|].
  split; [apply Rmult_le_pos; assumption|].
  assert (0 <= (1 - a) * Rprod l) by (apply Rmult_le_pos; lra). lra.
Qed.

Lemma div_le_sigma a b s : 0 < s -> a <= b -> a / s <= b / s.
Proof.
  intros Hs H. unfold Rdiv.
  apply Rmult_le_compat_r; [left; apply Rinv_0_lt_compat, Hs | exact H].
Qed.

(** The feasibility probability is a probability. *)
Lemma feasibility_range fm fs J L U B :
  (forall p, In p B -> 0 < fs (J ++ [fst p])) ->
  (forall p, In p B -> fst (snd p) <= snd (snd p)) ->
  0 <= feasibility fm fs J L U B <= 1.
Proof.
  intros Hs HB. unfold feasibility, prob_lower, prob_upper, prob_both.
  assert (HL1 : 0 <= Rprod (map (fun p => 1 - std_normal_cdf
                  ((snd p - fm (J ++ [fst p])) / fs (J ++ [fst p]))) L) <= 1).
  { apply Rprod_unit. intros x Hx. apply in_map_iff in Hx as (p & <- & Hp).
    pose proof (std_normal_cdf_nonneg ((snd p - fm (J ++ [fst p])) / fs (J ++ [fst p]))).
    pose proof (std_normal_cdf_le_1 ((snd p - fm (J ++ [fst p])) / fs (J ++ [fst p]))).
    lra. }
  assert (HU1 : 0 <= Rprod (map (fun p => std_normal_cdf
                  ((snd p - fm (J ++ [fst p])) / fs (J ++ [fst p]))) U) <= 1).
  { apply Rprod_unit. intros x Hx. apply in_map_iff in Hx as (p & <- & Hp).
    split; [apply std_normal_cdf_nonneg | apply std_normal_cdf_le_1]. }
  assert (HB1 : 0 <= Rprod (map (fun p =>
                  std_normal_cdf ((snd (snd p) - fm (J ++ [fst p])) / fs (J ++ [fst p]))
                  - std_normal_cdf ((fst (snd p) - fm (J ++ [fst p])) / fs (J ++ [fst p])))
                  B) <= 1).
  { apply Rprod_unit. intros x Hx. apply in_map_iff in Hx as (p & <- & Hp).
    pose proof (std_normal_cdf_nonneg ((fst (snd p) - fm (J ++ [fst p])) / fs (J ++ [fst p]))).
    pose proof (std_normal_cdf_le_1 ((snd (snd p) - fm (J ++ [fst p])) / fs (J ++ [fst p]))).
    assert (Hle : (fst (snd p) - fm (J ++ [fst p])) / fs (J ++ [fst p])
                  <= (snd (snd p) - fm (J ++ [fst p])) / fs (J ++ [fst p])).
    { apply div_le_sigma; [apply Hs, Hp|]. pose proof (HB p Hp). lra. }
    apply std_normal_cdf_increasing in Hle. lra. }
  set (a := Rprod _) in HL1 |- *. set (b := Rprod _) in HU1 |- *.
  set (c := Rprod _) in HB1 |- *.
  assert (Hab : 0 <= a * b <= 1).
  { split; [apply Rmult_le_pos; lra|].
    assert (0 <= (1 - a) * b) by (apply Rmult_le_pos; lra). lra. }
  split.
  - apply Rmult_le_pos; [|lra]. lra.
  - assert (0 <= (1 - a * b) * c) by (apply Rmult_le_pos; lra). lra.
Qed.

(** Rounding to single precision does not reverse the order of the two
    bounds of a two-sided constraint. *)
Lemma stored_pairs_ordered float32 model best_f obj cs maximize self p :
  (forall x y, x <= y -> float32 x <= float32 y) ->
  __init__ float32 model best_f obj cs maximize = Ok self ->
  In p (stored_pairs float32 (two_sided cs (keys cs))) ->
  fst (snd p) <= snd (snd p).
Proof.
  intros Hmono Hinit Hp.
  apply in_map_iff in Hp as (q & <- & Hq). simpl.
  apply Hmono. left.
  apply (init_two_sided_valid _ _ _ _ _ _ _ (fst q) _ _ Hinit).
  clear Hinit. revert Hq. generalize (keys cs) as ks.
  induction ks as [|k ks IH]; simpl; [tauto|].
  destruct (dict_get cs k) as [[[lo|] [up|]]|] eqn:E; simpl; try exact IH.
  intros [<- | H]; [simpl; exact E | apply IH, H].
Qed.

Lemma bidx_batch1 n i j : (j < n)%nat -> bidx [n; 1%nat] [i; j; 0%nat] = [j; 0%nat].
Proof.
  intro Hj. unfold bidx; simpl.
  destruct (Nat.eqb_spec n 1); [|reflexivity].
  assert (j = 0%nat) by lia. subst. reflexivity.
Qed.

(** [forward] on a batch of [n] candidates: an [n x n] tensor whose entry
    [(i, j)] is the value for candidate [j]. *)
Lemma CEI_forward_batch1
    (float32 : R -> R) (model : Model) (best_f : Tensor) (obj : nat)
    (cs : Constraints) (maximize : bool) (self : t) X n d k mu v sf f :
  let p := posterior model X in
  __init__ float32 model best_f obj cs maximize = Ok self ->
  shape X = [n; 1%nat; d] ->
  represents (mean p) [n; 1%nat; k] mu ->
  represents (variance p) [n; 1%nat; k] v ->
  (obj < k)%nat ->
  (forall c, In c (keys cs) -> (c < k)%nat) ->
  represents best_f sf f ->
  broadcast_shapes sf [n; 1%nat] = Some [n; 1%nat] ->
  exists out, forward self X = Ok out /\
    represents out [n; n]
      (fun K' =>
         let j := nth 1 K' 0%nat in
         let m := fun I => mu (removelast I ++ [0%nat; last I 0%nat]) in
         let s := fun I => Rmax (sqrt (v (removelast I ++ [0%nat; last I 0%nat]))) 1e-9 in
         ei_of_sigma (m [j; obj]) (s [j; obj]) (f (bidx sf [j; 0%nat])) maximize
         * feasibility m s [j] (stored float32 (lower_only cs (keys cs)))
             (stored float32 (upper_only cs (keys cs)))
             (stored_pairs float32 (two_sided cs (keys cs)))).
Proof.
  intros p Hinit HX Hm Hv Hobj Hk Hf Hbf.
  destruct (CEI_forward_represents model best_f obj cs maximize self X [n] d k
              mu v sf f [n; n; 1%nat] float32 Hinit HX Hm Hv Hobj Hk Hf Hbf
              (broadcast_batch_1d n)) as (out & S' & E & HS & R).
  assert (S' = [n; n]).
  { apply (app_inj_tail [n; n] S' 1%nat 1%nat) in HS. symmetry. apply HS. }
  subst S'. exists out. split; [exact E|].
  eapply represents_ext; [exact R|].
  intros K' HK'. cbv zeta.
  inversion HK' as [|i n0 K1 s1 Hi HK1]; subst.
  inversion HK1 as [|j n1 K2 s2 Hj HK2]; subst. inversion HK2; subst.
  change (([n] ++ [1%nat])) with [n; 1%nat].
  change ([i; j] ++ [0%nat]) with [i; j; 0%nat].
  rewrite (bidx_batch1 n i j Hj). reflexivity.
Qed.

End ConstrainedEIFacts.

(** [{0: (0.0, None), 2: (None, 1.0), 3: (-1.0, 1.0)}]: one constraint of
    each kind, the objective being output 1 of four. *)
Definition constraints_mixed : ConstrainedExpectedImprovement.Constraints :=
  [(0%nat, (Some 0, None)); (2%nat, (None, Some 1)); (3%nat, (Some (- (1)), Some 1))].

Definition cei_mixed : ConstrainedExpectedImprovement.t :=
  ConstrainedExpectedImprovement.mk model_two_outputs true 1 constraints_mixed
    (scalar 0) [0%nat] [2%nat] [3%nat]
    (tensor_of_pairs [(- (1), 1)]) (tensor_of_list [0]) (tensor_of_list [1]).

Lemma cei_mixed_init :
  ConstrainedExpectedImprovement.__init__ float32_exact model_two_outputs
    (scalar 0) 1 constraints_mixed true = Ok cei_mixed.
Proof.
  unfold ConstrainedExpectedImprovement.__init__,
    ConstrainedExpectedImprovement._preprocess_constraint_bounds.
  simpl. destruct (Rle_dec 1 (- (1))) as [H | H]; [exfalso; lra | reflexivity].
Qed.

(** X12.  After a successful construction the three index lists partition
    the bounded constraints by kind: an output index is in
    [constraint_lower_inds] exactly when its entry has a lower bound only,
    in [constraint_upper_inds] exactly when it has an upper bound only, in
    [constraint_both_inds] exactly when it has both; every two-sided entry
    has [lower < upper]; and the objective index is in none of the lists. *)
Theorem constraint_groups_partition
    (float32 : R -> R) (model : Model) (best_f : Tensor) (objective_index : nat)
    (constraints : ConstrainedExpectedImprovement.Constraints) (maximize : bool)
    (self : ConstrainedExpectedImprovement.t) :
  ConstrainedExpectedImprovement.__init__ float32 model best_f objective_index
    constraints maximize = Ok self ->
  (forall k, In k (ConstrainedExpectedImprovement.constraint_lower_inds self) <->
     exists lo, ConstrainedExpectedImprovement.dict_get constraints k
                = Some (Some lo, None)) /\
  (forall k, In k (ConstrainedExpectedImprovement.constraint_upper_inds self) <->
     exists up, ConstrainedExpectedImprovement.dict_get constraints k
                = Some (None, Some up)) /\
  (forall k, In k (ConstrainedExpectedImprovement.constraint_both_inds self) <->
     exists lo up, ConstrainedExpectedImprovement.dict_get constraints k
                   = Some (Some lo, Some up) /\ lo < up) /\
  ~ In objective_index
      (ConstrainedExpectedImprovement.constraint_lower_inds self
       ++ ConstrainedExpectedImprovement.constraint_upper_inds self
       ++ ConstrainedExpectedImprovement.constraint_both_inds self).
Proof.
  intro Hinit.
  pose proof (ConstrainedEISpec.init_groups _ _ _ _ _ _ _ Hinit)
    as (HLi & _ & HUi & _ & HBi & _).
  rewrite HLi, HUi, HBi, !ConstrainedEISpec.stored_fst,
    ConstrainedEISpec.stored_pairs_fst.
  split; [|split; [|split]].
  - intro k. split.
    + intro Hin. apply in_map_iff in Hin as (p & <- & Hp).
      exists (snd p). apply (lower_only_get _ _ _ Hp).
    + intros (lo & Hget). apply in_map_iff. exists (k, lo). split; [reflexivity|].
      apply ConstrainedEIFacts.lower_only_complete; [|exact Hget].
      apply (ConstrainedEISpec.dict_get_in_keys _ _ _ Hget).
  - intro k. split.
    + intro Hin. apply in_map_iff in Hin as (p & <- & Hp).
      exists (snd p). apply (upper_only_get _ _ _ Hp).
    + intros (up & Hget). apply in_map_iff. exists (k, up). split; [reflexivity|].
      apply ConstrainedEIFacts.upper_only_complete; [|exact Hget].
      apply (ConstrainedEISpec.dict_get_in_keys _ _ _ Hget).
  - intro k. split.
    + intro Hin. apply in_map_iff in Hin as (p & <- & Hp).
      exists (fst (snd p)), (snd (snd p)).
      pose proof (two_sided_get _ _ _ Hp) as Hget. split; [exact Hget|].
      apply (ConstrainedEIFacts.init_two_sided_valid _ _ _ _ _ _ _ _ _ _ Hinit Hget).
    + intros (lo & up & Hget & _). apply in_map_iff. exists (k, (lo, up)).
      split; [reflexivity|].
      apply ConstrainedEIFacts.two_sided_complete; [|exact Hget].
      apply (ConstrainedEISpec.dict_get_in_keys _ _ _ Hget).
  - intro Hin.
    apply (ConstrainedEIFacts.init_objective_free _ _ _ _ _ _ _ Hinit).
    apply in_app_or in Hin as [Hin | Hin]; [|apply in_app_or in Hin as [Hin | Hin]];
      apply in_map_iff in Hin as (p & <- & Hp).
    + apply (ConstrainedEISpec.lower_only_keys _ _ _ Hp).
    + apply (ConstrainedEISpec.upper_only_keys _ _ _ Hp).
    + apply (ConstrainedEISpec.two_sided_keys _ _ _ Hp).
Qed.

(** The partition for one constraint of each kind. *)
Lemma constraint_groups_partition_witness :
  In 3%nat (ConstrainedExpectedImprovement.constraint_both_inds cei_mixed) <->
  exists lo up,
    ConstrainedExpectedImprovement.dict_get constraints_mixed 3 = Some (Some lo, Some up) /\
    lo < up.
Proof.
  destruct (constraint_groups_partition float32_exact model_two_outputs (scalar 0) 1
              constraints_mixed true cei_mixed cei_mixed_init) as (_ & _ & H & _).
  apply H.
Defined.

(** X13.  The bound tensors registered at construction line up with the
    index lists: [constraint_lower] and [constraint_upper] have one entry
    per index of their list, [constraint_both] one row (lower, upper) per
    index, and the entry (row) at position [j] holds the bound(s) the
    dictionary gives for the [j]-th index of the list, rounded to single
    precision. *)
Theorem constraint_bounds_aligned
    (float32 : R -> R) (model : Model) (best_f : Tensor) (objective_index : nat)
    (constraints : ConstrainedExpectedImprovement.Constraints) (maximize : bool)
    (self : ConstrainedExpectedImprovement.t) :
  ConstrainedExpectedImprovement.__init__ float32 model best_f objective_index
    constraints maximize = Ok self ->
  let L := ConstrainedExpectedImprovement.constraint_lower_inds self in
  let U := ConstrainedExpectedImprovement.constraint_upper_inds self in
  let B := ConstrainedExpectedImprovement.constraint_both_inds self in
  shape (ConstrainedExpectedImprovement.constraint_lower self) = [length L] /\
  shape (ConstrainedExpectedImprovement.constraint_upper self) = [length U] /\
  (B <> [] ->
   shape (ConstrainedExpectedImprovement.constraint_both self) = [length B; 2%nat]) /\
  (forall j, (j < length L)%nat ->
     exists lo,
       ConstrainedExpectedImprovement.dict_get constraints (nth j L 0%nat)
       = Some (Some lo, None) /\
       get (ConstrainedExpectedImprovement.constraint_lower self) [j] = float32 lo) /\
  (forall j, (j < length U)%nat ->
     exists up,
       ConstrainedExpectedImprovement.dict_get constraints (nth j U 0%nat)
       = Some (None, Some up) /\
       get (ConstrainedExpectedImprovement.constraint_upper self) [j] = float32 up) /\
  (forall j, (j < length B)%nat ->
     exists lo up,
       ConstrainedExpectedImprovement.dict_get constraints (nth j B 0%nat)
       = Some (Some lo, Some up) /\
       get (ConstrainedExpectedImprovement.constraint_both self) [j; 0%nat]
       = float32 lo /\
       get (ConstrainedExpectedImprovement.constraint_both self) [j; 1%nat]
       = float32 up).
Proof.
  intros Hinit L U B. subst L U B.
  pose proof (ConstrainedEISpec.init_groups _ _ _ _ _ _ _ Hinit)
    as (HLi & HLv & HUi & HUv & HBi & HBv & _).
  rewrite HLi, HLv, HUi, HUv, HBi, HBv.
  rewrite !ConstrainedEISpec.stored_fst, !ConstrainedEISpec.stored_snd,
    ConstrainedEISpec.stored_pairs_fst, ConstrainedEISpec.stored_pairs_snd.
  set (ks := ConstrainedExpectedImprovement.keys constraints).
  set (Ls := ConstrainedEISpec.lower_only constraints ks).
  set (Us := ConstrainedEISpec.upper_only constraints ks).
  set (Bs := ConstrainedEISpec.two_sided constraints ks).
  rewrite !length_map.
  split; [unfold tensor_of_list; simpl; rewrite !length_map; reflexivity|].
  split; [unfold tensor_of_list; simpl; rewrite !length_map; reflexivity|].
  split; [|split; [|split]].
  - intro Hne. destruct Bs as [|b0 Bs']; [contradiction|].
    unfold tensor_of_pairs; simpl. rewrite !length_map. reflexivity.
  - intros j Hj. exists (snd (nth j Ls (0%nat, 0))).
    pose proof (lower_only_get constraints ks (nth j Ls (0%nat, 0)) (nth_In _ _ Hj)) as Hg.
    rewrite (map_nth fst Ls (0%nat, 0) j : nth j (map fst Ls) 0%nat = _).
    split; [exact Hg|].
    destruct (represents_tensor_of_list (map float32 (map snd Ls))) as (_ & _ & Hget).
    rewrite Hget by (repeat constructor; rewrite !length_map; exact Hj).
    simpl. rewrite (nth_indep _ 0 (float32 0)) by (rewrite !length_map; exact Hj).
    rewrite map_nth. f_equal. apply (map_nth snd Ls (0%nat, 0) j).
  - intros j Hj. exists (snd (nth j Us (0%nat, 0))).
    pose proof (upper_only_get constraints ks (nth j Us (0%nat, 0)) (nth_In _ _ Hj)) as Hg.
    rewrite (map_nth fst Us (0%nat, 0) j : nth j (map fst Us) 0%nat = _).
    split; [exact Hg|].
    destruct (represents_tensor_of_list (map float32 (map snd Us))) as (_ & _ & Hget).
    rewrite Hget by (repeat constructor; rewrite !length_map; exact Hj).
    simpl. rewrite (nth_indep _ 0 (float32 0)) by (rewrite !length_map; exact Hj).
    rewrite map_nth. f_equal. apply (map_nth snd Us (0%nat, 0) j).
  - intros j Hj.
    exists (fst (snd (nth j Bs (0%nat, (0, 0))))), (snd (snd (nth j Bs (0%nat, (0, 0))))).
    pose proof (two_sided_get constraints ks (nth j Bs (0%nat, (0, 0))) (nth_In _ _ Hj))
      as Hg.
    rewrite (map_nth fst Bs (0%nat, (0, 0)) j : nth j (map fst Bs) 0%nat = _).
    split; [exact Hg|].
    set (cast := fun p : R * R => (float32 (fst p), float32 (snd p))).
    assert (Hne : map cast (map snd Bs) <> []).
    { destruct Bs; [simpl in Hj; lia | discriminate]. }
    destruct (represents_tensor_of_pairs (map cast (map snd Bs)) Hne) as (_ & _ & Hget).
    rewrite !length_map in Hget.
    rewrite !Hget
      by (apply Forall2_cons; [exact Hj | apply Forall2_cons; [lia | apply Forall2_nil]]).
    rewrite (nth_indep _ (0, 0) (cast (0, 0))) by (rewrite !length_map; exact Hj).
    rewrite map_nth.
    rewrite (map_nth snd Bs (0%nat, (0, 0)) j : nth j (map snd Bs) (0, 0) = _).
    split; reflexivity.
Qed.

Lemma constraint_bounds_aligned_witness :
  exists lo up,
    ConstrainedExpectedImprovement.dict_get constraints_mixed 3
    = Some (Some lo, Some up) /\
    get (ConstrainedExpectedImprovement.constraint_both cei_mixed) [0%nat; 0%nat]
    = float32_exact lo /\
    get (ConstrainedExpectedImprovement.constraint_both cei_mixed) [0%nat; 1%nat]
    = float32_exact up.
Proof.
  destruct (constraint_bounds_aligned float32_exact model_two_outputs (scalar 0) 1
              constraints_mixed true cei_mixed cei_mixed_init)
    as (_ & _ & _ & _ & _ & H).
  apply (H 0%nat). simpl. lia.
Defined.

(** A four-output model with mean 0 and variance 1 on a batch of two. *)
Definition model_four_outputs : Model :=
  mkModel (fun _ => mkPosterior (full [2%nat; 1%nat; 4%nat] 0)
                      (full [2%nat; 1%nat; 4%nat] 1)).

Definition cei_mixed4 : ConstrainedExpectedImprovement.t :=
  ConstrainedExpectedImprovement.mk model_four_outputs true 1 constraints_mixed
    (scalar 0) [0%nat] [2%nat] [3%nat]
    (tensor_of_pairs [(- (1), 1)]) (tensor_of_list [0]) (tensor_of_list [1]).

Lemma cei_mixed4_init :
  ConstrainedExpectedImprovement.__init__ float32_exact model_four_outputs
    (scalar 0) 1 constraints_mixed true = Ok cei_mixed4.
Proof.
  unfold ConstrainedExpectedImprovement.__init__,
    ConstrainedExpectedImprovement._preprocess_constraint_bounds.
  simpl. destruct (Rle_dec 1 (- (1))) as [H | H]; [exfalso; lra | reflexivity].
Qed.

Lemma constraints_mixed_keys k :
  In k (ConstrainedExpectedImprovement.keys constraints_mixed) -> (k < 4)%nat.
Proof. simpl. intros [<- | [<- | [<- | []]]]; lia. Qed.

(** X14.  On a batch of [n] candidates ([X] of shape [n x 1 x d]) with a
    [k]-output posterior of non-negative variance,
    [ConstrainedExpectedImprovement.forward] returns an [n x n] tensor whose
    entry [(i, j)] is, for every row [i], the value of candidate [j]: the
    Expected Improvement of the objective output with
    [sigma = max (sqrt v) 1e-9], multiplied by the product over the
    lower-bounded outputs of [1 - cdf ((lower - mu) / sigma)], over the
    upper-bounded outputs of [cdf ((upper - mu) / sigma)] and over the
    two-sided outputs of [cdf ((upper - mu) / sigma) - cdf ((lower - mu) / sigma)],
    where [lower] and [upper] are the bounds as the buffers hold them: the
    bounds of the dictionary rounded to single precision.  Where the
    objective variance is at least [1e-9] the first factor is the value
    [ExpectedImprovement] gives for the objective output. *)
Theorem constrained_ei_batch_values
    (float32 : R -> R) (model : Model) (best_f : Tensor) (objective_index : nat)
    (constraints : ConstrainedExpectedImprovement.Constraints) (maximize : bool)
    (self : ConstrainedExpectedImprovement.t) (X : Tensor) (n d k : nat)
    (mu v : list nat -> R) (sf : list nat) (f : list nat -> R) :
  let p := posterior model X in
  ConstrainedExpectedImprovement.__init__ float32 model best_f objective_index
    constraints maximize = Ok self ->
  shape X = [n; 1%nat; d] ->
  represents (mean p) [n; 1%nat; k] mu ->
  represents (variance p) [n; 1%nat; k] v ->
  (forall I, in_range I [n; 1%nat; k] -> 0 <= v I) ->
  (objective_index < k)%nat ->
  (forall c, In c (ConstrainedExpectedImprovement.keys constraints) -> (c < k)%nat) ->
  represents best_f sf f ->
  broadcast_shapes sf [n; 1%nat] = Some [n; 1%nat] ->
  exists out,
    ConstrainedExpectedImprovement.forward self X = Ok out /\
    shape out = [n; n] /\
    forall i j, (i < n)%nat -> (j < n)%nat ->
      let m := fun c => mu [j; 0%nat; c] in
      let s := fun c => Rmax (sqrt (v [j; 0%nat; c])) 1e-9 in
      let b := f (bidx sf [j; 0%nat]) in
      let ks := ConstrainedExpectedImprovement.keys constraints in
      get out [i; j] =
        ei_of_sigma (m objective_index) (s objective_index) b maximize
        * (Rprod (map (fun c =>
                         1 - std_normal_cdf ((float32 (snd c) - m (fst c)) / s (fst c)))
                    (ConstrainedEISpec.lower_only constraints ks))
           * Rprod (map (fun c =>
                           std_normal_cdf ((float32 (snd c) - m (fst c)) / s (fst c)))
                      (ConstrainedEISpec.upper_only constraints ks))
           * Rprod (map (fun c =>
                           std_normal_cdf
                             ((float32 (snd (snd c)) - m (fst c)) / s (fst c))
                           - std_normal_cdf
                               ((float32 (fst (snd c)) - m (fst c)) / s (fst c)))
                      (ConstrainedEISpec.two_sided constraints ks))) /\
      (1e-9 <= v [j; 0%nat; objective_index] ->
       ei_of_sigma (m objective_index) (s objective_index) b maximize
       = ei_value (m objective_index) (v [j; 0%nat; objective_index]) b maximize).
Proof.
  intros p Hinit HX Hm Hv _ Hobj Hk Hf Hbf.
  destruct (ConstrainedEIFacts.CEI_forward_batch1 float32 model best_f objective_index
              constraints maximize self X n d k mu v sf f Hinit HX Hm Hv Hobj Hk Hf Hbf)
    as (out & E & (Hs & _ & Hg)).
  exists out. split; [exact E | split; [exact Hs|]].
  intros i j Hi Hj. cbv zeta. split.
  - rewrite Hg by (repeat constructor; assumption).
    cbv zeta. unfold ConstrainedEISpec.feasibility, ConstrainedEISpec.prob_lower,
      ConstrainedEISpec.prob_upper, ConstrainedEISpec.prob_both,
      ConstrainedEISpec.stored, ConstrainedEISpec.stored_pairs.
    rewrite !map_map.
    cbn [nth removelast last app fst snd]. ring.
  - intro Hv9. rewrite ei_value_of_sigma, (clamp_orders_agree _ Hv9). reflexivity.
Qed.

Lemma constrained_ei_batch_values_witness :
  exists out,
    ConstrainedExpectedImprovement.forward cei_mixed4 X_batch2 = Ok out /\
    shape out = [2%nat; 2%nat].
Proof.
  destruct (constrained_ei_batch_values float32_exact model_four_outputs (scalar 0) 1
              constraints_mixed true cei_mixed4 X_batch2 2 1 4
              (fun _ => 0) (fun _ => 1) [] (fun _ => 0)
              cei_mixed4_init eq_refl (represents_full _ _) (represents_full _ _))
    as (out & H1 & H2 & _).
  - intros I _. lra.
  - lia.
  - apply constraints_mixed_keys.
  - apply represents_scalar.
  - reflexivity.
  - exists out. split; assumption.
Defined.

(** X16.  The feasibility probability is a probability: for the groups
    built at construction and positive standard deviations, every entry of
    the tensor [_compute_prob_feas] returns lies between 0 and 1.  The
    bounds are those of the buffers; rounding to single precision is
    monotone, so it does not reverse the two bounds of a two-sided
    constraint. *)
Theorem feasibility_probability_range
    (float32 : R -> R) (model : Model) (best_f : Tensor) (objective_index : nat)
    (constraints : ConstrainedExpectedImprovement.Constraints)
    (maximize : bool) (self : ConstrainedExpectedImprovement.t)
    (X means sigmas : Tensor) (bs : list nat) (d n : nat)
    (mu sigma : list nat -> R) (S : list nat) :
  ConstrainedExpectedImprovement.__init__ float32 model best_f objective_index
    constraints maximize = Ok self ->
  (forall x y, x <= y -> float32 x <= float32 y) ->
  shape X = bs ++ [1%nat; d] ->
  represents means (bs ++ [n]) mu ->
  represents sigmas (bs ++ [n]) sigma ->
  (forall I, in_range I (bs ++ [n]) -> 0 < sigma I) ->
  (forall k, In k (ConstrainedExpectedImprovement.keys constraints) -> (k < n)%nat) ->
  broadcast_shapes (bs ++ [1%nat; 1%nat]) (bs ++ [1%nat]) = Some S ->
  exists prob_feas,
    ConstrainedExpectedImprovement._compute_prob_feas self X means sigmas
      = Ok prob_feas /\
    forall x, In x (data prob_feas) -> 0 <= x <= 1.
Proof.
  intros Hinit Hmono HX Hm Hs Hpos Hk Hb.
  pose proof (ConstrainedEISpec.init_groups _ _ _ _ _ _ _ Hinit)
    as (HLi & HLv & HUi & HUv & HBi & HBv & _).
  assert (HkB : forall q,
             In q (ConstrainedEISpec.stored_pairs float32
                     (ConstrainedEISpec.two_sided constraints
                        (ConstrainedExpectedImprovement.keys constraints))) ->
             (fst q < n)%nat).
  { intros q Hq. apply in_map_iff in Hq as (q0 & <- & Hq0). simpl.
    apply Hk, (ConstrainedEISpec.two_sided_keys _ _ _ Hq0). }
  destruct (ConstrainedEISpec.prob_feas_represents self X bs d n means sigmas
              mu sigma _ _ _ S HX Hm Hs HLi HLv HUi HUv HBi HBv)
    as (pf & cur & E & Hcur & R).
  - apply (ConstrainedEISpec.stored_keys float32 _ (fun c => (c < n)%nat)).
    intros p Hp. apply Hk, (ConstrainedEISpec.lower_only_keys _ _ _ Hp).
  - apply (ConstrainedEISpec.stored_keys float32 _ (fun c => (c < n)%nat)).
    intros p Hp. apply Hk, (ConstrainedEISpec.upper_only_keys _ _ _ Hp).
  - apply Forall_forall. exact HkB.
  - exact Hb.
  - exists pf. split; [exact E|].
    intros x Hx. destruct (represents_in_data _ _ _ _ R Hx) as (K & HK & ->).
    apply ConstrainedEIFacts.feasibility_range.
    + intros q Hq.
      destruct Hcur as [(_ & _ & _ & HB0) | ->].
      { rewrite HB0 in Hq. contradiction. }
      destruct (bidx_in_range _ _ _ _ Hb HK) as [_ HK2].
      apply in_range_snoc_inv in HK2 as (J & c & EJ & HJ & Hc).
      rewrite EJ, removelast_last.
      apply Hpos. apply in_range_snoc; [exact HJ|].
      apply HkB, Hq.
    + intros q Hq.
      apply (ConstrainedEIFacts.stored_pairs_ordered _ _ _ _ _ _ _ _ Hmono Hinit Hq).
Qed.

Lemma feasibility_probability_range_witness :
  exists prob_feas,
    ConstrainedExpectedImprovement._compute_prob_feas cei_mixed4 X_batch2
      (full [2%nat; 4%nat] 0) (full [2%nat; 4%nat] 1) = Ok prob_feas /\
    forall x, In x (data prob_feas) -> 0 <= x <= 1.
Proof.
  apply (feasibility_probability_range float32_exact model_four_outputs (scalar 0) 1
           constraints_mixed true cei_mixed4 X_batch2
           (full [2%nat; 4%nat] 0) (full [2%nat; 4%nat] 1) [2%nat] 1 4
           (fun _ => 0) (fun _ => 1) [2%nat; 2%nat; 1%nat]
           cei_mixed4_init float32_exact_monotone eq_refl
           (represents_full _ _) (represents_full _ _)).
  - intros I _. lra.
  - apply constraints_mixed_keys.
  - reflexivity.
Defined.

(** X17.  [ConstrainedExpectedImprovement.forward] cannot be evaluated on a
    batch with two batch dimensions of different sizes: for [X] of shape
    [a x b x 1 x d] with [a <> b] and neither equal to 1, it raises a
    [RuntimeError], because the feasibility tensor of ones
    [a x b x 1 x 1] does not broadcast against the [a x b x 1] tensors it
    is multiplied with. *)
Theorem constrained_ei_two_batch_dims_fail
    (float32 : R -> R) (model : Model) (best_f : Tensor) (objective_index : nat)
    (constraints : ConstrainedExpectedImprovement.Constraints) (maximize : bool)
    (self : ConstrainedExpectedImprovement.t) (X : Tensor) (a b d n : nat)
    (mu v : list nat -> R) (sf : list nat) (f : list nat -> R) :
  let p := posterior model X in
  ConstrainedExpectedImprovement.__init__ float32 model best_f objective_index
    constraints maximize = Ok self ->
  shape X = [a; b; 1%nat; d] ->
  represents (mean p) [a; b; 1%nat; n] mu ->
  represents (variance p) [a; b; 1%nat; n] v ->
  (objective_index < n)%nat ->
  (forall k, In k (ConstrainedExpectedImprovement.keys constraints) -> (k < n)%nat) ->
  represents best_f sf f ->
  broadcast_shapes sf [a; b; 1%nat] = Some [a; b; 1%nat] ->
  a <> b -> a <> 1%nat -> b <> 1%nat ->
  ConstrainedExpectedImprovement.forward self X = Err RuntimeError.
Proof.
  intro p. apply ConstrainedEIBatch.CEI_forward_two_batch_dims.
Qed.

(** A four-output model with mean 0 and variance 1 on a [2 x 3] batch. *)
Definition model_four_outputs_2x3 : Model :=
  mkModel (fun _ => mkPosterior (full [2%nat; 3%nat; 1%nat; 4%nat] 0)
                      (full [2%nat; 3%nat; 1%nat; 4%nat] 1)).

Lemma constrained_ei_two_batch_dims_fail_witness :
  ConstrainedExpectedImprovement.forward
    (ConstrainedExpectedImprovement.mk model_four_outputs_2x3 true 1 constraints_mixed
       (scalar 0) [0%nat] [2%nat] [3%nat]
       (tensor_of_pairs [(- (1), 1)]) (tensor_of_list [0]) (tensor_of_list [1]))
    (zeros [2%nat; 3%nat; 1%nat; 1%nat]) = Err RuntimeError.
Proof.
  apply (constrained_ei_two_batch_dims_fail float32_exact model_four_outputs_2x3
           (scalar 0) 1
           constraints_mixed true _ (zeros [2%nat; 3%nat; 1%nat; 1%nat]) 2 3 1 4
           (fun _ => 0) (fun _ => 1) [] (fun _ => 0)).
  - unfold ConstrainedExpectedImprovement.__init__,
      ConstrainedExpectedImprovement._preprocess_constraint_bounds.
    simpl. destruct (Rle_dec 1 (- (1))) as [H | H]; [exfalso; lra | reflexivity].
  - reflexivity.
  - apply represents_full.
  - apply represents_full.
  - lia.
  - apply constraints_mixed_keys.
  - apply represents_scalar.
  - reflexivity.
  - lia.
  - lia.
  - lia.
Defined.

(** X18.  Construction does not check the objective index against the
    model: when the posterior has [k] outputs and the objective index is
    [k] or more, [ConstrainedExpectedImprovement.forward] raises an
    [IndexError] at evaluation. *)
Theorem constrained_ei_objective_index_out_of_range
    (float32 : R -> R) (model : Model) (best_f : Tensor) (objective_index : nat)
    (constraints : ConstrainedExpectedImprovement.Constraints) (maximize : bool)
    (self : ConstrainedExpectedImprovement.t) (X : Tensor) (bs : list nat)
    (d k : nat) (mu v : list nat -> R) :
  let p := posterior model X in
  ConstrainedExpectedImprovement.__init__ float32 model best_f objective_index
    constraints maximize = Ok self ->
  shape X = bs ++ [1%nat; d] ->
  represents (mean p) (bs ++ [1%nat; k]) mu ->
  represents (variance p) (bs ++ [1%nat; k]) v ->
  (k <= objective_index)%nat ->
  ConstrainedExpectedImprovement.forward self X = Err IndexError.
Proof.
  intros p Hinit HX Hm Hv Hobj.
  pose proof (ConstrainedEISpec.init_groups _ _ _ _ _ _ _ Hinit)
    as (_ & _ & _ & _ & _ & _ & Hmodel & _ & Hoi & _).
  pose proof (represents_squeeze2 _ _ _ _ Hm) as (means & Em & Rm).
  pose proof (represents_squeeze2 _ _ _ _ Hv) as (vs & Ev & Rv).
  unfold ConstrainedExpectedImprovement.forward.
  rewrite (t_batch_mode_transform_q1 _ _ _ _ HX).
  rewrite Hmodel, ConstrainedEISpec._get_posterior_unchecked. cbn [bind]. fold p.
  rewrite Em; cbn [bind]. rewrite Ev; cbn [bind].
  unfold ConstrainedExpectedImprovement.objective_ei, index_last.
  rewrite (proj1 Rm), rev_app_distr, Hoi. cbn [rev app forallb].
  destruct (Nat.ltb_spec objective_index k); [lia|]. reflexivity.
Qed.

Lemma constrained_ei_objective_index_out_of_range_witness :
  ConstrainedExpectedImprovement.forward
    (ConstrainedExpectedImprovement.mk model_two_outputs true 5 constraints_lower0
       (scalar 0) [0%nat] [] [] (tensor_of_pairs []) (tensor_of_list [0])
       (tensor_of_list []))
    X_batch2 = Err IndexError.
Proof.
  apply (constrained_ei_objective_index_out_of_range float32_exact
           model_two_outputs (scalar 0) 5
           constraints_lower0 true _ X_batch2 [2%nat] 1 2 (fun _ => 0) (fun _ => 1)).
  - reflexivity.
  - reflexivity.
  - apply represents_full.
  - apply represents_full.
  - lia.
Defined.

(** ** The fantasy model of Noisy Expected Improvement *)

(** X20.  The model Noisy Expected Improvement evaluates is the noiseless
    fantasy model: after construction from a [FixedNoiseGP] with
    [nf >= 1] fantasies of [m >= 1] targets, the acquisition function's
    model is a [FixedNoiseGP] whose training inputs are [nf] stacked copies
    of [X_observed], whose training targets are the sampled fantasies (the
    trailing dimension squeezed), whose observation noise is [1e-7]
    everywhere with the shape [nf x m] of the targets, and whose
    hyperparameters are those of the original model; the training data and
    the noise of the original model are not used. *)
Theorem noisy_ei_fantasy_model
    (Hyper : Type)
    (gp_posterior : NoisyExpectedImprovement.FixedNoiseGP Hyper -> Tensor -> Posterior)
    (default_hyper : Hyper) (draw : nat -> Posterior -> Tensor)
    (g : NoisyExpectedImprovement.FixedNoiseGP Hyper) (X_observed : Tensor)
    (nf m : nat) (maximize : bool) (Y : list nat -> R) :
  represents (draw nf (gp_posterior g X_observed)) [nf; m; 1%nat] Y ->
  nf <> 0%nat ->
  m <> 0%nat ->
  exists self fantasy_model,
    NoisyExpectedImprovement.__init__ Hyper gp_posterior default_hyper draw
      (NoisyExpectedImprovement.IsFixedNoiseGP Hyper g) X_observed
      (Z.of_nat nf) maximize = Ok self /\
    ExpectedImprovement.model self
      = NoisyExpectedImprovement.as_model Hyper gp_posterior fantasy_model /\
    ExpectedImprovement.objective self = None /\
    shape (NoisyExpectedImprovement.train_inputs Hyper fantasy_model)
      = nf :: shape X_observed /\
    (forall j I, (j < nf)%nat -> in_range I (shape X_observed) ->
       get (NoisyExpectedImprovement.train_inputs Hyper fantasy_model) (j :: I)
       = get X_observed I) /\
    shape (NoisyExpectedImprovement.train_targets Hyper fantasy_model) = [nf; m] /\
    (forall j c, (j < nf)%nat -> (c < m)%nat ->
       get (NoisyExpectedImprovement.train_targets Hyper fantasy_model) [j; c]
       = Y [j; c; 0%nat]) /\
    NoisyExpectedImprovement.noise Hyper fantasy_model = full [nf; m] 1e-7 /\
    NoisyExpectedImprovement.state_dict Hyper fantasy_model
      = NoisyExpectedImprovement.state_dict Hyper g.
Proof.
  intros HY Hnf Hm.
  destruct (NEI_init_represents Hyper gp_posterior default_hyper draw g
              X_observed nf m maximize Y HY Hnf Hm)
    as (self & fm & Einit & _ & Hobj & Hmodel & Hsi & Hgi & Rt & Hnoise & Hsd & _).
  exists self, fm.
  split; [exact Einit|]. split; [exact Hmodel|]. split; [exact Hobj|].
  split; [exact Hsi|]. split; [exact Hgi|].
  destruct Rt as (Hst & _ & Hgt).
  split; [exact Hst|]. split; [|split; [exact Hnoise | exact Hsd]].
  intros j c Hj Hc.
  rewrite Hgt
    by (apply Forall2_cons; [exact Hj | apply Forall2_cons; [exact Hc | apply Forall2_nil]]).
  reflexivity.
Qed.

(** The fantasy model for two fantasies of two targets. *)
Lemma noisy_ei_fantasy_model_witness :
  exists self fantasy_model,
    NoisyExpectedImprovement.__init__ unit gp_posterior_trivial tt draw_two
      (NoisyExpectedImprovement.IsFixedNoiseGP unit gp_two_points)
      (mkTensor [2%nat; 1%nat] [0; 1]) 2 true = Ok self /\
    ExpectedImprovement.model self
      = NoisyExpectedImprovement.as_model unit gp_posterior_trivial fantasy_model /\
    NoisyExpectedImprovement.noise unit fantasy_model = full [2%nat; 2%nat] 1e-7.
Proof.
  destruct (noisy_ei_fantasy_model unit gp_posterior_trivial tt draw_two
              gp_two_points (mkTensor [2%nat; 1%nat] [0; 1]) 2 2 true
              (get (mkTensor [2%nat; 2%nat; 1%nat] [1; 3; 5; 2]))
              (represents_self (mkTensor [2%nat; 2%nat; 1%nat] [1; 3; 5; 2]) eq_refl))
    as (self & fm & H1 & H2 & _ & _ & _ & _ & _ & H3 & _).
  - discriminate.
  - discriminate.
  - exists self, fm. split; [exact H1 | split; [exact H2 | exact H3]].
Defined.

(** ** Expected Improvement on a posterior with fewer dimensions than [X] *)

(** [view] keeps the entries in row-major order. *)
Lemma represents_view t s f s' :
  represents t s f -> numel s' = numel s ->
  exists t', view t s' = Ok t' /\
    represents t' s' (fun I => f (unravel s (ravel s' I))).
Proof.
  intros (Hs & Hw & Hg) Hn. unfold view. rewrite Hs, Hn, Nat.eqb_refl.
  eexists; split; [reflexivity|].
  repeat split.
  - unfold well_formed in *; simpl. rewrite Hw, Hs. symmetry; exact Hn.
  - intros I HI.
    assert (Hk : (ravel s' I < numel s)%nat) by (rewrite <- Hn; apply ravel_lt, HI).
    rewrite <- Hg by (apply unravel_in_range, Hk).
    unfold get; simpl. rewrite Hs, (ravel_unravel _ _ Hk). reflexivity.
Qed.

Lemma _get_posterior_last1 model objective X ms :
  shape (mean (posterior_at model objective X)) = ms ++ [1%nat] ->
  _get_posterior model objective X true = Ok (posterior_at model objective X).
Proof.
  intro H. unfold _get_posterior. fold (posterior_at model objective X).
  unfold event_shape. rewrite H, rev_app_distr. reflexivity.
Qed.

Lemma EI_forward_view_by_candidates (self : ExpectedImprovement.t) X xs d ms sf mu v f :
  let p := posterior_at (ExpectedImprovement.model self)
             (ExpectedImprovement.objective self) X in
  shape X = xs ++ [1%nat; d] ->
  represents (mean p) (ms ++ [1%nat]) mu ->
  represents (variance p) (ms ++ [1%nat]) v ->
  (length ms <= length xs)%nat ->
  numel ms = numel xs ->
  represents (ExpectedImprovement.best_f self) sf f ->
  broadcast_shapes sf xs = Some xs ->
  exists out, ExpectedImprovement.forward self X = Ok out /\
    represents out xs
      (fun I => ei_value (mu (unravel (ms ++ [1%nat]) (ravel xs I)))
                  (v (unravel (ms ++ [1%nat]) (ravel xs I)))
                  (f (bidx sf I)) (ExpectedImprovement.maximize self)).
Proof.
  intros p HX Hm Hv Hlen Hnum Hf Hb.
  assert (Hn : numel xs = numel (ms ++ [1%nat]))
    by (rewrite numel_app; simpl; lia).
  pose proof (represents_view _ _ _ xs Hm Hn) as (m' & Em & Rm).
  pose proof (represents_view _ _ _ xs
                (represents_tmap sqrt _ _ _
                   (represents_tmap (fun x => Rmax x 1e-9) _ _ _ Hv)) Hn)
    as (sg & Es & Rs).
  pose proof (represents_expand _ _ _ _ Hf Hb) as (bf & Eb & Rb).
  pose proof (represents_bop_same Rminus _ _ _ _ _ Rm Rb) as (d0 & Ed & Rd).
  pose proof (represents_bop_same Rdiv _ _ _ _ _ Rd Rs) as (u0 & Eu & Ru).
  set (u := if negb (ExpectedImprovement.maximize self) then tneg u0 else u0).
  set (J := fun I => unravel (ms ++ [1%nat]) (ravel xs I)) in *.
  assert (Ruu : represents u xs
            (fun I => if ExpectedImprovement.maximize self
                      then (mu (J I) - f (bidx sf I)) / sqrt (Rmax (v (J I)) 1e-9)
                      else - ((mu (J I) - f (bidx sf I))
                              / sqrt (Rmax (v (J I)) 1e-9)))).
  { unfold u. destruct (ExpectedImprovement.maximize self); simpl.
    - exact Ru.
    - apply (represents_tmap Ropp _ _ _ Ru). }
  pose proof (std_cdf_represents _ _ _ xs Ruu (broadcast_shapes_same xs))
    as (ucdf & Ec & Rc).
  pose proof (std_pdf_represents _ _ _ xs Ruu (broadcast_shapes_same xs))
    as (lp & El & Rl).
  pose proof (represents_bop_same Rmult _ _ _ _ _ Ruu Rc) as (uc & Euc & Ruc).
  pose proof (represents_bop_same Rplus _ _ _ _ _ Rl Ruc) as (s & Esum & Rsum).
  pose proof (represents_bop_same Rmult _ _ _ _ _ Rs Rsum) as (out & Eo & Ro).
  assert (Hshape_u : shape u = xs) by apply Ruu.
  exists out. split.
  - unfold ExpectedImprovement.forward.
    rewrite (t_batch_mode_transform_q1 _ _ _ _ HX).
    rewrite (_get_posterior_last1 _ _ _ ms) by apply Hm.
    cbn [bind]. fold p.
    assert (Hdim : (dim X <=? dim (mean p))%nat = false).
    { apply Nat.leb_gt. unfold dim. destruct Hm as (-> & _). rewrite HX, !length_app.
      simpl. lia. }
    rewrite Hdim, HX, drop_last2_app.
    unfold tsqrt, clamp_min. rewrite Em; cbn [bind]. rewrite Es; cbn [bind].
    unfold expand_as. replace (shape m') with xs by (symmetry; apply Rm).
    rewrite Eb; cbn [bind]. rewrite Ed; cbn [bind]. rewrite Eu; cbn [bind].
    fold u. unfold zeros_like, ones_like. rewrite Hshape_u.
    rewrite Ec; cbn [bind]. rewrite El; cbn [bind].
    rewrite Euc; cbn [bind]. rewrite Esum; cbn [bind]. exact Eo.
  - eapply represents_ext; [exact Ro|].
    intros I HI; simpl. unfold ei_value.
    destruct (ExpectedImprovement.maximize self); reflexivity.
Qed.

(** A single-output model whose posterior at a batch of two carries no
    [q] dimension: mean [(1, 2)] and variance [(4, 9)] of shape [2 x 1]. *)
Definition model_flat : Model :=
  mkModel (fun _ => mkPosterior (mkTensor [2%nat; 1%nat] [1; 2])
                      (mkTensor [2%nat; 1%nat] [4; 9])).

(** X21.  When the posterior mean has fewer dimensions than the candidate
    tensor [X] (shape [xs x 1 x d]), [ExpectedImprovement.forward] views
    mean and standard deviation by the batch shape [xs] of [X]: for a
    single-output posterior of shape [ms x 1] with as many entries as [xs]
    has batch elements, the result has shape [xs], and its entry at batch
    index [I] is [sigma * (pdf u + u * cdf u)] computed from the posterior
    entry at the same row-major position, with
    [sigma = sqrt (max v 1e-9)] and [u = (mu - best_f) / sigma], negated
    when [maximize] is false. *)
Theorem expected_improvement_view_by_candidates
    (self : ExpectedImprovement.t) (X : Tensor) (xs : list nat) (d : nat)
    (ms sf : list nat) (mu v f : list nat -> R) :
  let p := posterior_at (ExpectedImprovement.model self)
             (ExpectedImprovement.objective self) X in
  shape X = xs ++ [1%nat; d] ->
  represents (mean p) (ms ++ [1%nat]) mu ->
  represents (variance p) (ms ++ [1%nat]) v ->
  (length ms <= length xs)%nat ->
  numel ms = numel xs ->
  represents (ExpectedImprovement.best_f self) sf f ->
  broadcast_shapes sf xs = Some xs ->
  exists ei, ExpectedImprovement.forward self X = Ok ei /\ shape ei = xs /\
    forall I, in_range I xs ->
      let J := unravel (ms ++ [1%nat]) (ravel xs I) in
      let sigma := sqrt (Rmax (v J) 1e-9) in
      let u0 := (mu J - f (bidx sf I)) / sigma in
      let u := if ExpectedImprovement.maximize self then u0 else - u0 in
      get ei I = sigma * (std_normal_pdf u + u * std_normal_cdf u).
Proof.
  intros p HX Hm Hv Hlen Hnum Hf Hb.
  destruct (EI_forward_view_by_candidates self X xs d ms sf mu v f
              HX Hm Hv Hlen Hnum Hf Hb) as (ei & E & (Hs & _ & Hg)).
  exists ei. split; [exact E | split; [exact Hs|]].
  intros I HI. cbv zeta. rewrite (Hg I HI). reflexivity.
Qed.

(** A posterior of shape [2 x 1] on a batch [2 x 1 x 1]: the second
    candidate gets the second posterior entry. *)
Lemma expected_improvement_view_by_candidates_witness :
  exists ei,
    ExpectedImprovement.forward
      (ExpectedImprovement.mk model_flat None true (scalar 0)) X_batch2 = Ok ei /\
    shape ei = [2%nat] /\
    get ei [1%nat]
    = sqrt (Rmax 9 1e-9)
      * (std_normal_pdf ((2 - 0) / sqrt (Rmax 9 1e-9))
         + (2 - 0) / sqrt (Rmax 9 1e-9)
           * std_normal_cdf ((2 - 0) / sqrt (Rmax 9 1e-9))).
Proof.
  destruct (expected_improvement_view_by_candidates
              (ExpectedImprovement.mk model_flat None true (scalar 0)) X_batch2
              [2%nat] 1 [2%nat] []
              (get (mkTensor [2%nat; 1%nat] [1; 2]))
              (get (mkTensor [2%nat; 1%nat] [4; 9])) (fun _ => 0)
              eq_refl
              (represents_self (mkTensor [2%nat; 1%nat] [1; 2]) eq_refl)
              (represents_self (mkTensor [2%nat; 1%nat] [4; 9]) eq_refl)
              (Nat.le_refl 1) eq_refl
              (represents_scalar 0) eq_refl) as (ei & H1 & H2 & H3).
  exists ei. split; [exact H1 | split; [exact H2|]].
  apply (H3 [1%nat]). repeat constructor.
Defined.
